(** * EC2 cron scheduler: a shallow embedding of [Script/lambda_function.py]

    The Lambda handler reconciles the power state of tagged EC2 instances
    with a cron expression.  This file embeds the functions of the script
    and proves the properties stated about them.

    Layout:
    - Python values: exceptions, strings, the tag dictionary, [datetime];
    - the [croniter] library as an interface (it is not part of the script);
    - [evaluate_instance], a pure function with a local [try]/[except];
    - effectful code as programs over the requests the script sends to its
      collaborators (boto3, the clock, [random], [time.sleep], [logging]);
    - [ThreadPoolExecutor] as a scheduler-driven interleaving of programs;
    - the theorems. *)

From Stdlib Require Import Ascii String QArith Lqa.
From stdpp Require Import gmap strings list fin_maps.

Local Open Scope string_scope.
Local Open Scope Z_scope.

(** ** Python values *)

(** An exception instance, as far as the script looks at it: the script
    only ever formats [str(e)] and re-raises.  Everything raised by the
    collaborators is an [Exception], which is what [except Exception]
    catches. *)
Inductive exn : Type :=
| Exception (msg : string).

Definition str (e : exn) : string :=
  match e with Exception msg => msg end.

(** The outcome of evaluating a Python expression: a value or a raised
    exception. *)
Inductive Res (A : Type) : Type :=
| Ok (a : A)
| Raise (e : exn).
Arguments Ok {A} a.
Arguments Raise {A} e.

Global Instance exn_eq_dec : EqDecision exn.
Proof. solve_decision. Defined.

Global Instance Res_eq_dec {A} `{EqDecision A} : EqDecision (Res A).
Proof. solve_decision. Defined.

Definition res_bind {A B} (x : Res A) (f : A → Res B) : Res B :=
  match x with
  | Ok a => f a
  | Raise e => Raise e
  end.

(** [try: body except Exception as e: handler(e)] *)
Definition try_except {A} (body : Res A) (handler : exn → Res A) : Res A :=
  match body with
  | Ok a => Ok a
  | Raise e => handler e
  end.

Definition is_raise {A} (x : Res A) : bool :=
  match x with Ok _ => false | Raise _ => true end.

(** [str.lower()].  Strings are byte strings (UTF-8); only the ASCII
    capitals are mapped, every other byte is kept.  For the comparison with
    ['true'] this agrees with Python's Unicode [lower]: no character
    outside ASCII lower-cases to one of [t], [r], [u], [e]. *)
Definition lower_ascii (c : ascii) : ascii :=
  let n := nat_of_ascii c in
  if ((65 <=? n) && (n <=? 90))%nat then ascii_of_nat (n + 32) else c.

Fixpoint lower (s : string) : string :=
  match s with
  | EmptyString => EmptyString
  | String c s' => String (lower_ascii c) (lower s')
  end.

(** [needle in haystack] for strings, as a proposition. *)
Definition contains (haystack needle : string) : Prop :=
  ∃ pre post, haystack = pre ++ needle ++ post.

(** [datetime.datetime], naive (no time zone), as [datetime.now()] returns
    it. *)
Record datetime : Type := mk_datetime {
  year : Z;
  month : Z;
  day : Z;
  hour : Z;
  minute : Z;
  second : Z;
  microsecond : Z
}.

(** ** Instances as [describe_instances] returns them *)

Record Tag : Type := mk_tag {
  Key : string;
  Value : string
}.

(** The ['Tags'] entry is absent for an instance without tags. *)
Record Instance : Type := mk_instance {
  InstanceId : string;
  Tags : option (list Tag)
}.

(** [{tag['Key']: tag['Value'] for tag in instance.get('Tags', [])}]: a
    later tag with the same key overwrites an earlier one. *)
Definition tags_dict (tags : list Tag) : gmap string string :=
  fold_left (λ d tag, <[Key tag := Value tag]> d) tags ∅.

Definition tags_of (instance : Instance) : gmap string string :=
  tags_dict (default [] (Tags instance)).

(** ** The croniter library

    [croniter] is a third-party package: the script calls its two class
    methods and relies on nothing else.  Both may raise. *)
Class Croniter : Type := {
  croniter_is_valid : string → Res bool;
  croniter_match : string → datetime → Res bool
}.

(** The action half of the pair [evaluate_instance] returns: ['start'],
    ['stop'], or [None] (skip). *)
Inductive Action : Type :=
| start
| stop.

Global Instance Action_eq_dec : EqDecision Action.
Proof. solve_decision. Defined.

Section Evaluate.
Context `{!Croniter}.

Definition msg_not_scheduled (instance_id : string) : string :=
  "Skipping instance " ++ instance_id ++
  ": 'WorksOnSchedule' tag is missing or not true.".

Definition msg_no_expression (instance_id : string) : string :=
  "Skipping instance " ++ instance_id ++
  ": 'WorkingExpression' tag is missing or empty.".

Definition msg_start (instance_id : string) : string :=
  "Starting instance " ++ instance_id ++
  ": Current time matches cron expression.".

Definition msg_stop (instance_id : string) : string :=
  "Stopping instance " ++ instance_id ++
  ": Current time does not match cron expression.".

Definition msg_invalid (instance_id working_expression : string) : string :=
  "Skipping instance " ++ instance_id ++
  ": Invalid cron expression '" ++ working_expression ++ "'.".

Definition msg_error (instance_id : string) (e : exn) : string :=
  "Error evaluating instance " ++ instance_id ++ ": " ++ str e.

(** [works_on_schedule is None or works_on_schedule.lower() != 'true'] *)
Definition not_scheduled (works_on_schedule : option string) : bool :=
  match works_on_schedule with
  | None => true
  | Some v => negb (String.eqb (lower v) "true")
  end.

(** [working_expression is None or working_expression == ''] *)
Definition no_expression (working_expression : option string) : bool :=
  match working_expression with
  | None => true
  | Some e => String.eqb e ""
  end.

(** The body of the [try] block. *)
Definition evaluate_cron (instance_id working_expression : string)
    (current_time : datetime) : Res (option Action * string) :=
  res_bind (croniter_is_valid working_expression) (λ valid,
    if valid then
      res_bind (croniter_match working_expression current_time) (λ m,
        if m then Ok (Some start, msg_start instance_id)
        else Ok (Some stop, msg_stop instance_id))
    else Ok (None, msg_invalid instance_id working_expression)).

Definition evaluate_instance (instance : Instance) (current_time : datetime)
    : Res (option Action * string) :=
  let instance_id := InstanceId instance in
  let tags := tags_of instance in
  let works_on_schedule := tags !! "WorksOnSchedule" in
  let working_expression := tags !! "WorkingExpression" in
  if not_scheduled works_on_schedule then
    Ok (None, msg_not_scheduled instance_id)
  else
    match working_expression with
    | None => Ok (None, msg_no_expression instance_id)
    | Some expression =>
        if String.eqb expression "" then
          Ok (None, msg_no_expression instance_id)
        else
          try_except
            (evaluate_cron instance_id expression current_time)
            (λ e, Ok (None, msg_error instance_id e))
    end.

End Evaluate.

(** ** The collaborators of the script

    Everything the script does besides computing goes through one of these
    requests.  A program is a tree of requests; the answer to each request
    comes from the environment. *)

(** A client handle, [boto3.client('ec2', region_name=region)]. *)
Record Client : Type := mk_client {
  region_name : string
}.

Global Instance Client_eq_dec : EqDecision Client.
Proof. solve_decision. Defined.

(** Keyword arguments of a call through the retry executor; the script
    passes [InstanceIds=<list of identifiers>]. *)
Definition Kwargs : Type := list (string * list string).

(** What a boto3 method returns on success (the decoded response body). *)
Inductive Response : Type :=
| ApiResponse (body : string).

Record RegionEntry : Type := mk_region {
  RegionName : string
}.

Record Reservation : Type := mk_reservation {
  Instances : list Instance
}.

Record Page : Type := mk_page {
  Reservations : list Reservation
}.

(** A value of [random.uniform(0, 1)].  Python's floats are taken as
    rationals: the delays are computed exactly, the rounding of the float
    addition is left out. *)
Record unit_interval : Type := mk_unit_interval {
  ui_val : Q;
  ui_range : Qle_bool 0 ui_val && Qle_bool ui_val 1 = true
}.

(** The lines the script logs, with the fields its f-strings interpolate. *)
Inductive LogRecord : Type :=
| WarnRetrying (func_name : string) (kwargs : Kwargs) (e : exn) (sleep_time : Q)
| ErrorNoMoreRetries (func_name : string) (kwargs : Kwargs) (e : exn)
| ErrorProcessingRegion (region : string) (e : exn)
| ErrorBatchOperation (e : exn)
| Info (message : string).

(** The requests, each with the Python expression it stands for. *)
Inductive Req : Type :=
| Boto3Client (region : string)
    (* boto3.client('ec2', region_name=region) *)
| DescribeRegions (client : Client)
    (* client.describe_regions()['Regions'] *)
| Paginate (client : Client)
    (* every page of client.get_paginator('describe_instances').paginate();
       a page fetch that fails makes the whole iteration raise *)
| ApiCall (client : Client) (method : string) (kwargs : Kwargs)
    (* the bound method client.<method> called with the keyword arguments *)
| DatetimeNow
    (* datetime.now() *)
| RandomUniform
    (* random.uniform(0, 1) *)
| Sleep (seconds : Q)
    (* time.sleep(seconds) *)
| Log (record : LogRecord).
    (* logger.info / logger.warning / logger.error *)

(** What the environment answers; a call that can raise answers with a
    [Res]. *)
Definition resp (q : Req) : Type :=
  match q with
  | Boto3Client _ => Res unit
  | DescribeRegions _ => Res (list RegionEntry)
  | Paginate _ => Res (list Page)
  | ApiCall _ _ _ => Res Response
  | DatetimeNow => datetime
  | RandomUniform => unit_interval
  | Sleep _ => unit
  | Log _ => unit
  end.

(** A piece of Python code that ends by returning a value of type [A] or
    by raising: it returns, raises, or sends a request and goes on with
    the answer.  The loops of the script are over finite lists, so the
    trees are finite. *)
Inductive prog (A : Type) : Type :=
| Ret (a : A)
| Throw (e : exn)
| Vis (q : Req) (k : resp q → prog A).
Arguments Ret {A} a.
Arguments Throw {A} e.
Arguments Vis {A} q k.

Fixpoint bind {A B} (p : prog A) (f : A → prog B) : prog B :=
  match p with
  | Ret a => f a
  | Throw e => Throw e
  | Vis q k => Vis q (λ x, bind (k x) f)
  end.

(** [try: p except Exception as e: handler(e)], as a program. *)
Fixpoint catch {A} (p : prog A) (handler : exn → prog A) : prog A :=
  match p with
  | Ret a => Ret a
  | Throw e => handler e
  | Vis q k => Vis q (λ x, catch (k x) handler)
  end.

Definition of_res {A} (x : Res A) : prog A :=
  match x with
  | Ok a => Ret a
  | Raise e => Throw e
  end.

Global Instance prog_ret : MRet prog := @Ret.
Global Instance prog_bind : MBind prog := λ A B f p, bind p f.

(** The requests as Python calls. *)
Definition boto3_client (region : string) : prog Client :=
  Vis (Boto3Client region) of_res;; mret (mk_client region).

Definition describe_regions (client : Client) : prog (list RegionEntry) :=
  Vis (DescribeRegions client) of_res.

Definition paginate (client : Client) : prog (list Page) :=
  Vis (Paginate client) of_res.

Definition datetime_now : prog datetime :=
  Vis DatetimeNow Ret.

Definition random_uniform : prog unit_interval :=
  Vis RandomUniform Ret.

Definition time_sleep (seconds : Q) : prog unit :=
  Vis (Sleep seconds) Ret.

Definition logger (record : LogRecord) : prog unit :=
  Vis (Log record) Ret.

(** A bound method of a client, such as [ec2_client.start_instances]. *)
Record Func : Type := mk_func {
  func_self : Client;
  func_name : string
}.

Definition call (func : Func) (kwargs : Kwargs) : prog Response :=
  Vis (ApiCall (func_self func) (func_name func) kwargs) of_res.

Definition start_instances (ec2_client : Client) : Func :=
  mk_func ec2_client "start_instances".

Definition stop_instances (ec2_client : Client) : Func :=
  mk_func ec2_client "stop_instances".

(** [for x in xs: body(x)] *)
Fixpoint for_each {A} (xs : list A) (body : A → prog unit) : prog unit :=
  match xs with
  | [] => Ret tt
  | x :: xs' => bind (body x) (λ _, for_each xs' body)
  end.

(** [range(start, stop, step)] for a positive step: Python gives it
    [ceil((stop - start) / step)] elements, [start + j * step]. *)
Definition range (start stop step : nat) : list nat :=
  (λ j, start + j * step)%nat <$>
    seq 0 ((stop - start + (step - 1)) / step)%nat.

(** [xs[i:j]] for [0 <= i <= j]; bounds past the end are clamped. *)
Definition slice {A} (xs : list A) (i j : nat) : list A :=
  take (j - i) (drop i xs).

(** ** The functions of the script *)

Definition get_all_regions : prog (list string) :=
  ec2_metadata_client ← boto3_client "us-east-1";
  regions ← describe_regions ec2_metadata_client;
  mret (map RegionName regions).

Definition get_instances_in_region (region : string)
    : prog (list Instance * Client) :=
  ec2_client ← boto3_client region;
  pages ← paginate ec2_client;
  mret (flat_map Instances (flat_map Reservations pages), ec2_client).

Definition max_retries : nat := 5.
Definition base_delay : Z := 1.
Definition max_delay : Z := 32.

(** [min(base_delay * 2 ** attempt, max_delay)], the part of the delay that
    does not depend on [random]. *)
Definition backoff_delay (attempt : nat) : Z :=
  Z.min (base_delay * 2 ^ Z.of_nat attempt) max_delay.

(** One iteration of the retry loop: [Some r] is [return r], [None] goes on
    with the next attempt, a throw leaves the function. *)
Definition backoff_attempt (func : Func) (kwargs : Kwargs) (attempt : nat)
    : prog (option Response) :=
  catch (r ← call func kwargs; mret (Some r))
    (λ e,
      if (attempt <? max_retries - 1)%nat then
        jitter ← random_uniform;
        let sleep_time := (inject_Z (backoff_delay attempt) + ui_val jitter)%Q in
        logger (WarnRetrying (func_name func) kwargs e sleep_time);;
        time_sleep sleep_time;;
        mret None
      else
        logger (ErrorNoMoreRetries (func_name func) kwargs e);;
        Throw e).

(** The loop over [range(max_retries)]; running off its end returns
    [None], as a Python function without [return] does. *)
Fixpoint backoff_loop (func : Func) (kwargs : Kwargs) (attempts : list nat)
    : prog (option Response) :=
  match attempts with
  | [] => mret None
  | attempt :: rest =>
      returned ← backoff_attempt func kwargs attempt;
      match returned with
      | Some r => mret (Some r)
      | None => backoff_loop func kwargs rest
      end
  end.

Definition exponential_backoff (func : Func) (kwargs : Kwargs)
    : prog (option Response) :=
  backoff_loop func kwargs (seq 0 max_retries).

Definition batch_size : nat := 50.

Definition batch (func : Func) (instance_ids : list string) : prog unit :=
  for_each (range 0 (length instance_ids) batch_size) (λ i,
    exponential_backoff func
      [("InstanceIds", slice instance_ids i (i + batch_size))];;
    mret tt).

Definition batch_start_instances (ec2_client : Client)
    (instance_ids : list string) : prog unit :=
  batch (start_instances ec2_client) instance_ids.

Definition batch_stop_instances (ec2_client : Client)
    (instance_ids : list string) : prog unit :=
  batch (stop_instances ec2_client) instance_ids.

(** What [process_region] returns:
    [(start_instances, stop_instances, ec2_client, messages)]. *)
Definition RegionResult : Type :=
  list string * list string * Client * list string.

Section Region.
Context `{!Croniter}.

(** The loop of [process_region] over the instances, with the three
    lists it appends to. *)
Fixpoint process_instances (instances : list Instance)
    (current_time : datetime)
    (start_ids stop_ids messages : list string)
    : prog (list string * list string * list string) :=
  match instances with
  | [] => mret (start_ids, stop_ids, messages)
  | instance :: rest =>
      '(action, message) ← of_res (evaluate_instance instance current_time);
      if decide (action = Some start) then
        process_instances rest current_time
          (start_ids ++ [InstanceId instance]) stop_ids (messages ++ [message])
      else if decide (action = Some stop) then
        process_instances rest current_time
          start_ids (stop_ids ++ [InstanceId instance]) (messages ++ [message])
      else
        process_instances rest current_time
          start_ids stop_ids (messages ++ [message])
  end.

Definition process_region (region : string) (current_time : datetime)
    : prog RegionResult :=
  '(instances, ec2_client) ← get_instances_in_region region;
  '(start_ids, stop_ids, messages) ←
    process_instances instances current_time [] [] [];
  mret (start_ids, stop_ids, ec2_client, messages).

End Region.

(** ** Running programs

    The environment answers each request from its own state; the trace
    records every request with its answer, in the order they happen. *)

Local Open Scope list_scope.

(** The two pools of the handler. *)
Inductive Phase : Type :=
| Evaluate
| Mutate.

Global Instance Phase_eq_dec : EqDecision Phase.
Proof. solve_decision. Defined.

(** [Ev q x]: request [q] was answered with [x].  [Done phase i]: the main
    thread took the result of the future of task [i] of a pool, so that
    task is over. *)
Inductive event : Type :=
| Ev (q : Req) (x : resp q)
| Done (phase : Phase) (i : nat).

Definition handler (W : Type) : Type := ∀ q : Req, W → resp q * W.

Section Run.
Context {W : Type} (h : handler W).

Definition perform (q : Req) (w : W) (tr : list event)
    : resp q * W * list event :=
  let '(x, w') := h q w in (x, w', tr ++ [Ev q x]).

Fixpoint run {A} (p : prog A) (w : W) (tr : list event)
    : Res A * W * list event :=
  match p with
  | Ret a => (Ok a, w, tr)
  | Throw e => (Raise e, w, tr)
  | Vis q k =>
      let '(x, w', tr') := perform q w tr in run (k x) w' tr'
  end.

End Run.

(** Readings of the trace. *)
Definition is_api_call (ev : event) : bool :=
  match ev with Ev (ApiCall _ _ _) _ => true | _ => false end.

(** The requests of a region worker. *)
Definition is_worker_request (ev : event) : bool :=
  match ev with
  | Ev (Boto3Client _) _ | Ev (Paginate _) _ => true
  | _ => false
  end.

Definition is_now (ev : event) : bool :=
  match ev with Ev DatetimeNow _ => true | _ => false end.

Definition is_done (phase : Phase) (ev : event) : bool :=
  match ev with
  | Done phase' _ => bool_decide (phase' = phase)
  | _ => false
  end.

(** The calls of boto3 methods in a trace: method, identifiers, outcome. *)
Definition api_call_of (ev : event)
    : option (Func * Kwargs * Res Response) :=
  match ev with
  | Ev q x =>
      match q return resp q → option (Func * Kwargs * Res Response) with
      | ApiCall client method kwargs => λ x, Some (mk_func client method, kwargs, x)
      | _ => λ _, None
      end x
  | Done _ _ => None
  end.

Definition api_calls (tr : list event) : list (Func * Kwargs * Res Response) :=
  omap api_call_of tr.

(** The arguments of [time.sleep] in a trace. *)
Definition sleep_of (ev : event) : option Q :=
  match ev with
  | Ev (Sleep seconds) _ => Some seconds
  | _ => None
  end.

Definition sleeps (tr : list event) : list Q := omap sleep_of tr.

(** The values [random.uniform(0, 1)] returned in a trace. *)
Definition jitter_of (ev : event) : option Q :=
  match ev with
  | Ev q x =>
      match q return resp q → option Q with
      | RandomUniform => λ x, Some (ui_val x)
      | _ => λ _, None
      end x
  | Done _ _ => None
  end.

Definition jitters (tr : list event) : list Q := omap jitter_of tr.

(** The values [datetime.now()] returned in a trace. *)
Definition now_of (ev : event) : option datetime :=
  match ev with
  | Ev q x =>
      match q return resp q → option datetime with
      | DatetimeNow => λ x, Some x
      | _ => λ _, None
      end x
  | Done _ _ => None
  end.

Definition clock_reads (tr : list event) : list datetime := omap now_of tr.

Definition log_of (ev : event) : option LogRecord :=
  match ev with
  | Ev (Log record) _ => Some record
  | _ => None
  end.

Definition log_lines (tr : list event) : list LogRecord := omap log_of tr.

(** ** [ThreadPoolExecutor]

    The main thread runs a script: it logs, and it submits tasks.  Once the
    script is over it collects the finished tasks in [as_completed] order,
    each with the body of its loop: [future.result()] inside [try], the
    error line in [except].  An exception that leaves this body ends the
    main thread: nothing is collected any more, and leaving the [with]
    block still waits for the tasks.  Tasks run one request at a time, at
    most [max_workers] of them started and unfinished, picked up in
    submission order.  Which thread moves next is the scheduler's choice,
    given as a list; leaving the [with] block waits for everything that is
    still pending. *)

Inductive MainStep (A : Type) : Type :=
| MLog (record : LogRecord)
| MSubmit (task : prog A).
Arguments MLog {A} record.
Arguments MSubmit {A} task.

Inductive Choice : Type :=
| RunMain
| RunWorker (i : nat)
| Collect (i : nat).

Definition outcome_of {A} (p : prog A) : option (Res A) :=
  match p with
  | Ret a => Some (Ok a)
  | Throw e => Some (Raise e)
  | Vis _ _ => None
  end.

Definition finished {A} (p : prog A) : bool :=
  match p with Vis _ _ => false | _ => true end.

Record pool (A W : Type) : Type := mk_pool {
  pl_script : list (MainStep A);   (* what the main thread still has to do *)
  pl_tasks : list (prog A);        (* submitted tasks, what is left of each *)
  pl_done : list (nat * Res A);    (* collected futures, in collection order *)
  pl_world : W;
  pl_trace : list event;
  pl_raised : option exn           (* the exception that ended the main thread *)
}.
Arguments mk_pool {A W} _ _ _ _ _ _.
Arguments pl_script {A W} _.
Arguments pl_tasks {A W} _.
Arguments pl_done {A W} _.
Arguments pl_world {A W} _.
Arguments pl_trace {A W} _.
Arguments pl_raised {A W} _.

(** The body of the loop over [as_completed] in both pools:

      try:
          ... = future.result()
      except Exception as e:
          logger.error(...)

    for a future that holds [o]; [record e] is the line of the [except]
    branch.  [Some a] is the value the [try] branch goes on with. *)
Definition future_result {A} (record : exn → LogRecord) (o : Res A)
    : prog (option A) :=
  catch (a ← of_res o; mret (Some a))
    (λ e, logger (record e);; mret None).

Section Pool.
Context {A W : Type} (h : handler W).
Context (phase : Phase) (max_workers : nat).
(** The record logged for task [i] when its future raises [e]. *)
Context (on_error : nat → exn → LogRecord).

(** A worker is free for task [i] when fewer than [max_workers] of the
    tasks submitted before it are unfinished. *)
Definition can_run (tasks : list (prog A)) (i : nat) : bool :=
  (length (filter (λ p, finished p = false) (take i tasks)) <? max_workers)%nat.

(** The next step of the script.  The collecting loop starts when the
    script is over, so a main thread that an exception has ended has no
    step left here. *)
Definition main_step (st : pool A W) : pool A W :=
  match pl_script st with
  | [] => st
  | MLog record :: script =>
      let '(_, w, tr) := perform h (Log record) (pl_world st) (pl_trace st) in
      mk_pool script (pl_tasks st) (pl_done st) w tr (pl_raised st)
  | MSubmit task :: script =>
      mk_pool script (pl_tasks st ++ [task]) (pl_done st)
        (pl_world st) (pl_trace st) (pl_raised st)
  end.

Definition worker_step (i : nat) (st : pool A W) : pool A W :=
  match pl_tasks st !! i with
  | Some (Vis q k) =>
      if can_run (pl_tasks st) i then
        let '(x, w, tr) := perform h q (pl_world st) (pl_trace st) in
        mk_pool (pl_script st) (<[i := k x]> (pl_tasks st)) (pl_done st) w tr
          (pl_raised st)
      else st
  | _ => st
  end.

(** One turn of the loop over [as_completed], for the future of task [i]:
    the future is handed out ([Done]), and the body of the loop is run on
    what it holds.  The main thread gets here once its script is over, and
    only while no exception has ended it. *)
Definition collect_step (i : nat) (st : pool A W) : pool A W :=
  match pl_raised st, pl_script st, pl_tasks st !! i with
  | None, [], Some p =>
      if bool_decide (i ∈ (pl_done st).*1) then st
      else
        match outcome_of p with
        | Some o =>
            let '(r, w, tr) :=
              run h (future_result (on_error i) o) (pl_world st)
                (pl_trace st ++ [Done phase i]) in
            mk_pool [] (pl_tasks st) (pl_done st ++ [(i, o)]) w tr
              (match r with Ok _ => None | Raise e => Some e end)
        | None => st
        end
  | _, _, _ => st
  end.

Definition pool_step (st : pool A W) (c : Choice) : pool A W :=
  match c with
  | RunMain => main_step st
  | RunWorker i => worker_step i st
  | Collect i => collect_step i st
  end.

(** Task [i] run until it returns or raises. *)
Definition finish_worker (st : pool A W) (i : nat) : pool A W :=
  match pl_tasks st !! i with
  | Some p =>
      let '(o, w, tr) := run h p (pl_world st) (pl_trace st) in
      mk_pool (pl_script st) (<[i := of_res o]> (pl_tasks st)) (pl_done st) w tr
        (pl_raised st)
  | None => st
  end.

(** Whatever the scheduler left pending: the rest of the script, then
    the tasks in submission order, then the futures not yet collected. *)
Definition drain (st : pool A W) : pool A W :=
  let st1 := Nat.iter (length (pl_script st)) main_step st in
  let n := length (pl_tasks st1) in
  let st2 := fold_left finish_worker (seq 0 n) st1 in
  fold_left (λ s i, collect_step i s) (seq 0 n) st2.

Definition pool_run (sched : list Choice) (script : list (MainStep A))
    (w : W) (tr : list event) : pool A W :=
  drain (fold_left pool_step sched (mk_pool script [] [] w tr None)).

End Pool.

(** ** The handler *)

Record report (W : Type) : Type := mk_report {
  rp_result : Res unit;                     (* lambda_handler returns None, or raises *)
  rp_world : W;
  rp_trace : list event;
  rp_regions : list (nat * Res RegionResult); (* futures of the first pool *)
  rp_batches : list (nat * Res unit)          (* futures of the second pool *)
}.
Arguments mk_report {W} _ _ _ _ _.
Arguments rp_result {W} _.
Arguments rp_world {W} _.
Arguments rp_trace {W} _.
Arguments rp_regions {W} _.
Arguments rp_batches {W} _.

Section Handler.
Context `{!Croniter}.
Context {W : Type} (h : handler W).

(** The two lines before the first pool. *)
Definition discover : prog (list string * datetime) :=
  regions ← get_all_regions;
  current_time ← datetime_now;
  mret (regions, current_time).

(** [future_to_region[future]] for the future of the [i]-th region. *)
Definition region_error (regions : list string) (i : nat) (e : exn)
    : LogRecord :=
  ErrorProcessingRegion (default "" (regions !! i)) e.

Definition evaluate_script (regions : list string) (current_time : datetime)
    : list (MainStep RegionResult) :=
  (λ region, MSubmit (process_region region current_time)) <$> regions.

(** [results]: what [future.result()] returned, in collection order. *)
Definition results_of (done : list (nat * Res RegionResult))
    : list RegionResult :=
  omap (λ d, match d.2 with Ok r => Some r | Raise _ => None end) done.

(** The body of the loop over [results] in the second pool. *)
Definition mutate_steps (result : RegionResult) : list (MainStep unit) :=
  let '(start_ids, stop_ids, ec2_client, messages) := result in
  ((λ message, MLog (Info message)) <$> messages) ++
  (if decide (start_ids = []) then []
   else [MSubmit (batch_start_instances ec2_client start_ids)]) ++
  (if decide (stop_ids = []) then []
   else [MSubmit (batch_stop_instances ec2_client stop_ids)]).

Definition mutate_script (results : list RegionResult)
    : list (MainStep unit) :=
  flat_map mutate_steps results.

Definition batch_error (i : nat) (e : exn) : LogRecord :=
  ErrorBatchOperation e.

(** An exception of the discovery leaves the handler at once; one that
    ends the main thread inside a [with] block leaves the handler when the
    block has waited for its tasks; without any, the handler falls off its
    end and returns [None]. *)
Definition lambda_handler (sched1 sched2 : list Choice) (w : W)
    : report W :=
  match run h discover w [] with
  | (Raise e, w1, tr1) => mk_report (Raise e) w1 tr1 [] []
  | (Ok (regions, current_time), w1, tr1) =>
      let pool1 :=
        pool_run h Evaluate 10 (region_error regions) sched1
          (evaluate_script regions current_time) w1 tr1 in
      match pl_raised pool1 with
      | Some e =>
          mk_report (Raise e) (pl_world pool1) (pl_trace pool1)
            (pl_done pool1) []
      | None =>
          let results := results_of (pl_done pool1) in
          let pool2 :=
            pool_run h Mutate 20 batch_error sched2
              (mutate_script results) (pl_world pool1) (pl_trace pool1) in
          mk_report
            (match pl_raised pool2 with Some e => Raise e | None => Ok tt end)
            (pl_world pool2) (pl_trace pool2) (pl_done pool1) (pl_done pool2)
      end
  end.

End Handler.


(** ** Concrete collaborators, for running the definitions *)

(** A croniter that knows the two expressions of the scenarios:
    ["* * * * *"] matches every minute, ["0 0 1 1 *"] matches midnight of
    the first of January; ["@boom"] makes the library raise. *)
Definition scenario_croniter : Croniter := {|
  croniter_is_valid expression :=
    if String.eqb expression "* * * * *" then Ok true
    else if String.eqb expression "0 0 1 1 *" then Ok true
    else if String.eqb expression "@boom" then Raise (Exception "croniter broke")
    else Ok false;
  croniter_match expression t :=
    if String.eqb expression "* * * * *" then Ok true
    else if String.eqb expression "0 0 1 1 *" then
      Ok ((minute t =? 0) && (hour t =? 0) && (day t =? 1) && (month t =? 1))
    else Raise (Exception "bad cron expression")
|}.

Definition march_5th : datetime := mk_datetime 2024 3 5 10 30 12 345678.

Definition tagged (instance_id works_on_schedule working_expression : string)
    : Instance :=
  mk_instance instance_id
    (Some [mk_tag "Name" "web"; mk_tag "WorksOnSchedule" works_on_schedule;
           mk_tag "WorkingExpression" working_expression]).

(** The action of a decision, without its reason. *)
Definition action_of (decision : Res (option Action * string))
    : Res (option Action) :=
  res_bind decision (λ d, Ok d.1).

(** The sixteen spellings of ["true"] that differ only in case. *)
Definition either_case (small capital c : ascii) : Prop :=
  c = small ∨ c = capital.

Definition spelled_true (v : string) : Prop :=
  ∃ c1 c2 c3 c4,
    v = String c1 (String c2 (String c3 (String c4 EmptyString))) ∧
    either_case "t" "T" c1 ∧ either_case "r" "R" c2 ∧
    either_case "u" "U" c3 ∧ either_case "e" "E" c4.

(** ** Readings of a run of the retry executor *)

(** The outcomes of the calls of boto3 methods in a trace, in order. *)
Definition attempts (tr : list event) : list (Res Response) :=
  (api_calls tr).*2.

(** The delays of the attempts [a], [a + 1], ... with the given jitters. *)
Definition delays_from (a : nat) (js : list Q) : list Q :=
  imap (λ i j, inject_Z (backoff_delay (a + i)) + j)%Q js.

Definition Qsum (qs : list Q) : Q := foldr Qplus 0%Q qs.

(** The time slept in a trace, without the jitter. *)
Definition total_backoff (tr : list event) : Q :=
  (Qsum (sleeps tr) - Qsum (jitters tr))%Q.

(** ** A simulated account

    An environment to run the script in: the regions and the instance
    pages are fixed, the boto3 method calls are answered from a list (and
    raise once the list is used up), [random.uniform] gives one half, and
    the clock is a function of the number of requests answered so far. *)
Record sim : Type := mk_sim {
  sim_regions : Res (list RegionEntry);
  sim_pages : string → Res (list Page);
  sim_api : list (Res Response);
  sim_clock : nat → datetime;
  sim_ticks : nat
}.

Definition one_half : unit_interval := mk_unit_interval (1 # 2) eq_refl.

Definition tick (w : sim) : sim :=
  mk_sim (sim_regions w) (sim_pages w) (sim_api w) (sim_clock w)
    (S (sim_ticks w)).

Definition sim_handler : handler sim := λ q,
  match q return sim → resp q * sim with
  | Boto3Client _ => λ w, (Ok tt, tick w)
  | DescribeRegions _ => λ w, (sim_regions w, tick w)
  | Paginate client => λ w, (sim_pages w (region_name client), tick w)
  | ApiCall _ _ _ => λ w,
      match sim_api w with
      | x :: rest =>
          (x, mk_sim (sim_regions w) (sim_pages w) rest (sim_clock w)
                (S (sim_ticks w)))
      | [] => (Raise (Exception "RequestLimitExceeded"), tick w)
      end
  | DatetimeNow => λ w, (sim_clock w (sim_ticks w), tick w)
  | RandomUniform => λ w, (one_half, tick w)
  | Sleep _ => λ w, (tt, tick w)
  | Log _ => λ w, (tt, tick w)
  end.

(** An account where every call of a boto3 method is answered from
    [answers]. *)
Definition api_only (answers : list (Res Response)) : sim :=
  mk_sim (Ok []) (λ _, Ok []) answers (λ _, march_5th) 0.

Definition throttled : Res Response := Raise (Exception "Throttling").

Definition started : Res Response := Ok (ApiResponse "StartingInstances").

Definition ec2_east : Client := mk_client "us-east-1".

(** [n] identifiers, ["i-0"], ["i-1"], ... in unary. *)
Definition instance_ids (n : nat) : list string :=
  map (λ j, String.append "i-" (string_of_list_ascii (replicate j "1"%char)))
      (seq 0 n).

(** ** Readings of a run of the batch mutator *)

(** The slices the loop of [batch_start_instances] / [batch_stop_instances]
    passes on, in order: [instance_ids[i:i+50]] for [i] in
    [range(0, len(instance_ids), 50)]. *)
Definition chunks (instance_ids : list string) : list (list string) :=
  (λ i, slice instance_ids i (i + batch_size)) <$>
    range 0 (length instance_ids) batch_size.

Definition kwargs_of (chunk : list string) : Kwargs :=
  [("InstanceIds", chunk)].

(** [ceil(n / d)] on naturals. *)
Definition ceil_div (n d : nat) : nat := ((n + (d - 1)) / d)%nat.

(** The calls of a trace that returned, without the failed attempts. *)
Definition successes (tr : list event) : list (Func * Kwargs) :=
  (filter (λ c, is_raise c.2 = false) (api_calls tr)).*1.

(** Every call of a trace, failed attempts included. *)
Definition calls (tr : list event) : list (Func * Kwargs) :=
  (api_calls tr).*1.

(** [chunk] attempted [n] times. *)
Definition retried (func : Func) (cs : list (list string)) (ns : list nat)
    : list (Func * Kwargs) :=
  concat (zip_with (λ chunk n, replicate n (func, kwargs_of chunk)) cs ns).

(** ** Readings of a run of the region worker *)

(** The instances of a listing, page after page, reservation after
    reservation. *)
Definition listing_of (ev : event) : option (list Instance) :=
  match ev with
  | Ev q x =>
      match q return resp q → option (list Instance) with
      | Paginate _ => λ x,
          match x with
          | Ok pages => Some (flat_map Instances (flat_map Reservations pages))
          | Raise _ => None
          end
      | _ => λ _, None
      end x
  | Done _ _ => None
  end.

Definition listings (tr : list event) : list (list Instance) :=
  omap listing_of tr.

Section Decided.
Context `{!Croniter}.

(** The identifiers of the instances that evaluate to [action], in the
    order of the listing. *)
Definition decided (action : Action) (instances : list Instance)
    (current_time : datetime) : list string :=
  InstanceId <$>
    filter (λ instance,
      action_of (evaluate_instance instance current_time) = Ok (Some action))
      instances.

(** The reasons of the decisions, one per instance. *)
Definition reasons (instances : list Instance) (current_time : datetime)
    : list string :=
  omap (λ instance,
    match evaluate_instance instance current_time with
    | Ok (_, message) => Some message
    | Raise _ => None
    end) instances.

End Decided.

(** Three regions: two instances to start and one to stop in the first,
    a listing that fails in the second, one instance to stop in the
    third.  The first call of a boto3 method is throttled, the next three
    go through. *)
Definition east_pages : list Page :=
  [mk_page [mk_reservation [tagged "i-a" "true" "* * * * *";
                            tagged "i-b" "TRUE" "0 0 1 1 *"];
            mk_reservation [mk_instance "i-c" None]];
   mk_page [mk_reservation [tagged "i-d" "yes" "* * * * *";
                            tagged "i-e" "True" "* * * * *"]]].

Definition fleet_pages (region : string) : Res (list Page) :=
  if String.eqb region "us-east-1" then Ok east_pages
  else if String.eqb region "eu-west-1" then Raise (Exception "AuthFailure")
  else Ok [mk_page [mk_reservation [tagged "i-f" "true" "0 0 1 1 *"]]].

(** The clock of the fleet: the minute moves on with every request. *)
Definition fleet_clock (ticks : nat) : datetime :=
  mk_datetime 2024 3 5 10 (Z.of_nat ticks) 0 0.

Definition fleet : sim :=
  mk_sim (Ok [mk_region "us-east-1"; mk_region "eu-west-1";
              mk_region "ap-south-1"])
    fleet_pages [throttled; started; started; started] fleet_clock 0.

(** ** What a program can do *)

(** Every event a program can cause satisfies [P], whatever the answers. *)
Inductive sends {A} (P : event → Prop) : prog A → Prop :=
| sends_Ret a : sends P (Ret a)
| sends_Throw e : sends P (Throw e)
| sends_Vis q k :
    (∀ x, P (Ev q x)) → (∀ x, sends P (k x)) → sends P (Vis q k).

(** The program can end with this outcome, for some answers. *)
Inductive ends {A} : prog A → Res A → Prop :=
| ends_Ret a : ends (Ret a) (Ok a)
| ends_Throw e : ends (Throw e) (Raise e)
| ends_Vis q k x o : ends (k x) o → ends (Vis q k) o.

(** The tasks a script submits, and the records it logs, in order. *)
Definition submitted {A} (script : list (MainStep A)) : list (prog A) :=
  omap (λ s, match s with MSubmit task => Some task | MLog _ => None end) script.

Definition logged {A} (script : list (MainStep A)) : list LogRecord :=
  omap (λ s, match s with MLog record => Some record | MSubmit _ => None end)
    script.

Section PoolInvariant.
Context {A W : Type}.
Context (phase : Phase) (on_error : nat → exn → LogRecord).
Context (P : event → Prop).
Context (script0 : list (MainStep A)) (tr0 : list event).

(** What holds of a pool at every moment of its run, started on [script0]
    with the trace [tr0]: the script is a suffix of [script0], the tasks
    are what is left of the tasks submitted so far, the trace has grown by
    events the tasks and the script can cause, and every collected future
    belongs to a finished task, with its [Done] event and, if it raised,
    its log line in the trace. *)
Definition pool_inv (st : pool A W) : Prop :=
  ∃ consumed new,
    script0 = consumed ++ pl_script st ∧
    pl_trace st = tr0 ++ new ∧
    length (pl_tasks st) = length (submitted consumed) ∧
    (∀ i p, pl_tasks st !! i = Some p →
       sends P p ∧
       ∃ p0, submitted consumed !! i = Some p0 ∧ ∀ o, ends p o → ends p0 o) ∧
    Forall P new ∧
    (∀ r, r ∈ logged consumed → Ev (Log r) tt ∈ new) ∧
    NoDup (pl_done st).*1 ∧
    (∀ i o, (i, o) ∈ pl_done st →
       (∃ p, pl_tasks st !! i = Some p ∧ outcome_of p = Some o) ∧
       Done phase i ∈ new ∧
       ∀ e, o = Raise e → Ev (Log (on_error i e)) tt ∈ new).

End PoolInvariant.

(** Task [i] of a pool has returned or raised. *)
Definition task_over {A W} (st : pool A W) (i : nat) : Prop :=
  ∃ p o, pl_tasks st !! i = Some p ∧ outcome_of p = Some o.

(** ** Readings of a run of the handler *)

(** The calls the second pool may make for these results: one per slice of
    a start list through [start_instances], one per slice of a stop list
    through [stop_instances], on the client of the result. *)
Definition allowed_calls (results : list RegionResult)
    : list (Func * Kwargs) :=
  flat_map (λ result : RegionResult,
    let '(start_ids, stop_ids, ec2_client, _) := result in
    ((λ chunk, (start_instances ec2_client, kwargs_of chunk)) <$> chunks start_ids) ++
    ((λ chunk, (stop_instances ec2_client, kwargs_of chunk)) <$> chunks stop_ids))
    results.

(** An event that is no call of a boto3 method, or one of [allowed]. *)
Definition call_among (allowed : list (Func * Kwargs)) (ev : event) : Prop :=
  match api_call_of ev with
  | Some c => c.1 ∈ allowed
  | None => True
  end.

(** A scheduler for the examples: the main thread first, then the workers
    taking turns. *)
Definition round_robin : list Choice :=
  [RunMain; RunMain; RunMain; RunWorker 2; RunWorker 0; RunWorker 1;
   RunWorker 2; Collect 2; RunWorker 1; RunWorker 0; Collect 0].

(** What the first pool may cause, and what the second may cause given the
    results it works on. *)
Definition read_event (ev : event) : Prop :=
  is_api_call ev = false ∧ is_now ev = false.

Definition write_event (results : list RegionResult) (ev : event) : Prop :=
  is_worker_request ev = false ∧ is_done Evaluate ev = false ∧
  is_now ev = false ∧ call_among (allowed_calls results) ev.

(** ** The trace of a call through the retry executor *)

(** What a failed attempt that is retried leaves in the trace: the call,
    the jitter drawn, the warning, the pause. *)
Definition retry_events (func : Func) (kwargs : Kwargs) (attempt : nat)
    (e : exn) (jitter : unit_interval) : list event :=
  [Ev (ApiCall (func_self func) (func_name func) kwargs) (Raise e);
   Ev RandomUniform jitter;
   Ev (Log (WarnRetrying (func_name func) kwargs e
              (inject_Z (backoff_delay attempt) + ui_val jitter)%Q)) tt;
   Ev (Sleep (inject_Z (backoff_delay attempt) + ui_val jitter)%Q) tt].

(** The retried attempts [attempt], [attempt + 1], ... one after the
    other. *)
Fixpoint retries_from (func : Func) (kwargs : Kwargs) (attempt : nat)
    (fails : list (exn * unit_interval)) : list event :=
  match fails with
  | [] => []
  | (e, jitter) :: rest =>
      retry_events func kwargs attempt e jitter ++
      retries_from func kwargs (S attempt) rest
  end.

(** How a call through the retry executor ends: with the attempt that
    returned, or with the attempt that used up the retries and its error
    line. *)
Definition last_events (func : Func) (kwargs : Kwargs)
    (result : Res (option Response)) : list event :=
  match result with
  | Ok (Some r) =>
      [Ev (ApiCall (func_self func) (func_name func) kwargs) (Ok r)]
  | Ok None => []
  | Raise e =>
      [Ev (ApiCall (func_self func) (func_name func) kwargs) (Raise e);
       Ev (Log (ErrorNoMoreRetries (func_name func) kwargs e)) tt]
  end.

(** ** Readings of the calls of a batch mutator *)

(** Every call of the trace sends one of the slices of [instance_ids]
    through [func]: never an empty list, never more than 50 identifiers,
    never an identifier that is not in the input. *)
Definition calls_within_chunks (func : Func) (instance_ids : list string)
    (tr : list event) : Prop :=
  ∀ c, c ∈ calls tr →
    ∃ chunk,
      c = (func, kwargs_of chunk) ∧
      chunk ∈ chunks instance_ids ∧
      (0 < length chunk ≤ 50)%nat ∧
      chunk ⊆ instance_ids.



(** ** The requests of one task within a run *)

(** [path p hist p']: answering the requests of [p] as the events of
    [hist] say leaves [p']. *)
Inductive path {A} : prog A → list event → prog A → Prop :=
| path_nil p : path p [] p
| path_cons q k x hist p' :
    path (k x) hist p' → path (Vis q k) (Ev q x :: hist) p'.

Section PoolPaths.
Context {A W : Type}.
Context (script0 : list (MainStep A)) (tr0 : list event).

(** Every task of the pool is what is left of the task submitted after
    the requests it has made so far, and these are in the trace, in
    order. *)
Definition pool_paths (st : pool A W) : Prop :=
  ∃ consumed new,
    script0 = consumed ++ pl_script st ∧
    pl_trace st = tr0 ++ new ∧
    length (pl_tasks st) = length (submitted consumed) ∧
    ∀ i p, pl_tasks st !! i = Some p →
      ∃ p0 hist,
        submitted consumed !! i = Some p0 ∧
        path p0 hist p ∧
        hist `sublist_of` new.

End PoolPaths.

(** ** Replaying a history

    An environment that answers from a list of events: the next request
    gets the answer recorded for it. *)

Global Instance Q_eq_dec : EqDecision Q.
Proof. solve_decision. Defined.

Global Instance LogRecord_eq_dec : EqDecision LogRecord.
Proof. solve_decision. Defined.

Global Instance Req_eq_dec : EqDecision Req.
Proof. solve_decision. Defined.

(** An answer to give when the list has none for the request. *)
Definition default_resp (q : Req) : resp q :=
  match q return resp q with
  | Boto3Client _ => Ok tt
  | DescribeRegions _ => Ok []
  | Paginate _ => Ok []
  | ApiCall _ _ _ => Raise (Exception "no answer recorded")
  | DatetimeNow => march_5th
  | RandomUniform => one_half
  | Sleep _ => tt
  | Log _ => tt
  end.

Definition replay : handler (list event) := λ q w,
  match w with
  | Ev q' x :: rest =>
      match decide (q' = q) with
      | left same => (eq_rect q' resp x q same, rest)
      | right _ => (default_resp q, rest)
      end
  | _ => (default_resp q, [])
  end.

(** An account with one region and nothing to do in it: an instance
    without tags and one whose schedule flag is off. *)
Definition idle_fleet : sim :=
  mk_sim (Ok [mk_region "us-east-1"])
    (λ _, Ok [mk_page [mk_reservation [mk_instance "i-c" None;
                                       tagged "i-d" "no" "* * * * *"]]])
    [] fleet_clock 0.


(** ** The futures of a run of the handler *)

(** The error line of future [i] of a pool comes right after
    [as_completed] has handed the future out. *)
Definition logged_at (phase : Phase) (i : nat) (record : LogRecord)
    (tr : list event) : Prop :=
  ∃ before after,
    tr = before ++ Done phase i :: Ev (Log record) tt :: after.

(** The loop over [results] takes the region results in the order their
    futures were collected, and submits at most two tasks for each.  The
    first task of a result is submitted after the tasks of the results
    collected [before] it. *)
Definition batch_index (before : list (nat * Res RegionResult)) : nat :=
  length (submitted (mutate_script (results_of before))).

(** What became of the task submitted at position [j] of the second pool
    for [func] over [ids]: its future was collected, and what it holds
    follows from the answers to the task's own requests, [hist], which are
    in the trace in this order.  If the task returned, these requests have
    one successful call per slice of [ids], in order.  If it raised [e],
    the slices before some slice went through, the last call of the task
    is a call for that slice that raised [e], and the error line with [e]
    was logged when the future was collected. *)
Definition batch_future {W} (run_report : report W) (func : Func)
    (ids : list string) (j : nat) : Prop :=
  ∃ o hist,
    (j, o) ∈ rp_batches run_report ∧
    path (batch func ids) hist (of_res o) ∧
    hist `sublist_of` rp_trace run_report ∧
    match o with
    | Ok _ =>
        successes hist = (λ chunk, (func, kwargs_of chunk)) <$> chunks ids ∧
        ∀ chunk, chunk ∈ chunks ids →
          (func, kwargs_of chunk) ∈ successes (rp_trace run_report)
    | Raise e =>
        (∃ m chunk,
           chunks ids !! m = Some chunk ∧
           successes hist =
             (λ chunk, (func, kwargs_of chunk)) <$> take m (chunks ids) ∧
           last (api_calls hist) = Some (func, kwargs_of chunk, Raise e)) ∧
        logged_at Mutate j (ErrorBatchOperation e) (rp_trace run_report)
    end.

(** The fleet on a day when every call of a boto3 method is refused. *)
Definition refused_fleet : sim :=
  mk_sim (sim_regions fleet) (sim_pages fleet) [] (sim_clock fleet) 0.
(** * Properties *)

(** ** The policy evaluator *)

Lemma lower_ascii_inv (small capital : ascii) :
  (97 ≤ nat_of_ascii small ≤ 122)%nat →
  nat_of_ascii capital = (nat_of_ascii small - 32)%nat →
  ∀ c, lower_ascii c = small ↔ either_case small capital c.
Proof.
  intros Hsmall Hcap c. unfold either_case, lower_ascii. split.
  - case_eq ((65 <=? nat_of_ascii c) && (nat_of_ascii c <=? 90))%nat; intros Hc H.
    + apply andb_true_iff in Hc as [H1%Nat.leb_le H2%Nat.leb_le].
      right. apply (f_equal nat_of_ascii) in H.
      rewrite nat_ascii_embedding in H by lia.
      rewrite <- (ascii_nat_embedding c), <- (ascii_nat_embedding capital).
      f_equal. lia.
    + by left.
  - intros [-> | ->].
    + replace ((65 <=? nat_of_ascii small) && (nat_of_ascii small <=? 90))%nat
        with false; [done |].
      symmetry. apply andb_false_iff. right. apply Nat.leb_gt. lia.
    + rewrite Hcap.
      replace ((65 <=? nat_of_ascii small - 32) && (nat_of_ascii small - 32 <=? 90))%nat
        with true.
      * replace (nat_of_ascii small - 32 + 32)%nat with (nat_of_ascii small) by lia.
        apply ascii_nat_embedding.
      * symmetry. apply andb_true_iff. split; apply Nat.leb_le; lia.
Qed.

Lemma lower_true_iff v : lower v = "true" ↔ spelled_true v.
Proof.
  unfold spelled_true. split.
  - destruct v as [| c1 [| c2 [| c3 [| c4 [| c5 v]]]]]; simpl; try discriminate.
    intros H. injection H as H1 H2 H3 H4.
    exists c1, c2, c3, c4. split; [done |].
    repeat split; (apply lower_ascii_inv; [vm_compute; lia | done | done]).
  - intros (c1 & c2 & c3 & c4 & -> & H1 & H2 & H3 & H4). simpl.
    apply lower_ascii_inv in H1, H2, H3, H4; try done; try (vm_compute; lia).
    by rewrite H1, H2, H3, H4.
Qed.

Lemma string_app_cons c (s t : string) :
  (String c s ++ t)%string = String c (s ++ t).
Proof. reflexivity. Qed.

Lemma string_app_nil_r (s : string) : (s ++ "")%string = s.
Proof. induction s as [| c s IH]; [done |]. by rewrite string_app_cons, IH. Qed.

Lemma string_app_assoc (s t u : string) :
  (s ++ t ++ u)%string = ((s ++ t) ++ u)%string.
Proof. induction s as [| c s IH]; [done |]. by rewrite !string_app_cons, IH. Qed.

Section EvaluateProperties.
Context `{!Croniter}.

Lemma not_scheduled_false works_on_schedule :
  not_scheduled works_on_schedule = false ↔
  ∃ v, works_on_schedule = Some v ∧ spelled_true v.
Proof.
  unfold not_scheduled. destruct works_on_schedule as [v |].
  - rewrite negb_false_iff, String.eqb_eq, lower_true_iff. split.
    + intros Hv. by exists v.
    + by intros (v' & [= <-] & Hv).
  - split; [done |]. by intros (v & ? & _).
Qed.

Lemma contains_msg_invalid instance_id expression :
  contains (msg_invalid instance_id expression) expression.
Proof.
  exists ("Skipping instance " ++ instance_id ++ ": Invalid cron expression '")%string,
    "'."%string.
  unfold msg_invalid. by rewrite <- !string_app_assoc.
Qed.

Lemma contains_msg_error instance_id e :
  contains (msg_error instance_id e) (str e).
Proof.
  exists ("Error evaluating instance " ++ instance_id ++ ": ")%string, ""%string.
  unfold msg_error.
  by rewrite string_app_nil_r, <- !string_app_assoc.
Qed.

(** The four ways through [evaluate_instance] once the schedule flag is
    set and the expression is there. *)
Lemma evaluate_instance_scheduled instance current_time expression :
  not_scheduled (tags_of instance !! "WorksOnSchedule") = false →
  tags_of instance !! "WorkingExpression" = Some expression →
  expression ≠ ""%string →
  evaluate_instance instance current_time =
    try_except (evaluate_cron (InstanceId instance) expression current_time)
      (λ e, Ok (None, msg_error (InstanceId instance) e)).
Proof.
  intros Hflag Hexpr Hne. unfold evaluate_instance.
  rewrite Hflag, Hexpr.
  destruct (String.eqb_spec expression ""); [done | done].
Qed.

(** C6: [evaluate_instance] returns a pair for every instance and every
    timestamp, it never raises; when one of the two croniter calls raises
    [e], the exception is caught inside the function and the pair is the
    skip decision [None] with a reason that embeds [str(e)]. *)
Theorem evaluate_instance_never_raises :
  ∀ (instance : Instance) (current_time : datetime),
    (∃ action reason,
        evaluate_instance instance current_time = Ok (action, reason)) ∧
    (∀ expression e,
        not_scheduled (tags_of instance !! "WorksOnSchedule") = false →
        tags_of instance !! "WorkingExpression" = Some expression →
        expression ≠ ""%string →
        croniter_is_valid expression = Raise e ∨
        (croniter_is_valid expression = Ok true ∧
         croniter_match expression current_time = Raise e) →
        evaluate_instance instance current_time =
          Ok (None, msg_error (InstanceId instance) e) ∧
        contains (msg_error (InstanceId instance) e) (str e)).
Proof.
  intros instance current_time. split.
  - unfold evaluate_instance.
    destruct (not_scheduled _); [eauto |].
    destruct (tags_of instance !! "WorkingExpression") as [expression |]; [| eauto].
    destruct (String.eqb expression ""); [eauto |].
    unfold evaluate_cron.
    destruct (croniter_is_valid expression) as [[] |]; simpl; eauto.
    destruct (croniter_match expression current_time) as [[] |]; simpl; eauto.
  - intros expression e Hflag Hexpr Hne Hraise.
    split; [| apply contains_msg_error].
    rewrite (evaluate_instance_scheduled _ _ expression) by done.
    unfold evaluate_cron.
    destruct Hraise as [-> | [-> ->]]; done.
Qed.

(** C2: [evaluate_instance] decides skip ([None]) whenever the
    'WorksOnSchedule' tag is absent or not "true" up to case, or the
    'WorkingExpression' tag is absent or empty, or croniter rejects the
    expression.  The rules are tried in that order and the reason is the
    one of the first rule that applies; the reason for a rejected
    expression contains the expression as it stands in the tag. *)
Theorem evaluate_instance_skip_rules :
  ∀ (instance : Instance) (current_time : datetime),
    (not_scheduled (tags_of instance !! "WorksOnSchedule") = true ↔
       ∀ v, tags_of instance !! "WorksOnSchedule" = Some v → ¬ spelled_true v) ∧
    (no_expression (tags_of instance !! "WorkingExpression") = true ↔
       tags_of instance !! "WorkingExpression" = None ∨
       tags_of instance !! "WorkingExpression" = Some ""%string) ∧
    (not_scheduled (tags_of instance !! "WorksOnSchedule") = true →
       evaluate_instance instance current_time =
         Ok (None, msg_not_scheduled (InstanceId instance))) ∧
    (not_scheduled (tags_of instance !! "WorksOnSchedule") = false →
     no_expression (tags_of instance !! "WorkingExpression") = true →
       evaluate_instance instance current_time =
         Ok (None, msg_no_expression (InstanceId instance))) ∧
    (∀ expression,
       not_scheduled (tags_of instance !! "WorksOnSchedule") = false →
       tags_of instance !! "WorkingExpression" = Some expression →
       expression ≠ ""%string →
       croniter_is_valid expression = Ok false →
         evaluate_instance instance current_time =
           Ok (None, msg_invalid (InstanceId instance) expression) ∧
         contains (msg_invalid (InstanceId instance) expression) expression) ∧
    (not_scheduled (tags_of instance !! "WorksOnSchedule") = true ∨
     no_expression (tags_of instance !! "WorkingExpression") = true ∨
     (∃ expression,
        tags_of instance !! "WorkingExpression" = Some expression ∧
        croniter_is_valid expression = Ok false) →
       ∃ reason, evaluate_instance instance current_time = Ok (None, reason)).
Proof.
  intros instance current_time.
  assert (Hrule1 :
    not_scheduled (tags_of instance !! "WorksOnSchedule") = true →
    evaluate_instance instance current_time =
      Ok (None, msg_not_scheduled (InstanceId instance))).
  { intros Hflag. unfold evaluate_instance. by rewrite Hflag. }
  assert (Hrule2 :
    not_scheduled (tags_of instance !! "WorksOnSchedule") = false →
    no_expression (tags_of instance !! "WorkingExpression") = true →
    evaluate_instance instance current_time =
      Ok (None, msg_no_expression (InstanceId instance))).
  { intros Hflag Hno. unfold evaluate_instance. rewrite Hflag.
    destruct (tags_of instance !! "WorkingExpression") as [expression |];
      [| done].
    simpl in Hno. by rewrite Hno. }
  assert (Hrule3 : ∀ expression,
    not_scheduled (tags_of instance !! "WorksOnSchedule") = false →
    tags_of instance !! "WorkingExpression" = Some expression →
    expression ≠ ""%string →
    croniter_is_valid expression = Ok false →
    evaluate_instance instance current_time =
      Ok (None, msg_invalid (InstanceId instance) expression)).
  { intros expression Hflag Hexpr Hne Hvalid.
    rewrite (evaluate_instance_scheduled _ _ expression) by done.
    unfold evaluate_cron. by rewrite Hvalid. }
  split.
  { rewrite <- not_false_iff_true, not_scheduled_false. split.
    - intros Hno v Hv Htrue. apply Hno. by exists v.
    - intros Hall (v & Hv & Htrue). by apply (Hall v). }
  split.
  { unfold no_expression.
    destruct (tags_of instance !! "WorkingExpression") as [expression |].
    - rewrite String.eqb_eq. split; [intros ->; by right |].
      by intros [? | [= ->]].
    - split; [by left | done]. }
  split; [done |]. split; [done |].
  split; [intros; split; [by apply Hrule3 | apply contains_msg_invalid] |].
  intros Hany.
  destruct (not_scheduled (tags_of instance !! "WorksOnSchedule")) eqn:Hflag;
    [eauto |].
  destruct (no_expression (tags_of instance !! "WorkingExpression")) eqn:Hno;
    [eauto |].
  destruct Hany as [? | [? | (expression & Hexpr & Hvalid)]]; [done | done |].
  exists (msg_invalid (InstanceId instance) expression).
  apply Hrule3; auto.
  intros ->. by rewrite Hexpr in Hno.
Qed.

(** C1: for an instance whose 'WorksOnSchedule' tag is "true" up to case
    and whose 'WorkingExpression' tag croniter accepts, the decision is
    'start' when the single [croniter.match] test of the expression against
    the timestamp says yes and 'stop' when it says no; and the action is
    a function of the tag dictionary and the timestamp alone: any instance
    with the same dictionary gets the same action. *)
Theorem evaluate_instance_start_iff_match :
  ∀ (instance : Instance) (current_time : datetime)
    (v expression : string) (matches : bool),
    tags_of instance !! "WorksOnSchedule" = Some v →
    spelled_true v →
    tags_of instance !! "WorkingExpression" = Some expression →
    expression ≠ ""%string →
    croniter_is_valid expression = Ok true →
    croniter_match expression current_time = Ok matches →
    evaluate_instance instance current_time =
      Ok (if matches
          then (Some start, msg_start (InstanceId instance))
          else (Some stop, msg_stop (InstanceId instance))) ∧
    (action_of (evaluate_instance instance current_time) = Ok (Some start)
       ↔ matches = true) ∧
    (action_of (evaluate_instance instance current_time) = Ok (Some stop)
       ↔ matches = false) ∧
    (∀ other : Instance,
       tags_of other = tags_of instance →
       action_of (evaluate_instance other current_time) =
       action_of (evaluate_instance instance current_time)).
Proof.
  intros instance current_time v expression matches
    Hflag Htrue Hexpr Hne Hvalid Hmatch.
  assert (Hsched : ∀ i, tags_of i = tags_of instance →
    not_scheduled (tags_of i !! "WorksOnSchedule") = false).
  { intros i ->. apply not_scheduled_false. eauto. }
  assert (Heval : ∀ i, tags_of i = tags_of instance →
    evaluate_instance i current_time =
      Ok (if matches
          then (Some start, msg_start (InstanceId i))
          else (Some stop, msg_stop (InstanceId i)))).
  { intros i Hi.
    rewrite (evaluate_instance_scheduled i _ expression);
      [| by apply Hsched | by rewrite Hi | done].
    unfold evaluate_cron. rewrite Hvalid, Hmatch. simpl.
    by destruct matches. }
  rewrite (Heval instance eq_refl).
  repeat split.
  - destruct matches; [done | discriminate].
  - by intros ->.
  - destruct matches; [discriminate | done].
  - by intros ->.
  - intros other Hother. rewrite (Heval other Hother).
    by destruct matches.
Qed.

End EvaluateProperties.

(** The second scenario of the policy evaluator: flag "TRUE", expression
    ["0 0 1 1 *"], evaluated on the fifth of March. *)
Lemma evaluate_instance_start_iff_match_witness :
  @evaluate_instance scenario_croniter
    (tagged "i-0a1" "TRUE" "0 0 1 1 *") march_5th =
    Ok (Some stop, msg_stop "i-0a1").
Proof.
  apply (@evaluate_instance_start_iff_match scenario_croniter
           (tagged "i-0a1" "TRUE" "0 0 1 1 *") march_5th
           "TRUE" "0 0 1 1 *" false);
    try reflexivity; try discriminate.
  exists "T"%char, "R"%char, "U"%char, "E"%char.
  unfold either_case. repeat split; auto.
Defined.

(** ** Running programs *)

Section RunProperties.
Context {W : Type} (h : handler W).

Lemma run_bind {A B} (p : prog A) (f : A → prog B) w tr :
  run h (bind p f) w tr =
    match run h p w tr with
    | (Ok a, w', tr') => run h (f a) w' tr'
    | (Raise e, w', tr') => (Raise e, w', tr')
    end.
Proof.
  revert w tr. induction p as [a | e | q k IH]; intros w tr; simpl; [done | done |].
  unfold perform. destruct (h q w) as [x w']. apply IH.
Qed.

Lemma run_catch {A} (p : prog A) (handle : exn → prog A) w tr :
  run h (catch p handle) w tr =
    match run h p w tr with
    | (Ok a, w', tr') => (Ok a, w', tr')
    | (Raise e, w', tr') => run h (handle e) w' tr'
    end.
Proof.
  revert w tr. induction p as [a | e | q k IH]; intros w tr; simpl; [done | done |].
  unfold perform. destruct (h q w) as [x w']. apply IH.
Qed.

(** The trace only grows, and what a program appends does not depend on
    what was recorded before. *)
Lemma run_trace {A} (p : prog A) w tr :
  run h p w tr =
    ((run h p w []).1.1, (run h p w []).1.2, tr ++ (run h p w []).2).
Proof.
  revert w tr. induction p as [a | e | q k IH]; intros w tr; simpl;
    [by rewrite app_nil_r | by rewrite app_nil_r |].
  unfold perform. destruct (h q w) as [x w']. simpl.
  rewrite (IH x w' (tr ++ [Ev q x])), (IH x w' [Ev q x]). simpl.
  by rewrite <- app_assoc.
Qed.

End RunProperties.

(** ** The retry executor *)

Section BackoffProperties.
Context {W : Type} (h : handler W).

Lemma attempts_app tr1 tr2 : attempts (tr1 ++ tr2) = attempts tr1 ++ attempts tr2.
Proof. unfold attempts, api_calls. by rewrite omap_app, fmap_app. Qed.

Lemma delays_from_cons a j js :
  delays_from a (j :: js) =
    (inject_Z (backoff_delay a) + j)%Q :: delays_from (S a) js.
Proof.
  unfold delays_from. simpl. rewrite Nat.add_0_r. f_equal.
  apply imap_ext. intros i x _. simpl. by rewrite Nat.add_succ_r.
Qed.

(** One attempt: the call, and after a failure either the pause or the
    final log line. *)
Lemma run_backoff_attempt func kwargs attempt w :
  ∃ (x : Res Response) w1,
    h (ApiCall (func_self func) (func_name func) kwargs) w = (x, w1) ∧
    match x with
    | Ok r =>
        run h (backoff_attempt func kwargs attempt) w [] =
          (Ok (Some r), w1,
           [Ev (ApiCall (func_self func) (func_name func) kwargs) (Ok r)])
    | Raise e =>
        if (attempt <? max_retries - 1)%nat then
          ∃ (jitter : unit_interval) w4,
            run h (backoff_attempt func kwargs attempt) w [] =
              (Ok None, w4,
               [Ev (ApiCall (func_self func) (func_name func) kwargs) (Raise e);
                Ev RandomUniform jitter;
                Ev (Log (WarnRetrying (func_name func) kwargs e
                           (inject_Z (backoff_delay attempt) + ui_val jitter)%Q)) tt;
                Ev (Sleep (inject_Z (backoff_delay attempt) + ui_val jitter)%Q) tt])
        else
          ∃ w2,
            run h (backoff_attempt func kwargs attempt) w [] =
              (Raise e, w2,
               [Ev (ApiCall (func_self func) (func_name func) kwargs) (Raise e);
                Ev (Log (ErrorNoMoreRetries (func_name func) kwargs e)) tt])
    end.
Proof.
  unfold backoff_attempt, call. simpl. unfold perform.
  destruct (h (ApiCall _ _ _) w) as [x w1] eqn:Hcall.
  exists x, w1. split; [done |].
  destruct x as [r | e]; simpl; [done |].
  change (max_retries - 1)%nat with 4%nat.
  destruct (attempt <? 4)%nat; simpl; unfold perform.
  - destruct (h RandomUniform w1) as [jitter w2]. simpl.
    repeat match goal with
    | |- context [h ?q ?w'] => destruct (h q w') as [[] ?]; simpl
    end.
    by eexists jitter, _.
  - repeat match goal with
    | |- context [h ?q ?w'] => destruct (h q w') as [[] ?]; simpl
    end.
    by eexists.
Qed.

(** The loop from attempt [a] on, when [n] attempts are left of the five. *)
Lemma run_backoff_loop func kwargs n : ∀ a w,
  (a + n = max_retries)%nat →
  Forall (λ c, c.1 = (func, kwargs))
    (api_calls (run h (backoff_loop func kwargs (seq a n)) w []).2) ∧
  sleeps (run h (backoff_loop func kwargs (seq a n)) w []).2 =
    delays_from a (jitters (run h (backoff_loop func kwargs (seq a n)) w []).2) ∧
  match (run h (backoff_loop func kwargs (seq a n)) w []).1.1 with
  | Ok (Some r) =>
      ∃ es,
        attempts (run h (backoff_loop func kwargs (seq a n)) w []).2 =
          map Raise es ++ [Ok r] ∧
        (length es < n)%nat ∧
        length (jitters (run h (backoff_loop func kwargs (seq a n)) w []).2) =
          length es
  | Ok None =>
      n = 0%nat ∧ (run h (backoff_loop func kwargs (seq a n)) w []).2 = []
  | Raise e =>
      ∃ es,
        attempts (run h (backoff_loop func kwargs (seq a n)) w []).2 =
          map Raise (es ++ [e]) ∧
        S (length es) = n ∧
        length (jitters (run h (backoff_loop func kwargs (seq a n)) w []).2) =
          length es
  end.
Proof.
  destruct func as [client name].
  induction n as [| n IH]; intros a w Han.
  { simpl. split; [constructor | done]. }
  change (seq a (S n)) with (a :: seq (S a) n).
  cbn [backoff_loop]. unfold mbind, prog_bind. rewrite run_bind.
  destruct (run_backoff_attempt (mk_func client name) kwargs a w)
    as (x & w1 & _ & Hx).
  destruct x as [r | e].
  { rewrite Hx. simpl. split; [by repeat constructor | split; [done |]].
    exists []. simpl. split; [done | split; [lia | done]]. }
  change (max_retries - 1)%nat with 4%nat in Hx.
  destruct (a <? 4)%nat eqn:Ha.
  - destruct Hx as (jitter & w4 & ->).
    apply Nat.ltb_lt in Ha.
    rewrite run_trace. cbn [fst snd].
    destruct (IH (S a) w4) as (Hcalls & Hsleeps & Hres);
      [unfold max_retries in *; lia |].
    set (rest := run h (backoff_loop _ kwargs (seq (S a) n)) w4 []) in *.
    unfold api_calls, sleeps, jitters in *.
    rewrite attempts_app, !omap_app. simpl.
    rewrite delays_from_cons. split; [by constructor | split].
    + by rewrite Hsleeps.
    + destruct (rest.1.1) as [[r |] | e'].
      * destruct Hres as (es & -> & Hlen & Hjit).
        exists (e :: es). simpl. split; [done | split; [lia | by rewrite Hjit]].
      * destruct Hres as [-> _]. unfold max_retries in *. lia.
      * destruct Hres as (es & -> & Hlen & Hjit).
        exists (e :: es). simpl. split; [done | split; [lia | by rewrite Hjit]].
  - destruct Hx as (w2 & ->). apply Nat.ltb_ge in Ha. simpl.
    split; [by repeat constructor | split; [done |]].
    exists []. simpl. split; [done | split; [| done]].
    unfold max_retries in *. lia.
Qed.

End BackoffProperties.

Lemma jitters_in_range tr :
  Forall (λ j, (0 <= j)%Q ∧ (j <= 1)%Q) (jitters tr).
Proof.
  unfold jitters. induction tr as [| [q x | phase i] tr IH];
    [constructor | | done].
  destruct q; simpl; try done.
  constructor; [| done].
  destruct x as [j Hj]. simpl.
  apply andb_true_iff in Hj as [H0 H1].
  by rewrite <- !Qle_bool_iff.
Qed.

(** C4: a call through [exponential_backoff] whose first [k < 5]
    attempts raise and whose next attempt returns [r] returns [r] after
    exactly [k + 1] attempts; a call whose attempts all raise makes exactly
    five attempts and raises the exception of the fifth.  Every attempt is
    a call of the wrapped method with the keyword arguments given. *)
Theorem exponential_backoff_attempts :
  ∀ (W : Type) (h : handler W) (w : W) (func : Func) (kwargs : Kwargs),
    (∀ (k : nat) (r : Response),
       (k < 5)%nat →
       (∀ i, (i < k)%nat →
          ∃ e, attempts (run h (exponential_backoff func kwargs) w []).2 !! i
                 = Some (Raise e)) →
       attempts (run h (exponential_backoff func kwargs) w []).2 !! k
         = Some (Ok r) →
       (run h (exponential_backoff func kwargs) w []).1.1 = Ok (Some r) ∧
       length (attempts (run h (exponential_backoff func kwargs) w []).2)
         = S k) ∧
    ((∀ i o,
        attempts (run h (exponential_backoff func kwargs) w []).2 !! i = Some o →
        is_raise o = true) →
     length (attempts (run h (exponential_backoff func kwargs) w []).2) = 5%nat ∧
     ∃ e,
       attempts (run h (exponential_backoff func kwargs) w []).2 !! 4%nat
         = Some (Raise e) ∧
       (run h (exponential_backoff func kwargs) w []).1.1 = Raise e) ∧
    Forall (λ c, c.1 = (func, kwargs))
      (api_calls (run h (exponential_backoff func kwargs) w []).2).
Proof.
  intros W h w func kwargs. unfold exponential_backoff.
  destruct (run_backoff_loop h func kwargs max_retries 0 w eq_refl)
    as (Hcalls & _ & Hres).
  set (tries := attempts _) in *.
  destruct ((run h (backoff_loop func kwargs (seq 0 max_retries)) w []).1.1)
    as [[r' |] | e'].
  - destruct Hres as (es & Htries & Hlen & _).
    assert (Hlast : tries !! length es = Some (Ok r')).
    { rewrite Htries, lookup_app_r by (by rewrite length_map).
      by rewrite length_map, Nat.sub_diag. }
    split; [| split; [| done]].
    + intros k r Hk Hfails Hok.
      assert (k = length es) as ->.
      { destruct (Nat.lt_trichotomy k (length es)) as [Hlt | [Heq | Hgt]];
          [| done |].
        - rewrite Htries, lookup_app_l in Hok by (by rewrite length_map).
          rewrite list_lookup_fmap in Hok.
          destruct (es !! k); simplify_eq/=.
        - destruct (Hfails _ Hgt) as [e He]. congruence. }
      rewrite Hlast in Hok. injection Hok as ->.
      split; [done |]. rewrite Htries, length_app, length_map. simpl. lia.
    + intros Hall. by apply Hall in Hlast.
  - destruct Hres as [Hn _]. discriminate.
  - destruct Hres as (es & Htries & Hlen & _).
    split; [| split; [| done]].
    + intros k r _ _ Hok.
      rewrite Htries, list_lookup_fmap in Hok.
      destruct ((es ++ [e']) !! k); simplify_eq/=.
    + intros _. injection Hlen as Hlen.
      split; [rewrite Htries, length_map, length_app; simpl; lia |].
      exists e'. split; [| done].
      rewrite Htries, list_lookup_fmap, lookup_app_r by lia.
      by rewrite Hlen.
Qed.

(** Two throttled attempts, then a success: three attempts, the success
    returned. *)
Example exponential_backoff_third_attempt :
  (run sim_handler
     (exponential_backoff (start_instances ec2_east) [("InstanceIds", ["i-1"])])
     (api_only [throttled; throttled; started]) []).1.1
    = Ok (Some (ApiResponse "StartingInstances")) ∧
  attempts
    (run sim_handler
       (exponential_backoff (start_instances ec2_east) [("InstanceIds", ["i-1"])])
       (api_only [throttled; throttled; started]) []).2
    = [throttled; throttled; started].
Proof. by vm_compute. Qed.

Lemma length_delays_from a js : length (delays_from a js) = length js.
Proof. apply length_imap. Qed.

Lemma count_raises es (tail : list (Res Response)) :
  length (filter (λ o, is_raise o = true) (map Raise es ++ tail)) =
    (length es + length (filter (λ o, is_raise o = true) tail))%nat.
Proof.
  induction es as [| e es IH]; [done |].
  change (map Raise (e :: es) ++ tail) with (Raise e :: (map Raise es ++ tail)).
  rewrite filter_cons_True by done. simpl. by rewrite IH.
Qed.

Lemma total_backoff_four (j0 j1 j2 j3 : Q) :
  (Qsum (delays_from 0 [j0; j1; j2; j3]) - Qsum [j0; j1; j2; j3] == 15)%Q.
Proof.
  unfold delays_from, Qsum. simpl imap. simpl foldr.
  change (backoff_delay 0) with 1.
  change (backoff_delay 1) with 2.
  change (backoff_delay 2) with 4.
  change (backoff_delay 3) with 8.
  change (inject_Z 1) with 1%Q. change (inject_Z 2) with 2%Q.
  change (inject_Z 4) with 4%Q. change (inject_Z 8) with 8%Q.
  ring.
Qed.

(** C5, as the script has it: the [i]-th pause of a call is
    [min(1 * 2 ** i, 32)] seconds plus the [i]-th value of
    [random.uniform(0, 1)], which lies between 0 and 1; there is one pause
    after each failed attempt except the fifth, so at most four.  A call
    that fails on every attempt pauses four times, for 1 + 2 + 4 + 8 = 15
    seconds plus jitter; the cap of 32 seconds is never reached. *)
Theorem exponential_backoff_delays :
  ∀ (W : Type) (h : handler W) (w : W) (func : Func) (kwargs : Kwargs),
    sleeps (run h (exponential_backoff func kwargs) w []).2 =
      delays_from 0 (jitters (run h (exponential_backoff func kwargs) w []).2) ∧
    Forall (λ j, (0 <= j)%Q ∧ (j <= 1)%Q)
      (jitters (run h (exponential_backoff func kwargs) w []).2) ∧
    (∀ attempt : nat,
       backoff_delay attempt = Z.min (1 * 2 ^ Z.of_nat attempt) 32 ∧
       ((attempt < 4)%nat → backoff_delay attempt < 32)) ∧
    length (sleeps (run h (exponential_backoff func kwargs) w []).2) =
      (length (filter (λ o, is_raise o = true)
         (attempts (run h (exponential_backoff func kwargs) w []).2)) `min` 4)%nat ∧
    ((∀ i o,
        attempts (run h (exponential_backoff func kwargs) w []).2 !! i = Some o →
        is_raise o = true) →
     length (sleeps (run h (exponential_backoff func kwargs) w []).2) = 4%nat ∧
     (total_backoff (run h (exponential_backoff func kwargs) w []).2 == 15)%Q).
Proof.
  intros W h w func kwargs. unfold exponential_backoff, total_backoff.
  destruct (run_backoff_loop h func kwargs max_retries 0 w eq_refl)
    as (_ & Hsleeps & Hres).
  set (result := run h _ w []) in *.
  split; [done |]. split; [apply jitters_in_range |]. split.
  { intros attempt. split; [done |].
    intros Hlt. unfold backoff_delay, base_delay, max_delay.
    assert (2 ^ Z.of_nat attempt ≤ 2 ^ 3) by (apply Z.pow_le_mono_r; lia).
    change (2 ^ 3) with 8 in *. lia. }
  rewrite Hsleeps, length_delays_from.
  destruct (result.1.1) as [[r |] | e].
  - destruct Hres as (es & Htries & Hlen & Hjit).
    rewrite Htries, count_raises, Hjit. simpl.
    split; [unfold max_retries in *; lia |].
    intros Hall.
    assert (Hlast : (map Raise es ++ [Ok r]) !! length es = Some (Ok r)).
    { rewrite lookup_app_r by (by rewrite length_map).
      by rewrite length_map, Nat.sub_diag. }
    by apply Hall in Hlast.
  - by destruct Hres.
  - destruct Hres as (es & Htries & [= Hlen] & Hjit).
    rewrite Htries, map_app, count_raises, Hjit, Hlen. simpl.
    split; [done |]. intros _. split; [done |].
    destruct (jitters result.2) as [| j0 [| j1 [| j2 [| j3 [| j4 js]]]]];
      simpl in Hjit; try lia.
    apply total_backoff_four.
Qed.

(** Counterexample to C5 as stated: on an account that throttles every call
    all five attempts raise, and the time slept without the jitter is 15
    seconds, not 63. *)
Lemma exponential_backoff_total_not_63 :
  attempts
    (run sim_handler
       (exponential_backoff (start_instances ec2_east) [("InstanceIds", ["i-1"])])
       (api_only []) []).2
    = replicate 5 (Raise (Exception "RequestLimitExceeded")) ∧
  sleeps
    (run sim_handler
       (exponential_backoff (start_instances ec2_east) [("InstanceIds", ["i-1"])])
       (api_only []) []).2
    = [(1 + (1 # 2))%Q; (2 + (1 # 2))%Q; (4 + (1 # 2))%Q; (8 + (1 # 2))%Q] ∧
  ¬ (total_backoff
       (run sim_handler
          (exponential_backoff (start_instances ec2_east)
             [("InstanceIds", ["i-1"])])
          (api_only []) []).2 == 63)%Q.
Proof.
  split; [by vm_compute |]. split; [reflexivity |].
  intros H. vm_compute in H. discriminate.
Qed.

(** ** The batch mutator *)

Lemma range_0_length n : length (range 0 n batch_size) = ceil_div n batch_size.
Proof. unfold range, ceil_div. by rewrite length_fmap, length_seq, Nat.sub_0_r. Qed.

Lemma chunks_lookup ids j chunk :
  chunks ids !! j = Some chunk →
  chunk = take batch_size (drop (j * batch_size) ids) ∧
  (j * batch_size < length ids)%nat.
Proof.
  unfold chunks, range. rewrite !list_lookup_fmap.
  replace (length ids - 0)%nat with (length ids) by lia.
  intros H. destruct (seq _ _ !! j) as [j' |] eqn:Hj; [| done].
  apply lookup_seq in Hj as [-> Hlt]. simpl in H. injection H as <-.
  unfold slice.
  replace (j * batch_size + batch_size - j * batch_size)%nat with batch_size by lia.
  split; [done |].
  unfold batch_size in *.
  pose proof (Nat.div_mod_eq (length ids + (50 - 1)) 50) as Hdiv.
  pose proof (Nat.mod_upper_bound (length ids + (50 - 1)) 50) as Hmod.
  lia.
Qed.

Lemma chunks_nil : chunks [] = [].
Proof. reflexivity. Qed.

(** The first slice and the slices of the rest. *)
Lemma chunks_cons ids :
  ids ≠ [] →
  chunks ids = take batch_size ids :: chunks (drop batch_size ids).
Proof.
  intros Hne.
  assert (0 < length ids)%nat as Hpos by (destruct ids; [done | simpl; lia]).
  unfold chunks, range. rewrite !Nat.sub_0_r, length_drop.
  assert (((length ids + (batch_size - 1)) / batch_size)%nat =
          S ((length ids - batch_size + (batch_size - 1)) / batch_size)) as ->.
  { unfold batch_size.
    destruct (Nat.le_gt_cases 50 (length ids)) as [Hge | Hlt].
    - replace (length ids + (50 - 1))%nat
        with ((length ids - 50 + (50 - 1)) + 1 * 50)%nat by lia.
      rewrite Nat.div_add by lia. lia.
    - replace (length ids - 50)%nat with 0%nat by lia.
      rewrite (Nat.div_small (0 + (50 - 1))) by lia.
      replace (length ids + (50 - 1))%nat
        with ((length ids - 1) + 1 * 50)%nat by lia.
      rewrite Nat.div_add by lia.
      rewrite Nat.div_small by lia. done. }
  rewrite <- cons_seq, !fmap_cons.
  change (slice ids (0 + 0 * batch_size) (0 + 0 * batch_size + batch_size))
    with (take batch_size ids).
  f_equal.
  rewrite <- fmap_S_seq, <- !list_fmap_compose.
  apply list_fmap_ext. intros _ j _. unfold compose, slice. cbn beta.
  rewrite drop_drop. repeat (f_equal; try lia).
Qed.

Lemma chunks_ind (P : list string → Prop) :
  P [] →
  (∀ ids, ids ≠ [] → P (drop batch_size ids) → P ids) →
  ∀ ids, P ids.
Proof.
  intros Hnil Hcons ids.
  remember (length ids) as n eqn:Hn. revert ids Hn.
  induction n as [n IH] using lt_wf_ind. intros ids ->.
  destruct ids as [| x ids]; [done |].
  apply Hcons; [done |].
  apply (IH (length (drop batch_size (x :: ids)))); [| done].
  rewrite length_drop. simpl. unfold batch_size. lia.
Qed.

Lemma concat_chunks ids : concat (chunks ids) = ids.
Proof.
  induction ids as [| ids Hne IH] using chunks_ind; [done |].
  rewrite chunks_cons by done. simpl. by rewrite IH, take_drop.
Qed.

Lemma length_chunks ids :
  length (chunks ids) = ceil_div (length ids) batch_size.
Proof. unfold chunks. by rewrite length_fmap, range_0_length. Qed.

Lemma chunk_sizes ids :
  Forall (λ chunk, (0 < length chunk ≤ batch_size)%nat) (chunks ids).
Proof.
  apply Forall_lookup. intros j chunk Hj.
  apply chunks_lookup in Hj as [-> Hlt].
  rewrite length_take, length_drop. unfold batch_size in *. lia.
Qed.

Section BatchProperties.
Context {W : Type} (h : handler W).

Lemma calls_app tr1 tr2 : calls (tr1 ++ tr2) = calls tr1 ++ calls tr2.
Proof. unfold calls, api_calls. by rewrite omap_app, fmap_app. Qed.

Lemma successes_app tr1 tr2 :
  successes (tr1 ++ tr2) = successes tr1 ++ successes tr2.
Proof. unfold successes, api_calls. by rewrite omap_app, filter_app, fmap_app. Qed.

(** The calls of a trace all of whose calls are [x], from the outcomes. *)
Lemma api_calls_same (x : Func * Kwargs) (cs : list (Func * Kwargs * Res Response)) :
  Forall (λ c, c.1 = x) cs → cs = (λ o, (x, o)) <$> cs.*2.
Proof.
  induction 1 as [| [y o] cs Hy _ IH]; [done |].
  simpl in Hy. subst y. rewrite !fmap_cons. simpl. f_equal. exact IH.
Qed.

Lemma successes_raises (x : Func * Kwargs) es (tail : list (Res Response)) :
  (filter (λ c : Func * Kwargs * Res Response, is_raise c.2 = false)
     ((λ o, (x, o)) <$> (map Raise es ++ tail))).*1 =
  (filter (λ c : Func * Kwargs * Res Response, is_raise c.2 = false)
     ((λ o, (x, o)) <$> tail)).*1.
Proof.
  induction es as [| e es IH]; [done |].
  change (map Raise (e :: es) ++ tail) with (Raise e :: (map Raise es ++ tail)).
  rewrite fmap_cons, filter_cons_False; [done |]. simpl. discriminate.
Qed.

(** What one call through the retry executor leaves in the trace. *)
Lemma run_exponential_backoff_calls func kwargs w :
  ∃ n, (1 ≤ n ≤ max_retries)%nat ∧
    calls (run h (exponential_backoff func kwargs) w []).2 =
      replicate n (func, kwargs) ∧
    match (run h (exponential_backoff func kwargs) w []).1.1 with
    | Ok (Some _) =>
        successes (run h (exponential_backoff func kwargs) w []).2 =
          [(func, kwargs)]
    | Ok None => False
    | Raise _ =>
        n = max_retries ∧
        successes (run h (exponential_backoff func kwargs) w []).2 = []
    end.
Proof.
  unfold exponential_backoff, calls, successes.
  destruct (run_backoff_loop h func kwargs max_retries 0 w eq_refl)
    as (Hcalls & _ & Hres).
  set (result := run h _ w []) in *.
  apply api_calls_same in Hcalls. fold (attempts result.2) in Hcalls.
  set (tries := attempts result.2) in *. clearbody tries.
  exists (length tries). rewrite Hcalls, <- list_fmap_compose.
  replace ((fst ∘ λ o : Res Response, (func, kwargs, o)) <$> tries)
    with (replicate (length tries) (func, kwargs)).
  2:{ clear. induction tries as [| o os IH]; [done |]. simpl. by rewrite IH. }
  destruct (result.1.1) as [[r |] | e].
  - destruct Hres as (es & -> & Hlen & _).
    rewrite length_app, length_map. simpl.
    split; [unfold max_retries in *; lia |]. split; [done |].
    by rewrite successes_raises.
  - by destruct Hres.
  - destruct Hres as (es & -> & Hlen & _).
    rewrite length_map, length_app. simpl.
    split; [unfold max_retries in *; lia |]. split; [done |].
    split; [unfold max_retries in *; lia |].
    rewrite map_app, successes_raises. done.
Qed.

Lemma for_each_fmap {A B} (f : A → B) (xs : list A) (body : B → prog unit) :
  for_each (f <$> xs) body = for_each xs (body ∘ f).
Proof.
  induction xs as [| x xs IH]; [done |].
  rewrite fmap_cons. cbn [for_each]. by rewrite IH.
Qed.

Lemma batch_chunks func ids :
  batch func ids =
    for_each (chunks ids)
      (λ chunk, exponential_backoff func (kwargs_of chunk);; mret tt).
Proof. unfold batch, chunks. by rewrite for_each_fmap. Qed.

(** The loop over the slices: slice after slice, each attempted up to five
    times, until one of them has failed five times. *)
Lemma run_for_each_chunks func cs : ∀ w,
  ∃ ns, Forall (λ n, (1 ≤ n ≤ max_retries)%nat) ns ∧
    calls (run h (for_each cs
      (λ chunk, exponential_backoff func (kwargs_of chunk);; mret tt)) w []).2
      = retried func cs ns ∧
    match (run h (for_each cs
      (λ chunk, exponential_backoff func (kwargs_of chunk);; mret tt)) w []).1.1
    with
    | Ok _ =>
        length ns = length cs ∧
        successes (run h (for_each cs
          (λ chunk, exponential_backoff func (kwargs_of chunk);; mret tt)) w []).2
          = (λ chunk, (func, kwargs_of chunk)) <$> cs
    | Raise _ =>
        (0 < length ns ≤ length cs)%nat ∧
        last ns = Some max_retries ∧
        successes (run h (for_each cs
          (λ chunk, exponential_backoff func (kwargs_of chunk);; mret tt)) w []).2
          = (λ chunk, (func, kwargs_of chunk)) <$> take (length ns - 1) cs
    end.
Proof.
  induction cs as [| c cs IH]; intros w.
  { exists []. simpl. by repeat split. }
  cbn [for_each]. rewrite run_bind. unfold mbind, prog_bind. rewrite run_bind.
  destruct (run_exponential_backoff_calls func (kwargs_of c) w)
    as (n & Hn & Hcalls & Hres).
  destruct (run h (exponential_backoff func (kwargs_of c)) w [])
    as [[[[r |] | e] w1] tr1]; simpl in Hcalls, Hres; [| done |].
  - cbn [run mret prog_ret]. rewrite run_trace. cbn [fst snd].
    destruct (IH w1) as (ns & Hns & Hcs & Hrest).
    set (rest := run h (for_each cs _) w1 []) in *.
    exists (n :: ns). split; [by constructor |].
    rewrite calls_app, successes_app, Hcalls, Hres, Hcs.
    split; [done |].
    destruct (rest.1.1) as [[] | e].
    + destruct Hrest as [Hlen ->]. split; [simpl; by rewrite Hlen | done].
    + destruct Hrest as ((Hpos & Hle) & Hlast & ->).
      split; [simpl; lia |]. split.
      * destruct ns; [simpl in Hpos; lia | done].
      * simpl. replace (length ns - 0)%nat with (S (length ns - 1)) by lia.
        done.
  - destruct Hres as [-> Hnone].
    exists [max_retries]. split; [by repeat constructor |].
    cbn [fst snd]. rewrite Hcalls, Hnone. simpl. unfold retried. simpl.
    split; [by destruct cs |]. split; [lia | done].
Qed.

End BatchProperties.

Lemma chunk_lengths ids :
  length <$> chunks ids =
    (λ i, batch_size `min` (length ids - i))%nat <$>
      range 0 (length ids) batch_size.
Proof.
  unfold chunks. rewrite <- list_fmap_compose.
  apply list_fmap_ext. intros _ i _. unfold compose, slice.
  rewrite length_take, length_drop. f_equal. lia.
Qed.

Lemma successes_all tr :
  Forall (λ o, is_raise o = false) (attempts tr) → successes tr = calls tr.
Proof.
  unfold attempts, successes, calls.
  induction (api_calls tr) as [| [x o] cs IH]; [done |].
  rewrite fmap_cons, Forall_cons. intros [Ho Hcs]. simpl in Ho.
  rewrite filter_cons_True by done. rewrite !fmap_cons. f_equal. by apply IH.
Qed.

(** C3, as the script has it: when the batch mutator returns, that is when
    no slice has failed five times in a row, the calls that went through
    are one per slice of the input, in input order: [ceil(N / 50)] of
    them, each a contiguous slice of at most 50 identifiers, which put end
    to end give back the input; 120 identifiers make slices of 50, 50 and
    20.  Every other call in the trace is a failed attempt at one of these
    slices, retried in place, between one and five attempts per slice;
    with no failed attempt the calls are exactly the slices. *)
Theorem batch_mutator_chunking :
  ∀ (W : Type) (h : handler W) (w : W) (ec2_client : Client)
    (instance_ids : list string)
    (mutator : Client → list string → prog unit) (method : Client → Func),
    (mutator, method) ∈ [(batch_start_instances, start_instances);
                         (batch_stop_instances, stop_instances)] →
    (run h (mutator ec2_client instance_ids) w []).1.1 = Ok tt →
    length (chunks instance_ids) = ceil_div (length instance_ids) 50 ∧
    Forall (λ chunk, (0 < length chunk ≤ 50)%nat) (chunks instance_ids) ∧
    (∀ j chunk,
       chunks instance_ids !! j = Some chunk →
       chunk = take 50 (drop (j * 50) instance_ids)) ∧
    concat (chunks instance_ids) = instance_ids ∧
    (length instance_ids = 120%nat →
       length <$> chunks instance_ids = [50; 50; 20]%nat) ∧
    successes (run h (mutator ec2_client instance_ids) w []).2 =
      (λ chunk, (method ec2_client, kwargs_of chunk)) <$> chunks instance_ids ∧
    (∃ ns,
       length ns = length (chunks instance_ids) ∧
       Forall (λ n, (1 ≤ n ≤ 5)%nat) ns ∧
       calls (run h (mutator ec2_client instance_ids) w []).2 =
         retried (method ec2_client) (chunks instance_ids) ns) ∧
    (Forall (λ o, is_raise o = false)
       (attempts (run h (mutator ec2_client instance_ids) w []).2) →
     calls (run h (mutator ec2_client instance_ids) w []).2 =
       (λ chunk, (method ec2_client, kwargs_of chunk)) <$> chunks instance_ids).
Proof.
  intros W h w ec2_client instance_ids mutator method Hin Hok.
  assert (mutator ec2_client instance_ids =
          batch (method ec2_client) instance_ids) as Hbatch.
  { apply elem_of_cons in Hin as [[= -> ->] | Hin]; [done |].
    apply elem_of_cons in Hin as [[= -> ->] | Hin]; [done |].
    by apply elem_of_nil in Hin. }
  rewrite Hbatch, batch_chunks in *.
  destruct (run_for_each_chunks h (method ec2_client) (chunks instance_ids) w)
    as (ns & Hns & Hcalls & Hres).
  rewrite Hok in Hres. destruct Hres as [Hlen Hsucc].
  split; [apply length_chunks |].
  split; [apply chunk_sizes |].
  split; [intros j chunk Hj; by apply chunks_lookup in Hj as [-> _] |].
  split; [apply concat_chunks |].
  split; [intros H120; rewrite chunk_lengths, H120; reflexivity |].
  split; [done |].
  split; [by exists ns |].
  intros Hall. by rewrite <- successes_all.
Qed.

(** The mutator on 120 identifiers, the first call throttled once. *)
Lemma batch_mutator_chunking_witness :
  successes
    (run sim_handler (batch_start_instances ec2_east (instance_ids 120))
       (api_only [throttled; started; started; started]) []).2 =
  (λ chunk, (start_instances ec2_east, kwargs_of chunk)) <$>
    chunks (instance_ids 120).
Proof.
  apply (batch_mutator_chunking sim sim_handler
           (api_only [throttled; started; started; started]) ec2_east
           (instance_ids 120) batch_start_instances start_instances).
  - left.
  - vm_compute. reflexivity.
Defined.

(** Counterexample to C3 as stated: on an account that throttles every call
    the mutator given 120 identifiers makes five calls, all of them with
    the first slice, and raises; the second and third slice are never
    sent. *)
Lemma batch_mutator_stops_at_failed_chunk :
  (run sim_handler (batch_start_instances ec2_east (instance_ids 120))
     (api_only []) []).1.1 = Raise (Exception "RequestLimitExceeded") ∧
  calls
    (run sim_handler (batch_start_instances ec2_east (instance_ids 120))
       (api_only []) []).2 =
    replicate 5
      (start_instances ec2_east, kwargs_of (take 50 (instance_ids 120))) ∧
  ceil_div 120 50 = 3%nat ∧
  successes
    (run sim_handler (batch_start_instances ec2_east (instance_ids 120))
       (api_only []) []).2 = [].
Proof. by vm_compute. Qed.

(** ** The region worker *)

Section RegionProperties.
Context `{!Croniter}.
Context {W : Type} (h : handler W).

Lemma decided_cons action instance instances current_time a reason :
  evaluate_instance instance current_time = Ok (a, reason) →
  decided action (instance :: instances) current_time =
    (if decide (a = Some action) then [InstanceId instance] else []) ++
    decided action instances current_time.
Proof.
  intros Heval. unfold decided.
  destruct (decide (a = Some action)) as [-> | Hne].
  - rewrite filter_cons_True by (by rewrite Heval). done.
  - rewrite filter_cons_False; [done |].
    rewrite Heval. simpl. congruence.
Qed.

Lemma reasons_cons instance instances current_time a reason :
  evaluate_instance instance current_time = Ok (a, reason) →
  reasons (instance :: instances) current_time =
    reason :: reasons instances current_time.
Proof. intros Heval. unfold reasons. simpl. by rewrite Heval. Qed.

(** The loop over the instances sends no request: it returns the three
    lists extended by what the decisions say. *)
Lemma process_instances_ret instances current_time :
  ∀ start_ids stop_ids messages,
    process_instances instances current_time start_ids stop_ids messages =
      Ret (start_ids ++ decided start instances current_time,
           stop_ids ++ decided stop instances current_time,
           messages ++ reasons instances current_time).
Proof.
  induction instances as [| instance instances IH];
    intros start_ids stop_ids messages.
  { simpl. by rewrite !app_nil_r. }
  destruct (evaluate_instance_never_raises instance current_time)
    as [(a & reason & Heval) _].
  rewrite (decided_cons start _ _ _ a reason Heval),
    (decided_cons stop _ _ _ a reason Heval),
    (reasons_cons _ _ _ a reason Heval).
  cbn [process_instances]. rewrite Heval. simpl.
  destruct a as [[] |]; simpl; rewrite IH; by rewrite <- ?app_assoc.
Qed.

(** A run of the worker: the client, the listing, and the lists. *)
Lemma run_process_region region current_time w :
  match h (Boto3Client region) w with
  | (Raise e, w1) =>
      run h (process_region region current_time) w [] =
        (Raise e, w1, [Ev (Boto3Client region) (Raise e)])
  | (Ok u, w1) =>
      match h (Paginate (mk_client region)) w1 with
      | (Raise e, w2) =>
          run h (process_region region current_time) w [] =
            (Raise e, w2,
             [Ev (Boto3Client region) (Ok u);
              Ev (Paginate (mk_client region)) (Raise e)])
      | (Ok pages, w2) =>
          run h (process_region region current_time) w [] =
            (Ok (decided start (flat_map Instances (flat_map Reservations pages))
                   current_time,
                 decided stop (flat_map Instances (flat_map Reservations pages))
                   current_time,
                 mk_client region,
                 reasons (flat_map Instances (flat_map Reservations pages))
                   current_time),
             w2,
             [Ev (Boto3Client region) (Ok u);
              Ev (Paginate (mk_client region)) (Ok pages)])
      end
  end.
Proof.
  unfold process_region, get_instances_in_region, boto3_client, paginate.
  simpl. unfold perform.
  destruct (h (Boto3Client region) w) as [[u | e] w1]; simpl; [| done].
  unfold perform.
  destruct (h (Paginate (mk_client region)) w1) as [[pages | e] w2]; simpl;
    [| done].
  by rewrite process_instances_ret.
Qed.

Lemma NoDup_fmap_eq {A B} (f : A → B) (l : list A) x y :
  NoDup (f <$> l) → x ∈ l → y ∈ l → f x = f y → x = y.
Proof.
  induction l as [| z l IH]; [by intros _ ?%elem_of_nil |].
  rewrite fmap_cons, NoDup_cons, !elem_of_cons.
  intros [Hz Hl] [-> | Hx] [-> | Hy] Hf; [done | | | by apply IH].
  - destruct Hz. rewrite Hf. by apply list_elem_of_fmap_2.
  - destruct Hz. rewrite <- Hf. by apply list_elem_of_fmap_2.
Qed.

Lemma elem_of_decided action instances current_time instance_id :
  instance_id ∈ decided action instances current_time ↔
  ∃ instance,
    instance ∈ instances ∧ InstanceId instance = instance_id ∧
    action_of (evaluate_instance instance current_time) = Ok (Some action).
Proof.
  unfold decided. rewrite list_elem_of_fmap. split.
  - intros (instance & -> & [Ha Hi]%list_elem_of_filter). eauto.
  - intros (instance & Hi & <- & Ha). exists instance.
    split; [done |]. by apply list_elem_of_filter.
Qed.

(** C7: the two lists [process_region] returns are the identifiers of the
    listed instances that evaluate to start, and of those that evaluate
    to stop, each in the order of the listing; an instance that is
    skipped is in neither; and the lists have no identifier in common,
    identifiers being unique within the listing of a region. *)
Theorem process_region_partitions :
  ∀ (region : string) (current_time : datetime) (w : W)
    (start_ids stop_ids messages : list string) (ec2_client : Client),
    (run h (process_region region current_time) w []).1.1 =
      Ok (start_ids, stop_ids, ec2_client, messages) →
    ∃ instances,
      listings (run h (process_region region current_time) w []).2 = [instances] ∧
      start_ids = decided start instances current_time ∧
      stop_ids = decided stop instances current_time ∧
      (∀ instance_id,
         instance_id ∈ start_ids ↔
         ∃ instance, instance ∈ instances ∧
           InstanceId instance = instance_id ∧
           action_of (evaluate_instance instance current_time) = Ok (Some start)) ∧
      (∀ instance_id,
         instance_id ∈ stop_ids ↔
         ∃ instance, instance ∈ instances ∧
           InstanceId instance = instance_id ∧
           action_of (evaluate_instance instance current_time) = Ok (Some stop)) ∧
      (∀ instance, instance ∈ instances →
         action_of (evaluate_instance instance current_time) = Ok None →
         NoDup (InstanceId <$> instances) →
         (InstanceId instance ∉ start_ids) ∧
         (InstanceId instance ∉ stop_ids)) ∧
      (NoDup (InstanceId <$> instances) →
         ∀ instance_id, instance_id ∈ start_ids → instance_id ∉ stop_ids) ∧
      start_ids `sublist_of` (InstanceId <$> instances) ∧
      stop_ids `sublist_of` (InstanceId <$> instances).
Proof.
  intros region current_time w start_ids stop_ids messages ec2_client Hrun.
  pose proof (run_process_region region current_time w) as Hrp.
  destruct (h (Boto3Client region) w) as [[u | e] w1];
    [| by rewrite Hrp in Hrun].
  destruct (h (Paginate (mk_client region)) w1) as [[pages | e] w2];
    [| by rewrite Hrp in Hrun].
  rewrite Hrp in Hrun |- *. simpl in Hrun. injection Hrun as <- <- <- <-.
  exists (flat_map Instances (flat_map Reservations pages)).
  set (instances := flat_map Instances (flat_map Reservations pages)).
  assert (Hexcl : ∀ a b x y,
    NoDup (InstanceId <$> instances) → a ≠ b →
    x ∈ instances →
    action_of (evaluate_instance x current_time) = Ok a →
    y ∈ instances →
    action_of (evaluate_instance y current_time) = Ok b →
    InstanceId x ≠ InstanceId y).
  { intros a b x y Hnodup Hab Hx Ha Hy Hb Hid.
    assert (x = y) as -> by eauto using NoDup_fmap_eq. congruence. }
  split; [done |]. split; [done |]. split; [done |].
  split; [apply elem_of_decided |]. split; [apply elem_of_decided |].
  split.
  { intros instance Hi Hskip Hnodup.
    split; intros (other & Ho & Hid & Ha)%elem_of_decided;
      by refine (Hexcl _ _ other instance Hnodup _ Ho Ha Hi Hskip Hid). }
  split.
  { intros Hnodup instance_id (x & Hx & <- & Ha)%elem_of_decided
      (y & Hy & Hid & Hb)%elem_of_decided.
    by refine (Hexcl _ _ y x Hnodup _ Hy Hb Hx Ha Hid). }
  split; apply fmap_sublist, sublist_filter.
Qed.

End RegionProperties.

(** The first region of the fleet: two instances to start, one to stop,
    two skipped. *)
Lemma process_region_partitions_witness :
  ∃ instances,
    listings
      (run sim_handler
         (@process_region scenario_croniter "us-east-1" march_5th) fleet []).2
      = [instances] ∧
    ["i-a"; "i-e"] = @decided scenario_croniter start instances march_5th ∧
    ["i-b"] = @decided scenario_croniter stop instances march_5th.
Proof.
  destruct (@process_region_partitions scenario_croniter sim sim_handler
              "us-east-1" march_5th fleet ["i-a"; "i-e"] ["i-b"]
              (@reasons scenario_croniter
                 (flat_map Instances (flat_map Reservations east_pages))
                 march_5th)
              (mk_client "us-east-1") eq_refl)
    as (instances & Hlist & Hstart & Hstop & _).
  exists instances. auto.
Defined.

(** ** The thread pool *)

Lemma sends_bind {A B} (P : event → Prop) (p : prog A) (f : A → prog B) :
  sends P p → (∀ a, sends P (f a)) → sends P (bind p f).
Proof.
  intros Hp Hf. induction Hp as [a | e | q k Hq Hk IH]; simpl;
    [done | constructor | by constructor].
Qed.

Lemma sends_catch {A} (P : event → Prop) (p : prog A) (handle : exn → prog A) :
  sends P p → (∀ e, sends P (handle e)) → sends P (catch p handle).
Proof.
  intros Hp Hf. induction Hp as [a | e | q k Hq Hk IH]; simpl;
    [constructor | done | by constructor].
Qed.

Lemma sends_of_res {A} (P : event → Prop) (x : Res A) : sends P (of_res x).
Proof. destruct x; constructor. Qed.

Lemma sends_for_each {A} (P : event → Prop) (xs : list A) body :
  (∀ x, sends P (body x)) → sends P (for_each xs body).
Proof.
  intros Hbody. induction xs as [| x xs IH]; [constructor |].
  simpl. by apply sends_bind.
Qed.

Lemma sends_Vis_inv {A} (P : event → Prop) q (k : resp q → prog A) :
  sends P (Vis q k) → (∀ x, P (Ev q x)) ∧ (∀ x, sends P (k x)).
Proof.
  assert (Hgen : ∀ p : prog A, sends P p →
    match p with
    | Vis q k => (∀ x, P (Ev q x)) ∧ (∀ x, sends P (k x))
    | _ => True
    end) by (by destruct 1).
  apply Hgen.
Qed.

Lemma ends_Vis_inv {A} q (k : resp q → prog A) o :
  ends (Vis q k) o → ∃ x, ends (k x) o.
Proof.
  assert (Hgen : ∀ (p : prog A) o, ends p o →
    match p with
    | Vis q k => ∃ x, ends (k x) o
    | _ => True
    end) by (destruct 1; eauto).
  apply Hgen.
Qed.

Lemma ends_of_res {A} (x o : Res A) : ends (of_res x) o → o = x.
Proof. destruct x; by inversion 1. Qed.

Lemma outcome_of_ends {A} (p : prog A) o : outcome_of p = Some o → ends p o.
Proof. destruct p; simpl; intros [= <-]; constructor. Qed.

Section RunEnds.
Context {W : Type} (h : handler W).

Lemma run_ends {A} (p : prog A) w tr : ends p (run h p w tr).1.1.
Proof.
  revert w tr. induction p as [a | e | q k IH]; intros w tr; simpl;
    [constructor | constructor |].
  unfold perform. destruct (h q w) as [x w']. by econstructor.
Qed.

Lemma run_sends {A} (P : event → Prop) (p : prog A) w :
  sends P p → Forall P (run h p w []).2.
Proof.
  intros Hp. revert w. induction Hp as [a | e | q k Hq Hk IH]; intros w; simpl;
    [constructor | constructor |].
  unfold perform. destruct (h q w) as [x w']. simpl.
  rewrite run_trace. simpl. constructor; [apply Hq | apply IH].
Qed.

Lemma run_finished {A} (p : prog A) o w tr :
  outcome_of p = Some o → run h p w tr = (o, w, tr).
Proof. destruct p; simpl; by intros [= <-]. Qed.

End RunEnds.

Section PoolCollect.
Context {A W : Type} (h : handler W).
Context (phase : Phase) (max_workers : nat).
Context (on_error : nat → exn → LogRecord).

(** The body of the collecting loop lets no exception out: what the future
    raised is caught by [except Exception], and the error line is logged. *)
Lemma run_future_result (record : exn → LogRecord) (o : Res A) w tr :
  run h (future_result record o) w tr =
    match o with
    | Ok a => (Ok (Some a), w, tr)
    | Raise e =>
        (Ok None, (h (Log (record e)) w).2, tr ++ [Ev (Log (record e)) tt])
    end.
Proof.
  destruct o as [a | e]; [done |].
  simpl. unfold perform. by destruct (h (Log (record e)) w) as [[] w'].
Qed.

(** One turn of the collecting loop, case by case. *)
Lemma collect_step_eq i (st : pool A W) :
  collect_step h phase on_error i st =
    match pl_raised st, pl_script st, pl_tasks st !! i with
    | None, [], Some p =>
        if bool_decide (i ∈ (pl_done st).*1) then st
        else
          match outcome_of p with
          | Some (Ok a) =>
              mk_pool [] (pl_tasks st) (pl_done st ++ [(i, Ok a)])
                (pl_world st) (pl_trace st ++ [Done phase i]) None
          | Some (Raise e) =>
              let '(_, w, tr) :=
                perform h (Log (on_error i e)) (pl_world st)
                  (pl_trace st ++ [Done phase i]) in
              mk_pool [] (pl_tasks st) (pl_done st ++ [(i, Raise e)]) w tr None
          | None => st
          end
    | _, _, _ => st
    end.
Proof.
  unfold collect_step.
  destruct (pl_raised st); [done |].
  destruct (pl_script st); [| done].
  destruct (pl_tasks st !! i) as [p |]; [| done].
  case_bool_decide; [done |].
  destruct (outcome_of p) as [[a | e] |]; [done | | done].
  rewrite run_future_result. unfold perform.
  by destruct (h (Log (on_error i e)) (pl_world st)) as [[] w'].
Qed.

(** No step of a pool ends the main thread. *)
Lemma main_step_raised (st : pool A W) :
  pl_raised (main_step h st) = pl_raised st.
Proof.
  unfold main_step. destruct (pl_script st) as [| [record | task] script];
    [done | | done].
  unfold perform. by destruct (h (Log record) (pl_world st)) as [[] w].
Qed.

Lemma worker_step_raised i (st : pool A W) :
  pl_raised (worker_step h max_workers i st) = pl_raised st.
Proof.
  unfold worker_step.
  destruct (pl_tasks st !! i) as [[a | e | q k] |]; try done.
  destruct (can_run max_workers (pl_tasks st) i); [| done].
  unfold perform. by destruct (h q (pl_world st)) as [x w].
Qed.

Lemma finish_worker_raised (st : pool A W) i :
  pl_raised (finish_worker h st i) = pl_raised st.
Proof.
  unfold finish_worker. destruct (pl_tasks st !! i) as [p |]; [| done].
  by destruct (run h p (pl_world st) (pl_trace st)) as [[o w] tr].
Qed.

Lemma collect_step_raised i (st : pool A W) :
  pl_raised st = None → pl_raised (collect_step h phase on_error i st) = None.
Proof.
  intros Hst. rewrite collect_step_eq, Hst.
  destruct (pl_script st); [| done].
  destruct (pl_tasks st !! i) as [p |]; [| done].
  case_bool_decide; [done |].
  destruct (outcome_of p) as [[a | e] |]; [done | | done].
  unfold perform. by destruct (h (Log (on_error i e)) (pl_world st)) as [[] w'].
Qed.

Lemma pool_step_raised (st : pool A W) c :
  pl_raised st = None →
  pl_raised (pool_step h phase max_workers on_error st c) = None.
Proof.
  intros Hst. destruct c; simpl.
  - by rewrite main_step_raised.
  - by rewrite worker_step_raised.
  - by apply collect_step_raised.
Qed.

Lemma fold_left_raised {B} (f : pool A W → B → pool A W) (xs : list B) :
  (∀ st x, pl_raised st = None → pl_raised (f st x) = None) →
  ∀ st, pl_raised st = None → pl_raised (fold_left f xs st) = None.
Proof.
  intros Hf. induction xs as [| x xs IH]; intros st Hst; [done |].
  simpl. by apply IH, Hf.
Qed.

Lemma iter_main_step_raised n (st : pool A W) :
  pl_raised (Nat.iter n (main_step h) st) = pl_raised st.
Proof.
  induction n as [| n IH]; [done |]. simpl. by rewrite main_step_raised.
Qed.

Lemma steps_raised sched script w tr :
  pl_raised (fold_left (pool_step h phase max_workers on_error) sched
               (mk_pool script [] [] w tr None : pool A W)) = None.
Proof. apply fold_left_raised; [apply pool_step_raised | done]. Qed.

(** The main thread comes out of a [with] block without an exception,
    whatever the tasks did and whatever the scheduler chose. *)
Lemma pool_run_raised sched script w tr :
  pl_raised (pool_run h phase max_workers on_error sched script w tr
             : pool A W) = None.
Proof.
  unfold pool_run, drain.
  apply fold_left_raised; [intros; by apply collect_step_raised |].
  apply fold_left_raised; [intros; by rewrite finish_worker_raised |].
  rewrite iter_main_step_raised. apply steps_raised.
Qed.

End PoolCollect.

Section PoolProperties.
Context {A W : Type} (h : handler W).
Context (phase : Phase) (max_workers : nat).
Context (on_error : nat → exn → LogRecord).
Context (P : event → Prop).
Context (script0 : list (MainStep A)) (tr0 : list event).
Hypothesis P_log : ∀ r x, P (Ev (Log r) x).
Hypothesis P_done : ∀ i, P (Done phase i).
Hypothesis P_tasks : Forall (sends P) (submitted script0).

Local Abbreviation inv := (@pool_inv A W phase on_error P script0 tr0).

Lemma submitted_app (s1 s2 : list (MainStep A)) :
  submitted (s1 ++ s2) = submitted s1 ++ submitted s2.
Proof. apply omap_app. Qed.

Lemma logged_app (s1 s2 : list (MainStep A)) :
  logged (s1 ++ s2) = logged s1 ++ logged s2.
Proof. apply omap_app. Qed.

Lemma inv_init w : inv (mk_pool script0 [] [] w tr0 None).
Proof.
  exists [], []. simpl. rewrite app_nil_r. split_and!; try done.
  - intros r Hr. by apply elem_of_nil in Hr.
  - constructor.
  - intros i o Hio. by apply elem_of_nil in Hio.
Qed.

Lemma main_step_inv st : inv st → inv (main_step h st).
Proof.
  intros Hinv. unfold main_step.
  destruct (pl_script st) as [| [record | task] script] eqn:Hs; [done | |];
    destruct Hinv as (consumed & new & Hscript & Htrace & Hlen & Htasks & Hnew
                      & Hlog & Hnodup & Hdone);
    rewrite Hs in Hscript.
  - unfold perform. destruct (h (Log record) (pl_world st)) as [[] w].
    exists (consumed ++ [MLog record]), (new ++ [Ev (Log record) tt]). simpl.
    rewrite submitted_app, logged_app, app_nil_r. simpl.
    split; [by rewrite <- app_assoc |].
    split; [by rewrite Htrace, <- app_assoc |].
    split; [done |]. split; [done |].
    split; [apply Forall_app; split; [done | by repeat constructor] |].
    split.
    { intros r [Hr | ->%list_elem_of_singleton]%elem_of_app;
        apply elem_of_app; [left; by apply Hlog | right; by left]. }
    split; [done |].
    intros i o Hio. destruct (Hdone i o Hio) as (Hp & Hd & He).
    split; [done |]. split; [apply elem_of_app; by left |].
    intros e ->. apply elem_of_app. left. by apply He.
  - exists (consumed ++ [MSubmit task]), new. simpl.
    rewrite submitted_app, logged_app, app_nil_r. simpl.
    split; [by rewrite <- app_assoc |].
    split; [done |].
    split; [by rewrite !length_app, Hlen |].
    split.
    { intros i p Hp.
      apply lookup_app_Some in Hp as [Hp | [Hi Hp]].
      - destruct (Htasks i p Hp) as (Hsend & p0 & Hp0 & Hends).
        split; [done |]. exists p0. split; [| done].
        by apply lookup_app_l_Some.
      - apply list_lookup_singleton_Some in Hp as [Hi0 <-].
        split.
        + rewrite Forall_forall in P_tasks. apply P_tasks.
          rewrite Hscript, submitted_app. apply elem_of_app. right.
          simpl. by left.
        + exists task. split; [| done].
          rewrite lookup_app_r by lia.
          replace (i - length (submitted consumed))%nat with 0%nat by lia.
          done. }
    split; [done |]. split; [done |]. split; [done |].
    intros i o Hio. destruct (Hdone i o Hio) as ((p & Hp & Ho) & Hd & He).
    split; [| done]. exists p. split; [| done].
    by apply lookup_app_l_Some.
Qed.

Lemma worker_step_inv i st : inv st → inv (worker_step h max_workers i st).
Proof.
  intros Hinv. unfold worker_step.
  destruct (pl_tasks st !! i) as [[a | e | q k] |] eqn:Hi; try done.
  destruct (can_run max_workers (pl_tasks st) i); [| done].
  destruct Hinv as (consumed & new & Hscript & Htrace & Hlen & Htasks & Hnew
                    & Hlog & Hnodup & Hdone).
  unfold perform. destruct (h q (pl_world st)) as [x w].
  destruct (Htasks i _ Hi) as (Hsend & p0 & Hp0 & Hends).
  apply sends_Vis_inv in Hsend as [Hq Hk].
  exists consumed, (new ++ [Ev q x]). simpl.
  split; [done |].
  split; [by rewrite Htrace, <- app_assoc |].
  split; [by rewrite length_insert |].
  split.
  { intros j p Hj.
    apply list_lookup_insert_Some in Hj as [(-> & <- & _) | [Hne Hj]].
    - split; [apply Hk |]. exists p0. split; [done |].
      intros o Ho. apply Hends. by econstructor.
    - by apply Htasks. }
  split; [apply Forall_app; split; [done | by repeat constructor] |].
  split; [intros r Hr; apply elem_of_app; left; by apply Hlog |].
  split; [done |].
  intros j o Hjo. destruct (Hdone j o Hjo) as ((p & Hp & Ho) & Hd & He).
  split; [| split; [apply elem_of_app; by left |]].
  - exists p. split; [| done].
    rewrite list_lookup_insert_ne; [done |].
    intros ->. rewrite Hi in Hp. by injection Hp as <-.
  - intros e ->. apply elem_of_app. left. by apply He.
Qed.


Lemma outcome_of_of_res (o : Res A) : outcome_of (of_res o) = Some o.
Proof. by destruct o. Qed.

Lemma collect_step_inv i st : inv st → inv (collect_step h phase on_error i st).
Proof.
  intros Hinv. rewrite collect_step_eq.
  destruct (pl_raised st); [done |].
  destruct (pl_script st) as [| s script] eqn:Hs; [| done].
  destruct (pl_tasks st !! i) as [p |] eqn:Hi; [| done].
  case_bool_decide as Hfresh; [done |].
  destruct (outcome_of p) as [o |] eqn:Ho; [| done].
  destruct Hinv as (consumed & new & Hscript & Htrace & Hlen & Htasks & Hnew
                    & Hlog & Hnodup & Hdone).
  rewrite Hs in Hscript.
  assert (Hnodup' : NoDup ((pl_done st ++ [(i, o)]).*1)).
  { rewrite fmap_app. apply NoDup_app. split; [done |]. split.
    - intros j Hj ->%list_elem_of_singleton. done.
    - apply NoDup_singleton. }
  assert (Hold : ∀ extra j o',
    (j, o') ∈ pl_done st ++ [(i, o)] →
    Done phase i ∈ new ++ Done phase i :: extra →
    (∀ e, o = Raise e → Ev (Log (on_error i e)) tt ∈ new ++ Done phase i :: extra) →
    (∃ p', pl_tasks st !! j = Some p' ∧ outcome_of p' = Some o') ∧
    Done phase j ∈ new ++ Done phase i :: extra ∧
    ∀ e, o' = Raise e → Ev (Log (on_error j e)) tt ∈ new ++ Done phase i :: extra).
  { intros extra j o' [Hjo | [= -> ->]%list_elem_of_singleton]%elem_of_app Hd He.
    - destruct (Hdone j o' Hjo) as (Hp & Hd' & He').
      split; [done |]. split; [apply elem_of_app; by left |].
      intros e ->. apply elem_of_app. left. by apply He'.
    - split; [by exists p |]. done. }
  destruct o as [a | e].
  - exists consumed, (new ++ [Done phase i]). simpl.
    split; [done |]. split; [by rewrite Htrace, <- app_assoc |].
    split; [done |]. split; [done |].
    split; [apply Forall_app; split; [done | by repeat constructor] |].
    split; [intros r Hr; apply elem_of_app; left; by apply Hlog |].
    split; [done |].
    intros j o' Hjo. apply (Hold [] j o' Hjo); [| done].
    apply elem_of_app. right. by left.
  - unfold perform.
    destruct (h (Log (on_error i e)) (pl_world st)) as [[] w].
    exists consumed, (new ++ [Done phase i; Ev (Log (on_error i e)) tt]). simpl.
    split; [done |].
    split; [by rewrite Htrace, <- !app_assoc |].
    split; [done |]. split; [done |].
    split; [apply Forall_app; split; [done | by repeat constructor] |].
    split; [intros r Hr; apply elem_of_app; left; by apply Hlog |].
    split; [done |].
    intros j o' Hjo. apply (Hold [_] j o' Hjo).
    + apply elem_of_app. right. by left.
    + intros e' [= <-]. apply elem_of_app. right. right. by left.
Qed.

Lemma finish_worker_inv st i : inv st → inv (finish_worker h st i).
Proof.
  intros Hinv. unfold finish_worker.
  destruct (pl_tasks st !! i) as [p |] eqn:Hi; [| done].
  destruct Hinv as (consumed & new & Hscript & Htrace & Hlen & Htasks & Hnew
                    & Hlog & Hnodup & Hdone).
  destruct (Htasks i p Hi) as (Hsend & p0 & Hp0 & Hends).
  pose proof (run_ends h p (pl_world st) (pl_trace st)) as Hend.
  pose proof (run_sends h P p (pl_world st) Hsend) as Hsent.
  rewrite run_trace in Hend |- *.
  destruct (run h p (pl_world st) []) as [[o w] tr] eqn:Hrun. simpl in *.
  exists consumed, (new ++ tr). simpl.
  split; [done |]. split; [by rewrite Htrace, <- app_assoc |].
  split; [by rewrite length_insert |].
  split.
  { intros j p' Hj.
    apply list_lookup_insert_Some in Hj as [(-> & <- & _) | [Hne Hj]].
    - split; [apply sends_of_res |]. exists p0. split; [done |].
      intros o' ->%ends_of_res. by apply Hends.
    - by apply Htasks. }
  split; [by apply Forall_app |].
  split; [intros r Hr; apply elem_of_app; left; by apply Hlog |].
  split; [done |].
  intros j o' Hjo. destruct (Hdone j o' Hjo) as ((p' & Hp' & Ho') & Hd & He).
  split; [| split; [apply elem_of_app; by left |]].
  - destruct (decide (i = j)) as [-> | Hne].
    + rewrite Hi in Hp'. injection Hp' as <-.
      rewrite (run_finished h p o' _ _ Ho') in Hrun. injection Hrun as <- _ _.
      exists (of_res o'). split; [| apply outcome_of_of_res].
      apply list_lookup_insert_eq. by apply lookup_lt_Some in Hi.
    + exists p'. split; [| done]. by rewrite list_lookup_insert_ne.
  - intros e ->. apply elem_of_app. left. by apply He.
Qed.

(** The invariant holds all along a run of the pool. *)
Lemma pool_step_inv st c : inv st → inv (pool_step h phase max_workers on_error st c).
Proof.
  destruct c; simpl;
    [apply main_step_inv | apply worker_step_inv | apply collect_step_inv].
Qed.

Lemma fold_left_inv {B} (f : pool A W → B → pool A W) (xs : list B) :
  (∀ st x, inv st → inv (f st x)) →
  ∀ st, inv st → inv (fold_left f xs st).
Proof.
  intros Hf. induction xs as [| x xs IH]; intros st Hst; [done |].
  simpl. by apply IH, Hf.
Qed.

Lemma iter_main_step_inv n st : inv st → inv (Nat.iter n (main_step h) st).
Proof.
  intros Hst. induction n as [| n IH]; [done |].
  simpl. by apply main_step_inv.
Qed.

Lemma drain_inv st : inv st → inv (drain h phase on_error st).
Proof.
  intros Hst. unfold drain.
  apply fold_left_inv; [intros; by apply collect_step_inv |].
  apply fold_left_inv; [intros; by apply finish_worker_inv |].
  by apply iter_main_step_inv.
Qed.

Lemma pool_run_inv sched w :
  inv (pool_run h phase max_workers on_error sched script0 w tr0).
Proof.
  unfold pool_run. apply drain_inv.
  apply fold_left_inv; [intros; by apply pool_step_inv |].
  apply inv_init.
Qed.

End PoolProperties.

Section PoolProgress.
Context {A W : Type} (h : handler W).
Context (phase : Phase) (on_error : nat → exn → LogRecord).

Lemma main_step_script (st : pool A W) :
  length (pl_script (main_step h st)) = (length (pl_script st) - 1)%nat.
Proof.
  unfold main_step. destruct (pl_script st) as [| [record | task] script] eqn:Hs.
  - by rewrite Hs.
  - unfold perform. destruct (h (Log record) (pl_world st)) as [[] w].
    simpl. lia.
  - simpl. lia.
Qed.

Lemma iter_main_step_script n (st : pool A W) :
  length (pl_script (Nat.iter n (main_step h) st)) =
    (length (pl_script st) - n)%nat.
Proof.
  induction n as [| n IH]; simpl; [lia |].
  rewrite main_step_script, IH. lia.
Qed.

Lemma finish_worker_script (st : pool A W) i :
  pl_script (finish_worker h st i) = pl_script st.
Proof.
  unfold finish_worker. destruct (pl_tasks st !! i) as [p |]; [| done].
  by destruct (run h p (pl_world st) (pl_trace st)) as [[o w] tr].
Qed.

Lemma finish_worker_length (st : pool A W) i :
  length (pl_tasks (finish_worker h st i)) = length (pl_tasks st).
Proof.
  unfold finish_worker. destruct (pl_tasks st !! i) as [p |]; [| done].
  destruct (run h p (pl_world st) (pl_trace st)) as [[o w] tr]. simpl.
  apply length_insert.
Qed.

Lemma finish_worker_over (st : pool A W) i j :
  (i = j ∧ (j < length (pl_tasks st))%nat) ∨ task_over st j →
  task_over (finish_worker h st i) j.
Proof.
  unfold finish_worker, task_over. intros Hj.
  destruct (pl_tasks st !! i) as [p |] eqn:Hi.
  - destruct (run h p (pl_world st) (pl_trace st)) as [[o w] tr] eqn:Hrun. simpl.
    destruct (decide (i = j)) as [<- | Hne].
    + exists (of_res o), o. split; [| by destruct o].
      apply list_lookup_insert_eq. by apply lookup_lt_Some in Hi.
    + destruct Hj as [[? _] | (p' & o' & Hp' & Ho')]; [done |].
      exists p', o'. by rewrite list_lookup_insert_ne.
  - destruct Hj as [[<- Hlt] | Hj]; [| done].
    apply lookup_lt_is_Some_2 in Hlt as [p Hp]. congruence.
Qed.

Lemma fold_finish_worker (xs : list nat) : ∀ (st : pool A W),
  pl_script (fold_left (finish_worker h) xs st) = pl_script st ∧
  length (pl_tasks (fold_left (finish_worker h) xs st)) = length (pl_tasks st) ∧
  ∀ j, (j ∈ xs ∧ (j < length (pl_tasks st))%nat) ∨ task_over st j →
       task_over (fold_left (finish_worker h) xs st) j.
Proof.
  induction xs as [| x xs IH]; intros st; simpl.
  { split; [done |]. split; [done |].
    intros j [[Hj _] | Hj]; [by apply elem_of_nil in Hj | done]. }
  destruct (IH (finish_worker h st x)) as (Hs & Hl & Hover).
  rewrite Hs, Hl, finish_worker_script, finish_worker_length.
  split; [done |]. split; [done |].
  intros j Hj. apply Hover.
  rewrite finish_worker_length.
  destruct Hj as [[[-> | Hj]%elem_of_cons Hlt] | Hj].
  - right. apply finish_worker_over. by left.
  - by left.
  - right. apply finish_worker_over. by right.
Qed.

Lemma collect_step_keeps (st : pool A W) i :
  pl_raised st = None →
  pl_script st = [] →
  pl_script (collect_step h phase on_error i st) = [] ∧
  pl_tasks (collect_step h phase on_error i st) = pl_tasks st ∧
  (∀ j, j ∈ (pl_done st).*1 ∨ (j = i ∧ task_over st i) →
        j ∈ (pl_done (collect_step h phase on_error i st)).*1).
Proof.
  intros Hraised Hs. rewrite collect_step_eq. unfold task_over.
  rewrite Hraised, Hs.
  destruct (pl_tasks st !! i) as [p |] eqn:Hi.
  2:{ split; [done |]. split; [done |].
      intros j [Hj | [_ (p & o & Hp & _)]]; [done | congruence]. }
  case_bool_decide as Hin.
  { split; [done |]. split; [done |]. by intros j [Hj | [-> _]]. }
  destruct (outcome_of p) as [[a | e] |] eqn:Ho.
  - simpl. split; [done |]. split; [done |].
    intros j Hj. rewrite fmap_app. apply elem_of_app.
    destruct Hj as [Hj | [-> _]]; [by left | right; by left].
  - unfold perform.
    destruct (h (Log (on_error i e)) (pl_world st)) as [[] w]. simpl.
    split; [done |]. split; [done |].
    intros j Hj. rewrite fmap_app. apply elem_of_app.
    destruct Hj as [Hj | [-> _]]; [by left | right; by left].
  - split; [done |]. split; [done |].
    intros j [Hj | [_ (p' & o & Hp' & Ho')]]; [done | congruence].
Qed.

Lemma fold_collect_step (xs : list nat) : ∀ (st : pool A W),
  pl_raised st = None →
  pl_script st = [] →
  (∀ j, j ∈ xs → task_over st j) →
  ∀ j, j ∈ (pl_done st).*1 ∨ j ∈ xs →
       j ∈ (pl_done (fold_left (λ s i, collect_step h phase on_error i s) xs st)).*1.
Proof.
  induction xs as [| x xs IH]; intros st Hraised Hs Hover j Hj; simpl.
  { destruct Hj as [Hj | Hj]; [done | by apply elem_of_nil in Hj]. }
  destruct (collect_step_keeps st x Hraised Hs) as (Hs' & Ht' & Hd').
  apply IH; [by apply collect_step_raised | done | |].
  - intros i Hi. unfold task_over. rewrite Ht'. apply Hover. by right.
  - destruct Hj as [Hj | [-> | Hj]%elem_of_cons].
    + left. apply Hd'. by left.
    + left. apply Hd'. right. split; [done |]. apply Hover. by left.
    + by right.
Qed.

(** When the pool is left, the script is over and every task submitted has
    been collected. *)
Lemma drain_collects (st : pool A W) :
  pl_raised st = None →
  pl_script (drain h phase on_error st) = [] ∧
  ∀ j, (j < length (pl_tasks (drain h phase on_error st)))%nat →
       j ∈ (pl_done (drain h phase on_error st)).*1.
Proof.
  intros Hraised. unfold drain.
  set (st1 := Nat.iter (length (pl_script st)) (main_step h) st).
  assert (Hs1 : pl_script st1 = []).
  { apply nil_length_inv. unfold st1. rewrite iter_main_step_script. lia. }
  assert (Hr1 : pl_raised st1 = None).
  { unfold st1. by rewrite iter_main_step_raised. }
  destruct (fold_finish_worker (seq 0 (length (pl_tasks st1))) st1)
    as (Hs2 & Hl2 & Hover).
  set (st2 := fold_left (finish_worker h) (seq 0 (length (pl_tasks st1))) st1) in *.
  rewrite Hs1 in Hs2.
  assert (Hall : ∀ j, j ∈ seq 0 (length (pl_tasks st1)) → task_over st2 j).
  { intros j Hj. apply Hover. left. split; [done |].
    apply elem_of_seq in Hj. lia. }
  assert (Hr2 : pl_raised st2 = None).
  { unfold st2. apply (fold_left_raised (λ s i, finish_worker h s i));
      [intros; by rewrite finish_worker_raised | done]. }
  pose proof (fold_collect_step (seq 0 (length (pl_tasks st1))) st2 Hr2 Hs2 Hall)
    as Hdone.
  assert (Hkeep : ∀ xs (s : pool A W), pl_raised s = None → pl_script s = [] →
    pl_script (fold_left (λ s i, collect_step h phase on_error i s) xs s) = [] ∧
    pl_tasks (fold_left (λ s i, collect_step h phase on_error i s) xs s) =
      pl_tasks s).
  { induction xs as [| x xs IH]; intros s Hr Hs; [done |]. simpl.
    destruct (collect_step_keeps s x Hr Hs) as (Hs' & Ht' & _).
    destruct (IH _ (collect_step_raised h phase on_error x s Hr) Hs')
      as [-> ->]. done. }
  destruct (Hkeep (seq 0 (length (pl_tasks st1))) st2 Hr2 Hs2) as [Hs3 Ht3].
  split; [done |].
  intros j Hj. apply Hdone. right. apply elem_of_seq.
  rewrite Ht3, Hl2 in Hj. lia.
Qed.

End PoolProgress.

Section PoolRun.
Context {A W : Type} (h : handler W).
Context (phase : Phase) (max_workers : nat).
Context (on_error : nat → exn → LogRecord).
Context (P : event → Prop).
Context (script0 : list (MainStep A)) (tr0 : list event).
Hypothesis P_log : ∀ r x, P (Ev (Log r) x).
Hypothesis P_done : ∀ i, P (Done phase i).
Hypothesis P_tasks : Forall (sends P) (submitted script0).

(** A run of a pool, whatever the scheduler does: every task submitted is
    collected exactly once, with an outcome the task can end with; the
    trace grows by events the script and the tasks can cause; every record
    of the script is logged, every future has its [Done] event, and every
    future that raised has its log line. *)
Lemma pool_run_spec sched w :
  ∃ new,
    pl_trace (pool_run h phase max_workers on_error sched script0 w tr0) =
      tr0 ++ new ∧
    Forall P new ∧
    (pl_done (pool_run h phase max_workers on_error sched script0 w tr0)).*1
      ≡ₚ seq 0 (length (submitted script0)) ∧
    (∀ r, r ∈ logged script0 → Ev (Log r) tt ∈ new) ∧
    (∀ i o,
       (i, o) ∈ pl_done (pool_run h phase max_workers on_error sched script0 w tr0) →
       (∃ p0, submitted script0 !! i = Some p0 ∧ ends p0 o) ∧
       Done phase i ∈ new ∧
       ∀ e, o = Raise e → Ev (Log (on_error i e)) tt ∈ new).
Proof.
  destruct (pool_run_inv h phase max_workers on_error P script0 tr0
              P_log P_done P_tasks sched w)
    as (consumed & new & Hscript & Htrace & Hlen & Htasks & Hnew & Hlog
        & Hnodup & Hdone).
  unfold pool_run in *.
  set (st0 := fold_left _ sched _) in *.
  destruct (drain_collects h phase on_error st0
              (steps_raised h phase max_workers on_error sched script0 w tr0))
    as [Hs Hall].
  set (st := drain h phase on_error st0) in *.
  rewrite Hs, app_nil_r in Hscript. subst consumed.
  exists new. split; [done |]. split; [done |]. split.
  { apply NoDup_Permutation; [done | apply NoDup_seq |].
    intros i. rewrite elem_of_seq. split.
    - intros ([i' o] & -> & Hio)%list_elem_of_fmap. simpl.
      destruct (Hdone _ _ Hio) as ((p & Hp & _) & _).
      apply lookup_lt_Some in Hp. lia.
    - intros [_ Hi]. apply Hall. lia. }
  split; [done |].
  intros i o Hio. destruct (Hdone i o Hio) as ((p & Hp & Ho) & Hd & He).
  split; [| done].
  destruct (Htasks i p Hp) as (_ & p0 & Hp0 & Hends).
  exists p0. split; [done |]. by apply Hends, outcome_of_ends.
Qed.

End PoolRun.

(** ** The handler *)

Lemma sends_for_each_in {A} (P : event → Prop) (xs : list A) body :
  (∀ x, x ∈ xs → sends P (body x)) → sends P (for_each xs body).
Proof.
  induction xs as [| x xs IH]; intros Hbody; [constructor |].
  simpl. apply sends_bind; [apply Hbody; by left |].
  intros _. apply IH. intros y Hy. apply Hbody. by right.
Qed.

Lemma sends_exponential_backoff (P : event → Prop) func kwargs :
  (∀ x, P (Ev (ApiCall (func_self func) (func_name func) kwargs) x)) →
  (∀ x, P (Ev RandomUniform x)) →
  (∀ s x, P (Ev (Sleep s) x)) →
  (∀ r x, P (Ev (Log r) x)) →
  sends P (exponential_backoff func kwargs).
Proof.
  intros Hcall Hrand Hsleep Hlog. unfold exponential_backoff.
  induction (seq 0 max_retries) as [| attempt rest IH]; [constructor |].
  cbn [backoff_loop]. unfold mbind, prog_bind.
  apply sends_bind; [| intros [r |]; [constructor | done]].
  unfold backoff_attempt, call, random_uniform, logger, time_sleep.
  unfold mbind, prog_bind. apply sends_catch.
  - apply sends_bind; [| constructor].
    constructor; [done |]. apply sends_of_res.
  - intros e. destruct (attempt <? max_retries - 1)%nat.
    + constructor; [done |]. intros jitter.
      constructor; [done |]. intros _.
      constructor; [done |]. intros _. constructor.
    + constructor; [done |]. intros _. constructor.
Qed.

Lemma sends_batch (P : event → Prop) func ids :
  (∀ chunk x, chunk ∈ chunks ids →
     P (Ev (ApiCall (func_self func) (func_name func) (kwargs_of chunk)) x)) →
  (∀ x, P (Ev RandomUniform x)) →
  (∀ s x, P (Ev (Sleep s) x)) →
  (∀ r x, P (Ev (Log r) x)) →
  sends P (batch func ids).
Proof.
  intros Hcall Hrand Hsleep Hlog. rewrite batch_chunks.
  apply sends_for_each_in. intros chunk Hchunk.
  unfold mbind, prog_bind. apply sends_bind; [| constructor].
  apply sends_exponential_backoff; auto.
Qed.

Section HandlerProperties.
Context `{!Croniter}.
Context {W : Type} (h : handler W).

Lemma sends_process_region (P : event → Prop) region current_time :
  (∀ r x, P (Ev (Boto3Client r) x)) →
  (∀ c x, P (Ev (Paginate c) x)) →
  sends P (process_region region current_time).
Proof.
  intros Hclient Hpages.
  unfold process_region, get_instances_in_region, boto3_client, paginate.
  unfold mbind, prog_bind. apply sends_bind.
  - apply sends_bind.
    + apply sends_bind; [| constructor].
      constructor; [done |]. apply sends_of_res.
    + intros ec2_client. apply sends_bind; [| constructor].
      constructor; [done |]. apply sends_of_res.
  - intros [instances ec2_client]. rewrite process_instances_ret. constructor.
Qed.

Lemma ends_process_region region current_time o :
  ends (process_region region current_time) o →
  match o with
  | Ok result =>
      ∃ instances,
        result = (decided start instances current_time,
                  decided stop instances current_time,
                  mk_client region,
                  reasons instances current_time)
  | Raise _ => True
  end.
Proof.
  unfold process_region, get_instances_in_region, boto3_client, paginate.
  simpl. intros [[u | e] Hends]%ends_Vis_inv; simpl in Hends.
  - apply ends_Vis_inv in Hends as [[pages | e] Hends]; simpl in Hends.
    + rewrite process_instances_ret in Hends. simpl in Hends.
      inversion Hends; subst. eauto.
    + by inversion Hends.
  - by inversion Hends.
Qed.


Lemma submitted_evaluate_script regions current_time :
  submitted (evaluate_script regions current_time) =
    (λ region, process_region region current_time) <$> regions.
Proof.
  unfold evaluate_script, submitted.
  induction regions as [| region regions IH]; [done |].
  simpl. f_equal. apply IH.
Qed.

Lemma logged_evaluate_script regions current_time :
  logged (evaluate_script regions current_time) = [].
Proof.
  unfold evaluate_script, logged.
  induction regions as [| region regions IH]; [done |]. simpl. apply IH.
Qed.

Lemma read_get_all_regions w :
  Forall read_event (run h get_all_regions w []).2.
Proof.
  apply run_sends. unfold get_all_regions, boto3_client, describe_regions.
  unfold mbind, prog_bind. apply sends_bind.
  - apply sends_bind; [| constructor].
    constructor; [done |]. apply sends_of_res.
  - intros client. apply sends_bind; [| constructor].
    constructor; [done |]. apply sends_of_res.
Qed.

Lemma read_evaluate_script regions current_time :
  Forall (sends read_event) (submitted (evaluate_script regions current_time)).
Proof.
  rewrite submitted_evaluate_script, Forall_fmap.
  apply Forall_forall. intros region _. simpl.
  by apply sends_process_region.
Qed.

Lemma elem_of_allowed_calls results start_ids stop_ids ec2_client messages chunk :
  (start_ids, stop_ids, ec2_client, messages) ∈ results →
  (chunk ∈ chunks start_ids →
     (start_instances ec2_client, kwargs_of chunk) ∈ allowed_calls results) ∧
  (chunk ∈ chunks stop_ids →
     (stop_instances ec2_client, kwargs_of chunk) ∈ allowed_calls results).
Proof.
  intros Hres. unfold allowed_calls.
  split; intros Hchunk; apply list_elem_of_In, in_flat_map;
    exists (start_ids, stop_ids, ec2_client, messages);
    (split; [by apply list_elem_of_In |]);
    apply list_elem_of_In, elem_of_app; [left | right];
    apply list_elem_of_fmap; by exists chunk.
Qed.

Lemma write_mutate_script results :
  Forall (sends (write_event results)) (submitted (mutate_script results)).
Proof.
  apply Forall_forall. intros task.
  unfold submitted, mutate_script.
  intros (s & Hs & Htask)%list_elem_of_omap.
  apply list_elem_of_In, in_flat_map in Hs as ([[[start_ids stop_ids] ec2_client] messages] & Hres & Hs).
  apply list_elem_of_In in Hres, Hs.
  unfold mutate_steps in Hs.
  apply elem_of_app in Hs as [Hs | Hs].
  { apply list_elem_of_fmap in Hs as (message & -> & _). done. }
  assert (Hbatch : ∀ func ids,
    (∀ chunk, chunk ∈ chunks ids → (func, kwargs_of chunk) ∈ allowed_calls results) →
    sends (write_event results) (batch func ids)).
  { intros [client name] ids Hallowed.
    apply sends_batch; try done.
    intros chunk x Hchunk. repeat split. unfold call_among. simpl.
    by apply Hallowed. }
  apply elem_of_app in Hs as [Hs | Hs]; case_decide; try (by apply elem_of_nil in Hs);
    apply list_elem_of_singleton in Hs as ->; injection Htask as <-;
    apply Hbatch; intros chunk Hchunk;
    by apply (elem_of_allowed_calls results start_ids stop_ids ec2_client messages chunk).
Qed.


Lemma run_discover w :
  run h discover w [] =
    match run h get_all_regions w [] with
    | (Ok regions, w1, tr1) =>
        (Ok (regions, (h DatetimeNow w1).1), (h DatetimeNow w1).2,
         tr1 ++ [Ev DatetimeNow (h DatetimeNow w1).1])
    | (Raise e, w1, tr1) => (Raise e, w1, tr1)
    end.
Proof.
  unfold discover, mbind, prog_bind. rewrite run_bind.
  destruct (run h get_all_regions w []) as [[[regions | e] w1] tr1]; [| done].
  simpl. unfold perform. by destruct (h DatetimeNow w1) as [t w2].
Qed.

(** A run of the handler after a successful discovery: the trace is the
    discovery, the clock read, what the first pool caused and what the
    second pool caused. *)
Lemma lambda_handler_ok sched1 sched2 w regions :
  (run h get_all_regions w []).1.1 = Ok regions →
  ∃ t new1 new2,
    rp_result (lambda_handler h sched1 sched2 w) = Ok tt ∧
    rp_trace (lambda_handler h sched1 sched2 w) =
      (run h get_all_regions w []).2 ++ [Ev DatetimeNow t] ++ new1 ++ new2 ∧
    Forall read_event new1 ∧
    Forall (write_event (results_of (rp_regions (lambda_handler h sched1 sched2 w))))
      new2 ∧
    (rp_regions (lambda_handler h sched1 sched2 w)).*1
      ≡ₚ seq 0 (length regions) ∧
    (∀ i o, (i, o) ∈ rp_regions (lambda_handler h sched1 sched2 w) →
       (∃ region, regions !! i = Some region ∧
          ends (process_region region t) o) ∧
       Done Evaluate i ∈ new1 ∧
       ∀ e, o = Raise e → Ev (Log (region_error regions i e)) tt ∈ new1) ∧
    (rp_batches (lambda_handler h sched1 sched2 w)).*1
      ≡ₚ seq 0 (length (submitted (mutate_script
           (results_of (rp_regions (lambda_handler h sched1 sched2 w)))))) ∧
    (∀ j o, (j, o) ∈ rp_batches (lambda_handler h sched1 sched2 w) →
       Done Mutate j ∈ new2 ∧
       ∀ e, o = Raise e → Ev (Log (ErrorBatchOperation e)) tt ∈ new2).
Proof.
  intros Hregions. unfold lambda_handler. rewrite run_discover.
  destruct (run h get_all_regions w []) as [[[regions' | e] w1] tr1];
    simpl in Hregions; [| done].
  injection Hregions as ->.
  destruct (h DatetimeNow w1) as [t w2]. cbn [fst snd].
  rewrite !pool_run_raised.
  destruct (pool_run_spec h Evaluate 10 (region_error regions) read_event
              (evaluate_script regions t) (tr1 ++ [Ev DatetimeNow t])
              ltac:(done) ltac:(done) (read_evaluate_script regions t)
              sched1 w2)
    as (new1 & Htr1 & Hnew1 & Hperm1 & _ & Hdone1).
  set (pool1 := pool_run h Evaluate 10 _ sched1 _ w2 _) in *.
  destruct (pool_run_spec h Mutate 20 batch_error
              (write_event (results_of (pl_done pool1)))
              (mutate_script (results_of (pl_done pool1))) (pl_trace pool1)
              ltac:(done) ltac:(done) (write_mutate_script _)
              sched2 (pl_world pool1))
    as (new2 & Htr2 & Hnew2 & Hperm2 & _ & Hdone2).
  set (pool2 := pool_run h Mutate 20 _ sched2 _ _ _) in *.
  exists t, new1, new2. simpl.
  split; [done |].
  split; [by rewrite Htr2, Htr1, <- !app_assoc |].
  split; [done |]. split; [done |].
  split; [by rewrite submitted_evaluate_script, length_fmap in Hperm1 |].
  split.
  { intros i o Hio. destruct (Hdone1 i o Hio) as ((p0 & Hp0 & Hends) & Hd & He).
    split; [| done].
    rewrite submitted_evaluate_script, list_lookup_fmap in Hp0.
    destruct (regions !! i) as [region |]; [| done].
    injection Hp0 as <-. by exists region. }
  split; [done |].
  intros j o Hjo. destruct (Hdone2 j o Hjo) as (_ & Hd & He). done.
Qed.


Lemma api_call_of_none ev : is_api_call ev = false → api_call_of ev = None.
Proof. destruct ev as [[] x |]; simpl; done. Qed.

Lemma clock_reads_none tr :
  Forall (λ ev, is_now ev = false) tr → clock_reads tr = [].
Proof.
  unfold clock_reads. induction 1 as [| ev tr Hev _ IH]; [done |].
  destruct ev as [[] x |]; simpl in *; try done; exact IH.
Qed.

Lemma elem_of_results_of (done : list (nat * Res RegionResult)) result :
  result ∈ results_of done ↔ ∃ i, (i, Ok result) ∈ done.
Proof.
  unfold results_of. rewrite list_elem_of_omap. split.
  - intros ([i [r | e]] & Hd & Hr); simpl in Hr; [| done].
    injection Hr as ->. by exists i.
  - intros [i Hi]. by exists (i, Ok result).
Qed.

(** C9: the trace of a run splits in two: the first part holds every
    request of the region workers and the [Done] event of every region's
    future, one per region, and no call of a boto3 method; the second
    part holds the calls, and no worker request and no region future. *)
Theorem lambda_handler_reads_before_writes :
  ∀ (sched1 sched2 : list Choice) (w : W),
    ∃ reads writes,
      rp_trace (lambda_handler h sched1 sched2 w) = reads ++ writes ∧
      Forall (λ ev, is_api_call ev = false) reads ∧
      Forall (λ ev, is_worker_request ev = false ∧ is_done Evaluate ev = false)
        writes ∧
      (∀ i o,
         (i, o) ∈ rp_regions (lambda_handler h sched1 sched2 w) →
         Done Evaluate i ∈ reads) ∧
      (∀ regions,
         (run h get_all_regions w []).1.1 = Ok regions →
         (rp_regions (lambda_handler h sched1 sched2 w)).*1
           ≡ₚ seq 0 (length regions)).
Proof.
  intros sched1 sched2 w.
  pose proof (read_get_all_regions w) as Hread0.
  destruct ((run h get_all_regions w []).1.1) as [regions | e] eqn:Hd.
  - destruct (lambda_handler_ok sched1 sched2 w regions Hd)
      as (t & new1 & new2 & Hres & Htr & Hnew1 & Hnew2 & Hperm1 & Hdone1 & _).
    exists ((run h get_all_regions w []).2 ++ [Ev DatetimeNow t] ++ new1), new2.
    split; [by rewrite Htr, <- !app_assoc |]. split.
    { rewrite !Forall_app. split; [| split].
      - eapply Forall_impl; [exact Hread0 |]. by intros ev [? _].
      - by repeat constructor.
      - eapply Forall_impl; [exact Hnew1 |]. by intros ev [? _]. }
    split.
    { eapply Forall_impl; [exact Hnew2 |]. by intros ev (? & ? & _). }
    split.
    { intros i o Hio. destruct (Hdone1 _ _ Hio) as (_ & Hdn & _).
      rewrite !elem_of_app. right. by right. }
    intros regions' [= <-]. done.
  - exists (rp_trace (lambda_handler h sched1 sched2 w)), [].
    unfold lambda_handler. rewrite run_discover.
    destruct (run h get_all_regions w []) as [[[regions | e'] w1] tr1];
      simpl in *; [done |].
    split; [by rewrite app_nil_r |]. split.
    { eapply Forall_impl; [exact Hread0 |]. by intros ev [? _]. }
    split; [constructor |]. split; [| done].
    intros i o Hio. by apply elem_of_nil in Hio.
Qed.

End HandlerProperties.

(** The same run, computed: the second region fails and is logged, the
    other two are acted on, the throttled call is retried, and the handler
    returns. *)
Example lambda_handler_fleet :
  rp_result (@lambda_handler scenario_croniter sim sim_handler
               round_robin [RunMain; RunMain; RunWorker 1] fleet) = Ok tt ∧
  successes
    (rp_trace (@lambda_handler scenario_croniter sim sim_handler
                 round_robin [RunMain; RunMain; RunWorker 1] fleet)) =
    [(stop_instances (mk_client "ap-south-1"), kwargs_of ["i-f"]);
     (start_instances (mk_client "us-east-1"), kwargs_of ["i-a"; "i-e"]);
     (stop_instances (mk_client "us-east-1"), kwargs_of ["i-b"])]%string ∧
  clock_reads
    (rp_trace (@lambda_handler scenario_croniter sim sim_handler
                 round_robin [RunMain; RunMain; RunWorker 1] fleet)) =
    [fleet_clock 2] ∧
  head (log_lines
    (rp_trace (@lambda_handler scenario_croniter sim sim_handler
                 round_robin [RunMain; RunMain; RunWorker 1] fleet))) =
    Some (ErrorProcessingRegion "eu-west-1" (Exception "AuthFailure")).
Proof. by vm_compute. Qed.

(** Discovery fails: the handler raises the same exception and does
    nothing else. *)
Example lambda_handler_no_regions :
  rp_result (@lambda_handler scenario_croniter sim sim_handler [] []
               (mk_sim (Raise (Exception "UnauthorizedOperation"))
                  fleet_pages [] fleet_clock 0)) =
    Raise (Exception "UnauthorizedOperation").
Proof. reflexivity. Qed.

(** * Further properties of the script *)

(** ** The tag dictionary and the policy evaluator *)

Lemma tags_dict_snoc tags tag :
  tags_dict (tags ++ [tag]) = <[Key tag := Value tag]> (tags_dict tags).
Proof. unfold tags_dict. by rewrite fold_left_app. Qed.

(** X1: the dictionary built from the tag list answers a key with the
    value of the last tag that has this key, and with nothing when no tag
    has it: of two tags with the same key the later one wins. *)
Theorem tags_dict_last_wins :
  ∀ (tags : list Tag) (key : string),
    tags_dict tags !! key =
      Value <$> last (filter (λ tag, Key tag = key) tags).
Proof.
  intros tags key. induction tags as [| tag tags IH] using rev_ind; [done |].
  rewrite tags_dict_snoc, filter_app.
  destruct (decide (Key tag = key)) as [Hkey | Hkey].
  - rewrite filter_cons_True, filter_nil by done.
    rewrite last_snoc. simpl. rewrite <- Hkey. apply lookup_insert_eq.
  - rewrite filter_cons_False, filter_nil, app_nil_r by done.
    by rewrite lookup_insert_ne.
Qed.

(** X2: an instance whose schedule flag is off, or whose expression is
    missing or empty, is decided without croniter: whatever the library
    would answer, or raise, the decision and its reason are the same. *)
Theorem evaluate_instance_without_croniter :
  ∀ (C1 C2 : Croniter) (instance : Instance) (current_time : datetime),
    not_scheduled (tags_of instance !! "WorksOnSchedule") = true ∨
    no_expression (tags_of instance !! "WorkingExpression") = true →
    @evaluate_instance C1 instance current_time =
    @evaluate_instance C2 instance current_time.
Proof.
  intros C1 C2 instance current_time Hoff. unfold evaluate_instance.
  destruct (not_scheduled (tags_of instance !! "WorksOnSchedule")); [done |].
  destruct Hoff as [? | Hno]; [done |].
  destruct (tags_of instance !! "WorkingExpression") as [expression |];
    [| done].
  simpl in Hno. by rewrite Hno.
Qed.

(** An instance without tags, under a croniter that always raises. *)
Lemma evaluate_instance_without_croniter_witness :
  @evaluate_instance scenario_croniter (mk_instance "i-0" None) march_5th =
  @evaluate_instance
    {| croniter_is_valid := λ _, Raise (Exception "down");
       croniter_match := λ _ _, Raise (Exception "down") |}
    (mk_instance "i-0" None) march_5th.
Proof.
  apply evaluate_instance_without_croniter. left. reflexivity.
Defined.

Section EvaluateConverse.
Context `{!Croniter}.

(** X3: the evaluator moves the power state only on an unambiguous
    answer: whenever it decides start or stop, the schedule flag is a
    spelling of "true", the expression is there and not empty, croniter
    accepted it, and the match test returned, with True for start and
    False for stop. *)
Theorem evaluate_instance_acts_only_on_match :
  ∀ (instance : Instance) (current_time : datetime)
    (action : Action) (reason : string),
    evaluate_instance instance current_time = Ok (Some action, reason) →
    ∃ v expression,
      tags_of instance !! "WorksOnSchedule" = Some v ∧ spelled_true v ∧
      tags_of instance !! "WorkingExpression" = Some expression ∧
      expression ≠ ""%string ∧
      croniter_is_valid expression = Ok true ∧
      croniter_match expression current_time =
        Ok (bool_decide (action = start)).
Proof.
  intros instance current_time action reason. unfold evaluate_instance.
  destruct (not_scheduled (tags_of instance !! "WorksOnSchedule")) eqn:Hflag;
    [done |].
  apply not_scheduled_false in Hflag as (v & Hv & Htrue).
  destruct (tags_of instance !! "WorkingExpression") as [expression |];
    [| done].
  destruct (String.eqb_spec expression ""); [done |].
  unfold evaluate_cron.
  destruct (croniter_is_valid expression) as [[] |] eqn:Hvalid; simpl;
    [| done | done].
  destruct (croniter_match expression current_time) as [[] |] eqn:Hmatch;
    simpl; intros [= <- _]; by exists v, expression.
Qed.

(** X4: whatever the decision, its reason names the instance. *)
Theorem evaluate_instance_reason_names_instance :
  ∀ (instance : Instance) (current_time : datetime)
    (action : option Action) (reason : string),
    evaluate_instance instance current_time = Ok (action, reason) →
    contains reason (InstanceId instance).
Proof.
  intros instance current_time action reason Heval.
  assert (Hmid : ∀ pre post : string,
    contains (pre ++ InstanceId instance ++ post) (InstanceId instance))
    by (intros pre post; by exists pre, post).
  revert Heval. unfold evaluate_instance.
  destruct (not_scheduled _); [intros [= _ <-]; apply Hmid |].
  destruct (tags_of instance !! "WorkingExpression") as [expression |];
    [| intros [= _ <-]; apply Hmid].
  destruct (String.eqb expression ""); [intros [= _ <-]; apply Hmid |].
  unfold evaluate_cron.
  destruct (croniter_is_valid expression) as [[] |]; simpl;
    [| intros [= _ <-]; apply Hmid | intros [= _ <-]; apply Hmid].
  destruct (croniter_match expression current_time) as [[] |]; simpl;
    intros [= _ <-]; apply Hmid.
Qed.

End EvaluateConverse.

(** The first scenario instance: started, by a match that returned True. *)
Lemma evaluate_instance_acts_only_on_match_witness :
  ∃ v expression,
    tags_of (tagged "i-0a1" "true" "* * * * *") !! "WorksOnSchedule" = Some v ∧
    spelled_true v ∧
    tags_of (tagged "i-0a1" "true" "* * * * *") !! "WorkingExpression"
      = Some expression ∧
    expression ≠ ""%string ∧
    @croniter_is_valid scenario_croniter expression = Ok true ∧
    @croniter_match scenario_croniter expression march_5th =
      Ok (bool_decide (start = start)).
Proof.
  apply (@evaluate_instance_acts_only_on_match scenario_croniter
           (tagged "i-0a1" "true" "* * * * *") march_5th start
           (msg_start "i-0a1")).
  reflexivity.
Defined.

Lemma evaluate_instance_reason_names_instance_witness :
  contains (msg_stop "i-0a1") "i-0a1".
Proof.
  apply (@evaluate_instance_reason_names_instance scenario_croniter
           (tagged "i-0a1" "TRUE" "0 0 1 1 *") march_5th (Some stop)
           (msg_stop "i-0a1")).
  reflexivity.
Defined.

(** ** The retry executor, event by event *)

Section BackoffTrace.
Context {W : Type} (h : handler W).

Lemma run_backoff_loop_shape func kwargs n : ∀ a w,
  (a + n = max_retries)%nat →
  ∃ fails,
    (run h (backoff_loop func kwargs (seq a n)) w []).2 =
      retries_from func kwargs a fails ++
      last_events func kwargs
        (run h (backoff_loop func kwargs (seq a n)) w []).1.1 ∧
    match (run h (backoff_loop func kwargs (seq a n)) w []).1.1 with
    | Ok (Some _) => (length fails < n)%nat
    | Ok None => n = 0%nat
    | Raise _ => S (length fails) = n
    end.
Proof.
  induction n as [| n IH]; intros a w Han.
  { exists []. by simpl. }
  change (seq a (S n)) with (a :: seq (S a) n).
  cbn [backoff_loop]. unfold mbind, prog_bind. rewrite run_bind.
  destruct (run_backoff_attempt h func kwargs a w) as (x & w1 & _ & Hx).
  destruct x as [r | e].
  { rewrite Hx. simpl. exists []. split; [done | simpl; lia]. }
  change (max_retries - 1)%nat with 4%nat in Hx.
  destruct (a <? 4)%nat eqn:Ha.
  - destruct Hx as (jitter & w4 & ->). apply Nat.ltb_lt in Ha.
    rewrite run_trace. cbn [fst snd].
    destruct (IH (S a) w4) as (fails & Htr & Hres);
      [unfold max_retries in *; lia |].
    set (rest := run h (backoff_loop func kwargs (seq (S a) n)) w4 []) in *.
    exists ((e, jitter) :: fails). rewrite Htr. split; [done |].
    unfold max_retries in *.
    destruct (rest.1.1) as [[r |] | e']; simpl in *; lia.
  - destruct Hx as (w2 & ->). apply Nat.ltb_ge in Ha. simpl.
    exists []. split; [done |]. unfold max_retries in *. simpl. lia.
Qed.

(** X5: a call through [exponential_backoff] returns what the wrapped
    method returned or raises; it never runs off the end of its loop and
    returns [None]. *)
Theorem exponential_backoff_never_none :
  ∀ (w : W) (func : Func) (kwargs : Kwargs),
    (run h (exponential_backoff func kwargs) w []).1.1 ≠ Ok None.
Proof.
  intros w func kwargs Hnone. unfold exponential_backoff in Hnone.
  destruct (run_backoff_loop_shape func kwargs max_retries 0 w eq_refl)
    as (fails & _ & Hres).
  rewrite Hnone in Hres. discriminate.
Qed.


Lemma delays_bounded (js : list Q) :
  (length js ≤ 4)%nat →
  Forall (λ j, (0 <= j)%Q ∧ (j <= 1)%Q) js →
  Forall (λ s, (1 <= s)%Q ∧ (s <= 9)%Q) (delays_from 0 js) ∧
  (Qsum (delays_from 0 js) <= 19)%Q.
Proof.
  intros Hlen Hjs.
  destruct js as [| j0 [| j1 [| j2 [| j3 [| j4 js]]]]];
    try (simpl in Hlen; lia);
    repeat match goal with
    | H : Forall _ (_ :: _) |- _ => apply Forall_cons in H as [[? ?] H]
    end;
    unfold delays_from, Qsum; simpl imap; simpl foldr;
    change (backoff_delay 0) with 1; change (backoff_delay 1) with 2;
    change (backoff_delay 2) with 4; change (backoff_delay 3) with 8;
    change (inject_Z 1) with 1%Q; change (inject_Z 2) with 2%Q;
    change (inject_Z 4) with 4%Q; change (inject_Z 8) with 8%Q;
    (split; [repeat constructor; lra | lra]).
Qed.

(** X7: a call through [exponential_backoff] never pauses for less than
    one second or more than nine, and the pauses of one call, jitter
    included, add up to at most 19 seconds. *)
Theorem exponential_backoff_sleeps_bounded :
  ∀ (w : W) (func : Func) (kwargs : Kwargs),
    Forall (λ s, (1 <= s)%Q ∧ (s <= 9)%Q)
      (sleeps (run h (exponential_backoff func kwargs) w []).2) ∧
    (Qsum (sleeps (run h (exponential_backoff func kwargs) w []).2) <= 19)%Q.
Proof.
  intros w func kwargs. unfold exponential_backoff.
  destruct (run_backoff_loop h func kwargs max_retries 0 w eq_refl)
    as (_ & Hsleeps & Hres).
  rewrite Hsleeps. apply delays_bounded; [| apply jitters_in_range].
  unfold max_retries in *.
  destruct ((run h (backoff_loop func kwargs (seq 0 5)) w []).1.1)
    as [[r |] | e].
  - destruct Hres as (es & _ & Hlen & ->). lia.
  - destruct Hres as [? _]. lia.
  - destruct Hres as (es & _ & Hlen & ->). lia.
Qed.

End BackoffTrace.

(** ** The batch mutator, in every run *)

Lemma elem_of_retried func cs : ∀ ns c,
  c ∈ retried func cs ns → ∃ chunk, chunk ∈ cs ∧ c = (func, kwargs_of chunk).
Proof.
  unfold retried.
  induction cs as [| chunk cs IH]; intros [| n ns] c; simpl;
    try (by intros ?%elem_of_nil).
  intros [Hc | Hc]%elem_of_app.
  - apply elem_of_replicate in Hc as [-> _]. exists chunk. split; [by left | done].
  - destruct (IH ns c Hc) as (chunk' & Hin & ->).
    exists chunk'. split; [by right | done].
Qed.

Lemma chunk_subseteq ids chunk : chunk ∈ chunks ids → chunk ⊆ ids.
Proof.
  intros [j Hj]%list_elem_of_lookup_1.
  apply chunks_lookup in Hj as [-> _].
  intros x Hx. eapply elem_of_sublist; [exact Hx |].
  etrans; [apply sublist_take | apply sublist_drop].
Qed.

Section BatchAlways.
Context {W : Type} (h : handler W).

Lemma batch_calls_within func ids w :
  calls_within_chunks func ids (run h (batch func ids) w []).2.
Proof.
  intros c Hc. rewrite batch_chunks in Hc.
  destruct (run_for_each_chunks h func (chunks ids) w) as (ns & _ & Hcalls & _).
  rewrite Hcalls in Hc. apply elem_of_retried in Hc as (chunk & Hin & ->).
  exists chunk. split; [done |]. split; [done |]. split.
  - pose proof (chunk_sizes ids) as Hsizes.
    rewrite Forall_forall in Hsizes. apply (Hsizes _ Hin).
  - by apply chunk_subseteq.
Qed.

(** X8: in every run of a batch mutator, failed or not, each call it
    makes sends one of the slices of its input through its own method:
    at least one and at most 50 identifiers, all of them identifiers it
    was given. *)
Theorem batch_mutators_call_within_chunks :
  ∀ (w : W) (ec2_client : Client) (instance_ids : list string),
    calls_within_chunks (start_instances ec2_client) instance_ids
      (run h (batch_start_instances ec2_client instance_ids) w []).2 ∧
    calls_within_chunks (stop_instances ec2_client) instance_ids
      (run h (batch_stop_instances ec2_client instance_ids) w []).2.
Proof. intros w ec2_client instance_ids. split; apply batch_calls_within. Qed.

Lemma retried_snoc func cs1 chunk cs2 ns n :
  length ns = length cs1 →
  retried func (cs1 ++ chunk :: cs2) (ns ++ [n]) =
    retried func cs1 ns ++ replicate n (func, kwargs_of chunk).
Proof.
  unfold retried. revert ns.
  induction cs1 as [| c cs1 IH]; intros [| m ns] Hlen; try done.
  - simpl. destruct cs2; simpl; by rewrite app_nil_r.
  - simpl. rewrite <- app_assoc. f_equal. apply IH. by injection Hlen.
Qed.

(** X9: when a batch mutator raises, it has got through a proper prefix
    of its slices, one successful call each, and its last five calls are
    the five failed attempts at the next slice; the slices after that one
    were never sent. *)
Theorem batch_mutator_failure_prefix :
  ∀ (w : W) (ec2_client : Client) (instance_ids : list string)
    (mutator : Client → list string → prog unit) (method : Client → Func)
    (e : exn),
    (mutator, method) ∈ [(batch_start_instances, start_instances);
                         (batch_stop_instances, stop_instances)] →
    (run h (mutator ec2_client instance_ids) w []).1.1 = Raise e →
    ∃ (m : nat) (chunk : list string) (ns : list nat),
      chunks instance_ids !! m = Some chunk ∧
      length ns = m ∧
      Forall (λ n, (1 ≤ n ≤ 5)%nat) ns ∧
      successes (run h (mutator ec2_client instance_ids) w []).2 =
        (λ chunk, (method ec2_client, kwargs_of chunk)) <$>
          take m (chunks instance_ids) ∧
      calls (run h (mutator ec2_client instance_ids) w []).2 =
        retried (method ec2_client) (take m (chunks instance_ids)) ns ++
        replicate 5 (method ec2_client, kwargs_of chunk).
Proof.
  intros w ec2_client instance_ids mutator method e Hin Hraise.
  assert (mutator ec2_client instance_ids =
          batch (method ec2_client) instance_ids) as Hbatch.
  { apply elem_of_cons in Hin as [[= -> ->] | Hin]; [done |].
    apply elem_of_cons in Hin as [[= -> ->] | Hin]; [done |].
    by apply elem_of_nil in Hin. }
  rewrite Hbatch, batch_chunks in *.
  destruct (run_for_each_chunks h (method ec2_client) (chunks instance_ids) w)
    as (ns & Hns & Hcalls & Hres).
  rewrite Hraise in Hres. destruct Hres as ((Hpos & Hle) & Hlast & Hsucc).
  apply last_Some in Hlast as [ns' ->].
  rewrite length_app in Hpos, Hle, Hsucc. simpl in *.
  replace (length ns' + 1 - 1)%nat with (length ns') in Hsucc by lia.
  destruct (lookup_lt_is_Some_2 (chunks instance_ids) (length ns'))
    as [chunk Hchunk]; [lia |].
  exists (length ns'), chunk, ns'.
  split; [done |]. split; [done |].
  apply Forall_app in Hns as [Hns _].
  split; [done |]. split; [done |].
  rewrite Hcalls.
  rewrite <- (take_drop_middle _ _ _ Hchunk) at 1.
  rewrite retried_snoc; [done |].
  rewrite length_take. apply lookup_lt_Some in Hchunk. lia.
Qed.

(** X10: a list of at most 50 identifiers is never split: every call of
    the mutator carries the whole list; and a mutator given the empty list
    sends no request at all and returns. *)
Theorem batch_mutator_small_input :
  ∀ (w : W) (ec2_client : Client) (instance_ids : list string)
    (mutator : Client → list string → prog unit) (method : Client → Func),
    (mutator, method) ∈ [(batch_start_instances, start_instances);
                         (batch_stop_instances, stop_instances)] →
    (length instance_ids ≤ 50)%nat →
    Forall (λ c, c = (method ec2_client, [("InstanceIds"%string, instance_ids)]))
      (calls (run h (mutator ec2_client instance_ids) w []).2) ∧
    (instance_ids = [] →
     run h (mutator ec2_client instance_ids) w [] = (Ok tt, w, [])).
Proof.
  intros w ec2_client ids mutator method Hin Hlen.
  assert (mutator ec2_client ids = batch (method ec2_client) ids) as ->.
  { apply elem_of_cons in Hin as [[= -> ->] | Hin]; [done |].
    apply elem_of_cons in Hin as [[= -> ->] | Hin]; [done |].
    by apply elem_of_nil in Hin. }
  split; [| by intros ->].
  apply Forall_forall. intros c Hc.
  apply batch_calls_within in Hc as (chunk & -> & Hchunk & _).
  destruct ids as [| x ids]; [by apply elem_of_nil in Hchunk |].
  rewrite chunks_cons in Hchunk by done.
  rewrite take_ge, drop_ge in Hchunk by (unfold batch_size; lia).
  rewrite chunks_nil in Hchunk. by apply list_elem_of_singleton in Hchunk as ->.
Qed.

End BatchAlways.

(** 120 identifiers, the first slice sent, the second throttled five
    times. *)
Lemma batch_mutator_failure_prefix_witness :
  ∃ (m : nat) (chunk : list string) (ns : list nat),
    chunks (instance_ids 120) !! m = Some chunk ∧
    length ns = m ∧
    Forall (λ n, (1 ≤ n ≤ 5)%nat) ns ∧
    successes
      (run sim_handler (batch_stop_instances ec2_east (instance_ids 120))
         (api_only [started]) []).2 =
      (λ chunk, (stop_instances ec2_east, kwargs_of chunk)) <$>
        take m (chunks (instance_ids 120)) ∧
    calls
      (run sim_handler (batch_stop_instances ec2_east (instance_ids 120))
         (api_only [started]) []).2 =
      retried (stop_instances ec2_east) (take m (chunks (instance_ids 120))) ns ++
      replicate 5 (stop_instances ec2_east, kwargs_of chunk).
Proof.
  apply (batch_mutator_failure_prefix sim_handler (api_only [started]) ec2_east
           (instance_ids 120) batch_stop_instances stop_instances
           (Exception "RequestLimitExceeded")).
  - right. left.
  - vm_compute. reflexivity.
Defined.

Lemma batch_mutator_small_input_witness :
  Forall (λ c, c = (start_instances ec2_east,
                    [("InstanceIds"%string, instance_ids 3)]))
    (calls
       (run sim_handler (batch_start_instances ec2_east (instance_ids 3))
          (api_only [throttled; started]) []).2).
Proof.
  apply (batch_mutator_small_input sim_handler (api_only [throttled; started])
           ec2_east (instance_ids 3) batch_start_instances start_instances).
  - left.
  - vm_compute. lia.
Defined.

(** ** The region worker, in every run *)

Section RegionAlways.
Context `{!Croniter}.
Context {W : Type} (h : handler W).


Lemma length_reasons instances current_time :
  Forall2 (λ instance message,
      ∃ action, evaluate_instance instance current_time = Ok (action, message))
    instances (reasons instances current_time).
Proof.
  induction instances as [| instance instances IH]; [constructor |].
  destruct (evaluate_instance_never_raises instance current_time)
    as [(a & reason & Heval) _].
  rewrite (reasons_cons _ _ _ a reason Heval).
  constructor; [by exists a | done].
Qed.

Lemma length_decided instances current_time :
  (length (decided start instances current_time) +
   length (decided stop instances current_time) ≤ length instances)%nat.
Proof.
  induction instances as [| instance instances IH]; [done |].
  destruct (evaluate_instance_never_raises instance current_time)
    as [(a & reason & Heval) _].
  rewrite (decided_cons start _ _ _ a reason Heval),
    (decided_cons stop _ _ _ a reason Heval), !length_app.
  destruct a as [[] |]; simpl; lia.
Qed.

(** X12: when the region worker returns, the client it hands on is the
    client of its own region, it has one message per listed instance, in
    listing order, each the reason of that instance's decision, and the
    two lists together hold at most as many identifiers as there are
    instances. *)
Theorem process_region_result_shape :
  ∀ (region : string) (current_time : datetime) (w : W)
    (start_ids stop_ids messages : list string) (ec2_client : Client),
    (run h (process_region region current_time) w []).1.1 =
      Ok (start_ids, stop_ids, ec2_client, messages) →
    ∃ instances,
      listings (run h (process_region region current_time) w []).2
        = [instances] ∧
      ec2_client = mk_client region ∧
      Forall2 (λ instance message,
          ∃ action,
            evaluate_instance instance current_time = Ok (action, message))
        instances messages ∧
      (length start_ids + length stop_ids ≤ length instances)%nat.
Proof.
  intros region current_time w start_ids stop_ids messages ec2_client Hres.
  pose proof (run_process_region h region current_time w) as Hrun.
  destruct (h (Boto3Client region) w) as [[u | e1] w1];
    [| by rewrite Hrun in Hres].
  destruct (h (Paginate (mk_client region)) w1) as [[pages | e2] w2];
    [| by rewrite Hrun in Hres].
  rewrite Hrun in Hres |- *. simpl in Hres. injection Hres as <- <- <- <-.
  exists (flat_map Instances (flat_map Reservations pages)).
  split; [done |]. split; [done |].
  split; [apply length_reasons | apply length_decided].
Qed.

End RegionAlways.

(** The first region of the fleet. *)
Lemma process_region_result_shape_witness :
  ∃ instances,
    listings
      (run sim_handler
         (@process_region scenario_croniter "us-east-1" march_5th) fleet []).2
      = [instances] ∧
    mk_client "us-east-1" = mk_client "us-east-1" ∧
    Forall2 (λ instance message,
        ∃ action,
          @evaluate_instance scenario_croniter instance march_5th
            = Ok (action, message))
      instances
      (@reasons scenario_croniter
         (flat_map Instances (flat_map Reservations east_pages)) march_5th) ∧
    (length ["i-a"; "i-e"]%string + length ["i-b"]%string ≤ length instances)%nat.
Proof.
  apply (@process_region_result_shape scenario_croniter sim sim_handler
           "us-east-1" march_5th fleet). reflexivity.
Defined.

(** ** The requests of each task of a pool *)

Lemma path_snoc {A} (p : prog A) hist q k x :
  path p hist (Vis q k) → path p (hist ++ [Ev q x]) (k x).
Proof.
  intros Hp. remember (Vis q k) as p' eqn:Hp'.
  induction Hp as [p | q' k' x' hist p' Hp IH].
  - subst p. simpl. constructor. constructor.
  - simpl. constructor. by apply IH.
Qed.

Lemma path_app {A} (p p' p'' : prog A) hist1 hist2 :
  path p hist1 p' → path p' hist2 p'' → path p (hist1 ++ hist2) p''.
Proof.
  intros Hp Hp'. induction Hp as [p | q k x hist p' Hp IH]; [done |].
  simpl. constructor. by apply IH.
Qed.

Lemma path_Vis_inv {A} q (k : resp q → prog A) hist p' :
  path (Vis q k) hist p' →
  (hist = [] ∧ p' = Vis q k) ∨
  ∃ x hist', hist = Ev q x :: hist' ∧ path (k x) hist' p'.
Proof.
  assert (Hgen : ∀ (p : prog A) hist p', path p hist p' →
    match p with
    | Vis q k =>
        (hist = [] ∧ p' = Vis q k) ∨
        ∃ x hist', hist = Ev q x :: hist' ∧ path (k x) hist' p'
    | _ => True
    end).
  { intros p hist0 p0 Hp. destruct Hp as [[] | q' k' x hist' p1 Hp]; eauto. }
  apply Hgen.
Qed.

Lemma outcome_of_Some {A} (p : prog A) o : outcome_of p = Some o → p = of_res o.
Proof. destruct p; simpl; by intros [= <-]. Qed.

Section RunPath.
Context {W : Type} (h : handler W).

Lemma run_path {A} (p : prog A) w :
  path p (run h p w []).2 (of_res (run h p w []).1.1).
Proof.
  revert w. induction p as [a | e | q k IH]; intros w; simpl;
    [constructor | constructor |].
  unfold perform. destruct (h q w) as [x w']. simpl.
  rewrite run_trace. simpl. constructor. apply IH.
Qed.

End RunPath.

(** A history replayed gives the run it was recorded from. *)
Lemma run_replay {A} (p p' : prog A) hist o :
  path p hist p' → outcome_of p' = Some o →
  ∀ tr, run replay p hist tr = (o, [], tr ++ hist).
Proof.
  intros Hp Ho. induction Hp as [p | q k x hist p' Hp IH]; intros tr.
  - rewrite (run_finished replay p o _ _ Ho). by rewrite app_nil_r.
  - simpl. unfold perform, replay.
    destruct (decide (q = q)) as [same | Hne]; [| done].
    rewrite (proof_irrel same eq_refl). simpl.
    rewrite IH by done. by rewrite <- app_assoc.
Qed.

Section PoolPathsProperties.
Context {A W : Type} (h : handler W).
Context (phase : Phase) (max_workers : nat).
Context (on_error : nat → exn → LogRecord).
Context (script0 : list (MainStep A)) (tr0 : list event).

Local Abbreviation paths := (@pool_paths A W script0 tr0).

Lemma paths_init w : paths (mk_pool script0 [] [] w tr0 None).
Proof.
  exists [], []. simpl. rewrite app_nil_r. split_and!; try done.
Qed.

Lemma main_step_paths st : paths st → paths (main_step h st).
Proof.
  intros Hinv. unfold main_step.
  destruct (pl_script st) as [| [record | task] script] eqn:Hs; [done | |];
    destruct Hinv as (consumed & new & Hscript & Htrace & Hlen & Htasks);
    rewrite Hs in Hscript.
  - unfold perform. destruct (h (Log record) (pl_world st)) as [[] w].
    exists (consumed ++ [MLog record]), (new ++ [Ev (Log record) tt]). simpl.
    rewrite submitted_app, app_nil_r.
    split; [by rewrite <- app_assoc |].
    split; [by rewrite Htrace, <- app_assoc |]. split; [done |].
    intros i p Hp. destruct (Htasks i p Hp) as (p0 & hist & Hp0 & Hpath & Hsub).
    exists p0, hist. split; [done |]. split; [done |].
    by apply sublist_inserts_r.
  - exists (consumed ++ [MSubmit task]), new. simpl.
    rewrite submitted_app.
    split; [by rewrite <- app_assoc |]. split; [done |].
    split; [by rewrite !length_app, Hlen |].
    intros i p Hp.
    apply lookup_app_Some in Hp as [Hp | [Hi Hp]].
    + destruct (Htasks i p Hp) as (p0 & hist & Hp0 & Hpath & Hsub).
      exists p0, hist. split; [by apply lookup_app_l_Some | done].
    + apply list_lookup_singleton_Some in Hp as [Hi0 <-].
      exists task, []. split; [| split; [constructor | apply sublist_nil_l]].
      rewrite lookup_app_r by lia.
      by replace (i - length (submitted consumed))%nat with 0%nat by lia.
Qed.

Lemma worker_step_paths i st : paths st → paths (worker_step h max_workers i st).
Proof.
  intros Hinv. unfold worker_step.
  destruct (pl_tasks st !! i) as [[a | e | q k] |] eqn:Hi; try done.
  destruct (can_run max_workers (pl_tasks st) i); [| done].
  destruct Hinv as (consumed & new & Hscript & Htrace & Hlen & Htasks).
  unfold perform. destruct (h q (pl_world st)) as [x w].
  exists consumed, (new ++ [Ev q x]). simpl.
  split; [done |]. split; [by rewrite Htrace, <- app_assoc |].
  split; [by rewrite length_insert |].
  intros j p Hj.
  apply list_lookup_insert_Some in Hj as [(-> & <- & _) | [Hne Hj]].
  - destruct (Htasks _ _ Hi) as (p0 & hist & Hp0 & Hpath & Hsub).
    exists p0, (hist ++ [Ev q x]). split; [done |].
    split; [by apply path_snoc | by apply sublist_app].
  - destruct (Htasks _ _ Hj) as (p0 & hist & Hp0 & Hpath & Hsub).
    exists p0, hist. split; [done |]. split; [done |].
    by apply sublist_inserts_r.
Qed.

Lemma collect_step_paths i st :
  paths st → paths (collect_step h phase on_error i st).
Proof.
  intros Hinv. rewrite collect_step_eq.
  destruct (pl_raised st); [done |].
  destruct (pl_script st) as [| s script] eqn:Hs; [| done].
  destruct (pl_tasks st !! i) as [p |] eqn:Hi; [| done].
  case_bool_decide as Hfresh; [done |].
  destruct (outcome_of p) as [o |] eqn:Ho; [| done].
  destruct Hinv as (consumed & new & Hscript & Htrace & Hlen & Htasks).
  rewrite Hs in Hscript.
  destruct o as [a | e].
  - exists consumed, (new ++ [Done phase i]). simpl.
    split; [done |]. split; [by rewrite Htrace, <- app_assoc |].
    split; [done |].
    intros j p' Hj. destruct (Htasks _ _ Hj) as (p0 & hist & Hp0 & Hpath & Hsub).
    exists p0, hist. split; [done |]. split; [done |].
    by apply sublist_inserts_r.
  - unfold perform.
    destruct (h (Log (on_error i e)) (pl_world st)) as [[] w].
    exists consumed, (new ++ [Done phase i; Ev (Log (on_error i e)) tt]). simpl.
    split; [done |]. split; [by rewrite Htrace, <- !app_assoc |].
    split; [done |].
    intros j p' Hj. destruct (Htasks _ _ Hj) as (p0 & hist & Hp0 & Hpath & Hsub).
    exists p0, hist. split; [done |]. split; [done |].
    by apply sublist_inserts_r.
Qed.

Lemma finish_worker_paths st i : paths st → paths (finish_worker h st i).
Proof.
  intros Hinv. unfold finish_worker.
  destruct (pl_tasks st !! i) as [p |] eqn:Hi; [| done].
  destruct Hinv as (consumed & new & Hscript & Htrace & Hlen & Htasks).
  pose proof (run_path h p (pl_world st)) as Hrun.
  rewrite run_trace.
  destruct (run h p (pl_world st) []) as [[o w] tr]. simpl in *.
  exists consumed, (new ++ tr). simpl.
  split; [done |]. split; [by rewrite Htrace, <- app_assoc |].
  split; [by rewrite length_insert |].
  intros j p' Hj.
  apply list_lookup_insert_Some in Hj as [(-> & <- & _) | [Hne Hj]].
  - destruct (Htasks _ _ Hi) as (p0 & hist & Hp0 & Hpath & Hsub).
    exists p0, (hist ++ tr). split; [done |].
    split; [by eapply path_app | by apply sublist_app].
  - destruct (Htasks _ _ Hj) as (p0 & hist & Hp0 & Hpath & Hsub).
    exists p0, hist. split; [done |]. split; [done |].
    by apply sublist_inserts_r.
Qed.

Lemma fold_left_paths {B} (f : pool A W → B → pool A W) (xs : list B) :
  (∀ st x, paths st → paths (f st x)) →
  ∀ st, paths st → paths (fold_left f xs st).
Proof.
  intros Hf. induction xs as [| x xs IH]; intros st Hst; [done |].
  simpl. by apply IH, Hf.
Qed.

Lemma pool_run_paths_inv sched w :
  paths (pool_run h phase max_workers on_error sched script0 w tr0).
Proof.
  unfold pool_run, drain.
  apply fold_left_paths; [intros; by apply collect_step_paths |].
  apply fold_left_paths; [intros; by apply finish_worker_paths |].
  set (st := fold_left _ sched _).
  assert (Hst : paths st).
  { apply fold_left_paths; [| apply paths_init].
    intros s [] Hs; simpl;
      [by apply main_step_paths | by apply worker_step_paths
       | by apply collect_step_paths]. }
  induction (length (pl_script st)) as [| n IH]; [done |].
  simpl. by apply main_step_paths.
Qed.

(** A run of a pool, task by task: every record of the script is logged;
    every task submitted is collected once; the requests a task has made
    are in the trace, in order, and lead from the task as submitted to
    its outcome; the future of a task that raised has its log line. *)
Lemma pool_run_tasks sched w :
  ∃ new,
    pl_trace (pool_run h phase max_workers on_error sched script0 w tr0) =
      tr0 ++ new ∧
    (pl_done (pool_run h phase max_workers on_error sched script0 w tr0)).*1
      ≡ₚ seq 0 (length (submitted script0)) ∧
    (∀ r, r ∈ logged script0 → Ev (Log r) tt ∈ new) ∧
    (∀ i o,
       (i, o) ∈ pl_done (pool_run h phase max_workers on_error sched script0 w tr0) →
       (∃ p0 hist,
          submitted script0 !! i = Some p0 ∧
          path p0 hist (of_res o) ∧ hist `sublist_of` new) ∧
       ∀ e, o = Raise e → Ev (Log (on_error i e)) tt ∈ new).
Proof.
  destruct (pool_run_inv h phase max_workers on_error (λ _, True) script0 tr0
              ltac:(done) ltac:(done)
              ltac:(apply Forall_forall; intros p _;
                    induction p; constructor; done) sched w)
    as (consumed & new & Hscript & Htrace & Hlen & Htasks & _ & Hlog
        & Hnodup & Hdone).
  destruct (pool_run_spec h phase max_workers on_error (λ _, True) script0 tr0
              ltac:(done) ltac:(done)
              ltac:(apply Forall_forall; intros p _;
                    induction p; constructor; done) sched w)
    as (new' & Htrace' & _ & Hperm & Hlog' & Hdone').
  destruct (pool_run_paths_inv sched w)
    as (consumed2 & new2 & Hscript2 & Htrace2 & Hlen2 & Htasks2).
  set (st := pool_run h phase max_workers on_error sched script0 w tr0) in *.
  assert (new' = new) as -> by (rewrite Htrace in Htrace'; by simplify_list_eq).
  assert (new2 = new) as -> by (rewrite Htrace in Htrace2; by simplify_list_eq).
  assert (consumed2 = consumed) as ->.
  { rewrite Hscript in Hscript2. by simplify_list_eq. }
  assert (consumed = script0) as ->.
  { unfold st, pool_run in Hscript.
    destruct (drain_collects h phase on_error
                (fold_left (pool_step h phase max_workers on_error) sched
                   (mk_pool script0 [] [] w tr0 None))
                (steps_raised h phase max_workers on_error sched script0 w tr0))
      as [Hs _].
    rewrite Hs, app_nil_r in Hscript. done. }
  exists new. split; [done |]. split; [done |]. split; [done |].
  intros i o Hio.
  destruct (Hdone i o Hio) as ((p & Hp & Ho) & _ & He).
  split; [| done].
  destruct (Htasks2 i p Hp) as (p0 & hist & Hp0 & Hpath & Hsub).
  exists p0, hist. split; [done |]. split; [| done].
  by rewrite <- (outcome_of_Some p o Ho).
Qed.

End PoolPathsProperties.


(** ** The error lines of the collecting loop *)

Lemma logged_at_app phase i record tr ext :
  logged_at phase i record tr → logged_at phase i record (tr ++ ext).
Proof.
  intros (before & after & ->). exists before, (after ++ ext).
  by rewrite <- app_assoc.
Qed.

Section PoolLogs.
Context {A W : Type} (h : handler W).
Context (phase : Phase) (max_workers : nat).
Context (on_error : nat → exn → LogRecord).

(** Every future that raised has its [Done] event in the trace, directly
    followed by its error line. *)
Local Abbreviation logs := (λ st : pool A W,
  ∀ i e, (i, Raise e) ∈ pl_done st →
    logged_at phase i (on_error i e) (pl_trace st)).

Lemma main_step_logs st : logs st → logs (main_step h st).
Proof.
  intros Hst. unfold main_step.
  destruct (pl_script st) as [| [record | task] script]; [done | |].
  - unfold perform. destruct (h (Log record) (pl_world st)) as [[] w].
    simpl. intros i e Hie. by apply logged_at_app, Hst.
  - simpl. intros i e Hie. by apply Hst.
Qed.

Lemma worker_step_logs i st : logs st → logs (worker_step h max_workers i st).
Proof.
  intros Hst. unfold worker_step.
  destruct (pl_tasks st !! i) as [[a | e | q k] |]; try done.
  destruct (can_run max_workers (pl_tasks st) i); [| done].
  unfold perform. destruct (h q (pl_world st)) as [x w].
  simpl. intros j e Hje. by apply logged_at_app, Hst.
Qed.

Lemma finish_worker_logs st i : logs st → logs (finish_worker h st i).
Proof.
  intros Hst. unfold finish_worker.
  destruct (pl_tasks st !! i) as [p |]; [| done].
  rewrite run_trace.
  destruct (run h p (pl_world st) []) as [[o w] tr].
  simpl. intros j e Hje. by apply logged_at_app, Hst.
Qed.

Lemma collect_step_logs i st :
  logs st → logs (collect_step h phase on_error i st).
Proof.
  intros Hst. rewrite collect_step_eq.
  destruct (pl_raised st); [done |].
  destruct (pl_script st); [| done].
  destruct (pl_tasks st !! i) as [p |]; [| done].
  case_bool_decide; [done |].
  destruct (outcome_of p) as [[a | e] |]; [| | done].
  - simpl. intros j e [Hje | [=]%list_elem_of_singleton]%elem_of_app.
    by apply logged_at_app, Hst.
  - unfold perform. destruct (h (Log (on_error i e)) (pl_world st)) as [[] w].
    simpl. intros j e' [Hje | [= -> ->]%list_elem_of_singleton]%elem_of_app.
    + rewrite <- app_assoc. by apply logged_at_app, Hst.
    + exists (pl_trace st), []. by rewrite <- app_assoc.
Qed.

Lemma fold_left_logs {B} (f : pool A W → B → pool A W) (xs : list B) :
  (∀ st x, logs st → logs (f st x)) →
  ∀ st, logs st → logs (fold_left f xs st).
Proof.
  intros Hf. induction xs as [| x xs IH]; intros st Hst; [done |].
  simpl. by apply IH, Hf.
Qed.

(** In a run of a pool the error line of a future that raised comes right
    after the future was handed out. *)
Lemma pool_run_logs sched (script : list (MainStep A)) w tr i e :
  (i, Raise e) ∈ pl_done (pool_run h phase max_workers on_error sched script w tr) →
  logged_at phase i (on_error i e)
    (pl_trace (pool_run h phase max_workers on_error sched script w tr)).
Proof.
  revert i e. unfold pool_run, drain.
  apply fold_left_logs; [intros; by apply collect_step_logs |].
  apply fold_left_logs; [intros; by apply finish_worker_logs |].
  set (st := fold_left _ sched _).
  assert (Hst : logs st).
  { apply fold_left_logs.
    - intros s [] Hs; simpl;
        [by apply main_step_logs | by apply worker_step_logs
         | by apply collect_step_logs].
    - simpl. intros i e Hie. by apply elem_of_nil in Hie. }
  induction (length (pl_script st)) as [| n IH]; [done |].
  simpl. by apply main_step_logs.
Qed.

End PoolLogs.

(** ** What the history of a task says *)

Section TaskHistories.
Context {W : Type} (h : handler W).

(** A call through the retry executor that raises, raises what its last
    attempt raised. *)
Lemma run_exponential_backoff_last func kwargs w e :
  (run h (exponential_backoff func kwargs) w []).1.1 = Raise e →
  last (api_calls (run h (exponential_backoff func kwargs) w []).2) =
    Some (func, kwargs, Raise e).
Proof.
  unfold exponential_backoff. intros Hraise.
  destruct (run_backoff_loop h func kwargs max_retries 0 w eq_refl)
    as (Hcalls & _ & Hres).
  rewrite Hraise in Hres. destruct Hres as (es & Hatt & _).
  apply api_calls_same in Hcalls. fold (attempts (run h
    (backoff_loop func kwargs (seq 0 max_retries)) w []).2) in Hcalls.
  rewrite Hcalls, Hatt, map_app, fmap_app. simpl.
  by rewrite last_snoc.
Qed.

(** The loop over the slices, when it raises: the slices before one of
    them went through, and the last call is a call for that one. *)
Lemma run_for_each_chunks_raise func cs e : ∀ w,
  (run h (for_each cs
     (λ chunk, exponential_backoff func (kwargs_of chunk);; mret tt)) w []).1.1
    = Raise e →
  ∃ m chunk,
    cs !! m = Some chunk ∧
    successes (run h (for_each cs
      (λ chunk, exponential_backoff func (kwargs_of chunk);; mret tt)) w []).2
      = (λ chunk, (func, kwargs_of chunk)) <$> take m cs ∧
    last (api_calls (run h (for_each cs
      (λ chunk, exponential_backoff func (kwargs_of chunk);; mret tt)) w []).2)
      = Some (func, kwargs_of chunk, Raise e).
Proof.
  unfold mbind, prog_bind.
  induction cs as [| c cs IH]; intros w; [done |].
  cbn [for_each]. rewrite !run_bind.
  pose proof (run_exponential_backoff_calls h func (kwargs_of c) w)
    as (n & Hn & Hcalls & Hres).
  pose proof (run_exponential_backoff_last func (kwargs_of c) w) as Hlast.
  destruct (run h (exponential_backoff func (kwargs_of c)) w [])
    as [[[[r |] | e'] w1] tr1]; simpl in Hcalls, Hres, Hlast; [| done |].
  - cbn [run mret prog_ret]. rewrite run_trace. cbn [fst snd].
    intros Hraise. destruct (IH w1 Hraise) as (m & chunk & Hm & Hsucc & Hl).
    exists (S m), chunk. split; [done |]. split.
    + by rewrite successes_app, Hres, Hsucc.
    + unfold api_calls in *. rewrite omap_app.
      destruct (omap api_call_of (run h (for_each cs _) w1 []).2)
        as [| x xs] eqn:Hx using rev_ind; [done |].
      by rewrite app_assoc, last_snoc in *.
  - cbn [fst snd]. intros [= ->]. destruct Hres as [_ Hnone].
    exists 0%nat, c. split; [done |]. split; [done |]. by apply Hlast.
Qed.

End TaskHistories.

Lemma path_batch_raise func ids hist e :
  path (batch func ids) hist (Throw e) →
  ∃ m chunk,
    chunks ids !! m = Some chunk ∧
    successes hist =
      (λ chunk, (func, kwargs_of chunk)) <$> take m (chunks ids) ∧
    last (api_calls hist) = Some (func, kwargs_of chunk, Raise e).
Proof.
  intros Hpath.
  pose proof (run_replay _ _ hist (Raise e) Hpath eq_refl []) as Hrun.
  rewrite batch_chunks in Hrun.
  destruct (run_for_each_chunks_raise replay func (chunks ids) e hist)
    as (m & chunk & Hm & Hsucc & Hlast).
  - by rewrite Hrun.
  - rewrite Hrun in Hsucc, Hlast. by exists m, chunk.
Qed.

(** ** The handler, task by task *)

Section HandlerTasks.
Context `{!Croniter}.
Context {W : Type} (h : handler W).

(** A run of the handler after a successful discovery, with the requests
    of every region worker and of every batch task. *)
Lemma lambda_handler_tasks sched1 sched2 w regions :
  (run h get_all_regions w []).1.1 = Ok regions →
  ∃ t new1 new2,
    rp_trace (lambda_handler h sched1 sched2 w) =
      (run h get_all_regions w []).2 ++ [Ev DatetimeNow t] ++ new1 ++ new2 ∧
    (rp_regions (lambda_handler h sched1 sched2 w)).*1
      ≡ₚ seq 0 (length regions) ∧
    (∀ i o, (i, o) ∈ rp_regions (lambda_handler h sched1 sched2 w) →
       ∃ region hist, regions !! i = Some region ∧
         path (process_region region t) hist (of_res o) ∧
         hist `sublist_of` new1) ∧
    (rp_batches (lambda_handler h sched1 sched2 w)).*1
      ≡ₚ seq 0 (length (submitted (mutate_script
           (results_of (rp_regions (lambda_handler h sched1 sched2 w)))))) ∧
    (∀ r, r ∈ logged (mutate_script
            (results_of (rp_regions (lambda_handler h sched1 sched2 w)))) →
          Ev (Log r) tt ∈ new2) ∧
    (∀ j o, (j, o) ∈ rp_batches (lambda_handler h sched1 sched2 w) →
       (∃ p0 hist,
          submitted (mutate_script
            (results_of (rp_regions (lambda_handler h sched1 sched2 w)))) !! j
            = Some p0 ∧
          path p0 hist (of_res o) ∧ hist `sublist_of` new2) ∧
       ∀ e, o = Raise e → Ev (Log (ErrorBatchOperation e)) tt ∈ new2).
Proof.
  intros Hregions. unfold lambda_handler. rewrite run_discover.
  destruct (run h get_all_regions w []) as [[[regions' | e] w1] tr1];
    simpl in Hregions; [| done].
  injection Hregions as ->.
  destruct (h DatetimeNow w1) as [t w2]. cbn [fst snd].
  rewrite !pool_run_raised.
  destruct (pool_run_tasks h Evaluate 10 (region_error regions)
              (evaluate_script regions t) (tr1 ++ [Ev DatetimeNow t]) sched1 w2)
    as (new1 & Htr1 & Hperm1 & _ & Hdone1).
  set (pool1 := pool_run h Evaluate 10 _ sched1 _ w2 _) in *.
  destruct (pool_run_tasks h Mutate 20 batch_error
              (mutate_script (results_of (pl_done pool1))) (pl_trace pool1)
              sched2 (pl_world pool1))
    as (new2 & Htr2 & Hperm2 & Hlog2 & Hdone2).
  set (pool2 := pool_run h Mutate 20 _ sched2 _ _ _) in *.
  exists t, new1, new2. simpl.
  split; [by rewrite Htr2, Htr1, <- !app_assoc |].
  split; [by rewrite submitted_evaluate_script, length_fmap in Hperm1 |].
  split.
  { intros i o Hio.
    destruct (Hdone1 i o Hio) as ((p0 & hist & Hp0 & Hpath & Hsub) & _).
    rewrite submitted_evaluate_script, list_lookup_fmap in Hp0.
    destruct (regions !! i) as [region |]; [| done].
    injection Hp0 as <-. by exists region, hist. }
  split; [done |]. split; [done |]. done.
Qed.

Lemma in_trace_part (ev : event) (tr0 new1 new2 : list event) now :
  ev ∈ new1 ∨ ev ∈ new2 → ev ∈ tr0 ++ [now] ++ new1 ++ new2.
Proof.
  intros [Hev | Hev]; rewrite !elem_of_app; [right; right; by left |].
  right. right. by right.
Qed.

(** X13: every decision is visible in the log: for each region whose
    worker returned, each of its messages, one per instance, is logged at
    info level during the run. *)
Theorem lambda_handler_logs_every_decision :
  ∀ (sched1 sched2 : list Choice) (w : W) (i : nat)
    (start_ids stop_ids messages : list string) (ec2_client : Client)
    (message : string),
    (i, Ok (start_ids, stop_ids, ec2_client, messages))
      ∈ rp_regions (lambda_handler h sched1 sched2 w) →
    message ∈ messages →
    Ev (Log (Info message)) tt ∈ rp_trace (lambda_handler h sched1 sched2 w).
Proof.
  intros sched1 sched2 w i start_ids stop_ids messages ec2_client message
    Hresult Hmessage.
  destruct ((run h get_all_regions w []).1.1) as [regions | e] eqn:Hd.
  2:{ revert Hresult. unfold lambda_handler. rewrite run_discover.
      destruct (run h get_all_regions w []) as [[[regions | e'] w1] tr1];
        simpl in *; [done |]. by intros ?%elem_of_nil. }
  destruct (lambda_handler_tasks sched1 sched2 w regions Hd)
    as (t & new1 & new2 & -> & _ & _ & _ & Hlog & _).
  apply in_trace_part. right. apply Hlog.
  unfold logged, mutate_script. apply list_elem_of_omap.
  exists (MLog (Info message)). split; [| done].
  apply list_elem_of_In, in_flat_map.
  exists (start_ids, stop_ids, ec2_client, messages). split.
  - apply list_elem_of_In, elem_of_results_of. by exists i.
  - apply list_elem_of_In. unfold mutate_steps.
    apply elem_of_app. left. apply list_elem_of_fmap. by exists message.
Qed.

(** X14: after a successful discovery every discovered region is worked
    on, whatever happens in the other regions: the creation of its client
    is in the trace, and, when that succeeded, the listing through this
    client. *)
Theorem lambda_handler_contacts_every_region :
  ∀ (sched1 sched2 : list Choice) (w : W) (regions : list string)
    (region : string),
    (run h get_all_regions w []).1.1 = Ok regions →
    region ∈ regions →
    ∃ x,
      Ev (Boto3Client region) x ∈ rp_trace (lambda_handler h sched1 sched2 w) ∧
      (is_raise x = false →
       ∃ y, Ev (Paginate (mk_client region)) y
              ∈ rp_trace (lambda_handler h sched1 sched2 w)).
Proof.
  intros sched1 sched2 w regions region Hd Hregion.
  destruct (lambda_handler_tasks sched1 sched2 w regions Hd)
    as (t & new1 & new2 & -> & Hperm & Hdone & _).
  apply list_elem_of_lookup_1 in Hregion as [i Hi].
  assert (i ∈ (rp_regions (lambda_handler h sched1 sched2 w)).*1) as Hin.
  { rewrite Hperm. apply elem_of_seq. apply lookup_lt_Some in Hi. lia. }
  apply list_elem_of_fmap in Hin as ([i' o] & -> & Hio). simpl in Hi.
  destruct (Hdone _ _ Hio) as (region' & hist & Hi' & Hpath & Hsub).
  rewrite Hi in Hi'. injection Hi' as <-.
  unfold process_region, get_instances_in_region, boto3_client, paginate
    in Hpath. simpl in Hpath.
  apply path_Vis_inv in Hpath as [[_ Hp] | (x & hist1 & -> & Hpath)];
    [by destruct o |].
  exists x. split.
  { apply in_trace_part. left. eapply elem_of_sublist; [| exact Hsub]. by left. }
  intros Hx. destruct x as [u | e]; [| done]. simpl in Hpath.
  apply path_Vis_inv in Hpath as [[_ Hp] | (y & hist2 & -> & Hpath)];
    [by destruct o |].
  exists y. apply in_trace_part. left.
  eapply elem_of_sublist; [| exact Hsub]. right. by left.
Qed.

Lemma successes_subseteq (hist tr : list event) c :
  hist ⊆ tr → c ∈ successes hist → c ∈ successes tr.
Proof.
  unfold successes, api_calls. intros Hsub.
  intros ([c' o] & -> & [Hok Hc]%list_elem_of_filter)%list_elem_of_fmap.
  apply list_elem_of_omap in Hc as (ev & Hev & Hcall).
  apply list_elem_of_fmap. exists (c', o). split; [done |].
  apply list_elem_of_filter. split; [done |].
  apply list_elem_of_omap. exists ev. split; [by apply Hsub | done].
Qed.

Lemma path_batch_successes func ids hist :
  path (batch func ids) hist (Ret tt) →
  successes hist = (λ chunk, (func, kwargs_of chunk)) <$> chunks ids.
Proof.
  intros Hpath.
  pose proof (run_replay _ _ hist (Ok tt) Hpath eq_refl []) as Hrun.
  rewrite batch_chunks in Hrun.
  destruct (run_for_each_chunks replay func (chunks ids) hist)
    as (ns & _ & _ & Hres).
  rewrite Hrun in Hres. simpl in Hres. by destruct Hres as [_ ->].
Qed.

(** The error lines of a run of the handler: the line of a region future
    or of a batch future that raised comes right after the future was
    handed out. *)
Lemma lambda_handler_logged sched1 sched2 w regions :
  (run h get_all_regions w []).1.1 = Ok regions →
  (∀ i e, (i, Raise e) ∈ rp_regions (lambda_handler h sched1 sched2 w) →
     logged_at Evaluate i (region_error regions i e)
       (rp_trace (lambda_handler h sched1 sched2 w))) ∧
  (∀ j e, (j, Raise e) ∈ rp_batches (lambda_handler h sched1 sched2 w) →
     logged_at Mutate j (ErrorBatchOperation e)
       (rp_trace (lambda_handler h sched1 sched2 w))).
Proof.
  intros Hregions. unfold lambda_handler. rewrite run_discover.
  destruct (run h get_all_regions w []) as [[[regions' | e] w1] tr1];
    simpl in Hregions; [| done].
  injection Hregions as ->.
  destruct (h DatetimeNow w1) as [t w2]. cbn [fst snd].
  rewrite !pool_run_raised.
  set (pool1 := pool_run h Evaluate 10 _ sched1 _ w2 _).
  destruct (pool_run_tasks h Mutate 20 batch_error
              (mutate_script (results_of (pl_done pool1))) (pl_trace pool1)
              sched2 (pl_world pool1))
    as (new2 & Htr2 & _).
  set (pool2 := pool_run h Mutate 20 _ sched2 _ _ _) in *.
  simpl. split.
  - intros i e Hie. rewrite Htr2. apply logged_at_app.
    by apply (pool_run_logs h Evaluate 10 (region_error regions)).
  - intros j e Hje. by apply (pool_run_logs h Mutate 20 batch_error).
Qed.

(** The tasks the loop over [results] submits for one result. *)
Lemma submitted_info (messages : list string) :
  submitted ((λ message, @MLog unit (Info message)) <$> messages) = [].
Proof. induction messages as [| m ms IH]; [done |]. exact IH. Qed.

Lemma submitted_mutate_steps start_ids stop_ids ec2_client messages :
  submitted (mutate_steps (start_ids, stop_ids, ec2_client, messages)) =
    (if decide (start_ids = []) then []
     else [batch_start_instances ec2_client start_ids]) ++
    (if decide (stop_ids = []) then []
     else [batch_stop_instances ec2_client stop_ids]).
Proof.
  unfold mutate_steps. rewrite !submitted_app, submitted_info.
  by repeat case_decide.
Qed.

Lemma results_of_app (d1 d2 : list (nat * Res RegionResult)) :
  results_of (d1 ++ d2) = results_of d1 ++ results_of d2.
Proof. apply omap_app. Qed.

Lemma submitted_mutate_script_at before i result after k task :
  submitted (mutate_steps result) !! k = Some task →
  submitted (mutate_script (results_of (before ++ (i, Ok result) :: after)))
    !! (batch_index before + k)%nat = Some task.
Proof.
  intros Hk. unfold batch_index, mutate_script.
  rewrite results_of_app.
  change (results_of ((i, Ok result) :: after))
    with (result :: results_of after).
  rewrite flat_map_app. cbn [flat_map]. rewrite !submitted_app.
  rewrite lookup_app_r by lia.
  replace (length (submitted (flat_map mutate_steps (results_of before))) + k
           - length (submitted (flat_map mutate_steps (results_of before))))%nat
    with k by lia.
  by apply lookup_app_l_Some.
Qed.

(** What becomes of a batch task of the second pool. *)
Lemma lambda_handler_batch_future sched1 sched2 w func ids j :
  submitted (mutate_script
    (results_of (rp_regions (lambda_handler h sched1 sched2 w)))) !! j
    = Some (batch func ids) →
  batch_future (lambda_handler h sched1 sched2 w) func ids j.
Proof.
  intros Hj.
  destruct ((run h get_all_regions w []).1.1) as [regions | e] eqn:Hd.
  2:{ revert Hj. unfold lambda_handler. rewrite run_discover.
      destruct (run h get_all_regions w []) as [[[regions | e'] w1] tr1];
        simpl in *; [done |]. done. }
  destruct (lambda_handler_tasks sched1 sched2 w regions Hd)
    as (t & new1 & new2 & Htr & _ & _ & Hperm & _ & Hdone).
  destruct (lambda_handler_logged sched1 sched2 w regions Hd) as [_ Hlog].
  assert (j ∈ (rp_batches (lambda_handler h sched1 sched2 w)).*1) as Hjin.
  { rewrite Hperm. apply elem_of_seq. apply lookup_lt_Some in Hj. lia. }
  apply list_elem_of_fmap in Hjin as ([j' o] & -> & Hjo). simpl in Hj.
  destruct (Hdone _ _ Hjo) as ((p0 & hist & Hp0 & Hpath & Hsub) & _).
  rewrite Hj in Hp0. injection Hp0 as <-.
  assert (Hsubtr : hist `sublist_of` rp_trace (lambda_handler h sched1 sched2 w)).
  { rewrite Htr. by do 3 apply sublist_inserts_l. }
  exists o, hist. split; [done |]. split; [done |]. split; [done |].
  destruct o as [[] | e].
  - split; [by apply path_batch_successes |].
    intros chunk Hchunk. apply (successes_subseteq hist).
    + intros ev Hev. by eapply elem_of_sublist.
    + rewrite (path_batch_successes func ids hist Hpath).
      apply list_elem_of_fmap. by exists chunk.
  - split; [by apply path_batch_raise | by apply Hlog].
Qed.

(** The batch tasks of a region result, at their positions in the second
    pool. *)
Lemma submitted_region_batches before after i start_ids stop_ids ec2_client
    messages :
  (start_ids ≠ [] →
   submitted (mutate_script (results_of
     (before ++ (i, Ok (start_ids, stop_ids, ec2_client, messages)) :: after)))
     !! batch_index before
     = Some (batch (start_instances ec2_client) start_ids)) ∧
  (stop_ids ≠ [] →
   submitted (mutate_script (results_of
     (before ++ (i, Ok (start_ids, stop_ids, ec2_client, messages)) :: after)))
     !! (batch_index before + (if decide (start_ids = []) then 0 else 1))%nat
     = Some (batch (stop_instances ec2_client) stop_ids)).
Proof.
  split; intros Hne.
  - rewrite <- (Nat.add_0_r (batch_index before)).
    apply submitted_mutate_script_at. rewrite submitted_mutate_steps.
    by rewrite decide_False by done.
  - apply submitted_mutate_script_at. rewrite submitted_mutate_steps.
    destruct (decide (start_ids = [])); by rewrite decide_False by done.
Qed.

(** A worker that returned, from its own requests: it listed the
    instances once and returns their partition. *)
Lemma path_process_region_ret region current_time hist result :
  path (process_region region current_time) hist (Ret result) →
  ∃ instances,
    listings hist = [instances] ∧
    result = (decided start instances current_time,
              decided stop instances current_time,
              mk_client region, reasons instances current_time).
Proof.
  intros Hpath.
  pose proof (run_replay _ _ hist (Ok result) Hpath eq_refl []) as Hrun.
  pose proof (run_process_region replay region current_time hist) as Hshape.
  destruct (replay (Boto3Client region) hist) as [[u | e] w1];
    [| congruence].
  destruct (replay (Paginate (mk_client region)) w1) as [[pages | e] w2];
    [| congruence].
  rewrite Hrun in Hshape. injection Hshape as Hresult _ Hhist.
  simpl in Hhist. subst hist result.
  by exists (flat_map Instances (flat_map Reservations pages)).
Qed.

(** The future of every region, from the worker's own requests. *)
Lemma lambda_handler_region_futures sched1 sched2 w regions :
  (run h get_all_regions w []).1.1 = Ok regions →
  ∃ t later,
    rp_trace (lambda_handler h sched1 sched2 w) =
      (run h get_all_regions w []).2 ++ [Ev DatetimeNow t] ++ later ∧
    ∀ i region, regions !! i = Some region →
      ∃ o hist,
        (i, o) ∈ rp_regions (lambda_handler h sched1 sched2 w) ∧
        path (process_region region t) hist (of_res o) ∧
        hist `sublist_of` later ∧
        (∀ e, o = Raise e →
           logged_at Evaluate i (ErrorProcessingRegion region e)
             (rp_trace (lambda_handler h sched1 sched2 w))) ∧
        (∀ result, o = Ok result →
           ∃ instances,
             listings hist = [instances] ∧
             result = (decided start instances t, decided stop instances t,
                       mk_client region, reasons instances t)).
Proof.
  intros Hd.
  destruct (lambda_handler_tasks sched1 sched2 w regions Hd)
    as (t & new1 & new2 & Htr & Hperm & Hdone & _).
  destruct (lambda_handler_logged sched1 sched2 w regions Hd) as [Hlog _].
  exists t, (new1 ++ new2). split; [done |].
  intros i region Hi.
  assert (i ∈ (rp_regions (lambda_handler h sched1 sched2 w)).*1) as Hin.
  { rewrite Hperm. apply elem_of_seq. apply lookup_lt_Some in Hi. lia. }
  apply list_elem_of_fmap in Hin as ([i' o] & -> & Hio). simpl in Hi.
  destruct (Hdone _ _ Hio) as (region' & hist & Hi' & Hpath & Hsub).
  rewrite Hi in Hi'. injection Hi' as <-.
  exists o, hist. split; [done |]. split; [done |].
  split; [by apply sublist_inserts_r |]. split.
  - intros e ->. specialize (Hlog _ _ Hio).
    unfold region_error in Hlog. by rewrite Hi in Hlog.
  - intros result ->. by apply path_process_region_ret.
Qed.

Lemma handler_calls_allowed sched1 sched2 w c :
  c ∈ calls (rp_trace (lambda_handler h sched1 sched2 w)) →
  c ∈ allowed_calls
        (results_of (rp_regions (lambda_handler h sched1 sched2 w))).
Proof.
  unfold calls, api_calls.
  intros ([c' o] & -> & Hc)%list_elem_of_fmap.
  apply list_elem_of_omap in Hc as (ev & Hev & Hcall).
  assert (Hno : ∀ tr, Forall read_event tr → ev ∈ tr → False).
  { intros tr Htrf Hin. rewrite Forall_forall in Htrf.
    destruct (Htrf _ Hin) as [Hapi _].
    apply api_call_of_none in Hapi. congruence. }
  pose proof (read_get_all_regions h w) as Hread0.
  destruct ((run h get_all_regions w []).1.1) as [regions | e] eqn:Hd.
  - destruct (lambda_handler_ok h sched1 sched2 w regions Hd)
      as (t & new1 & new2 & _ & Htr & Hnew1 & Hnew2 & _).
    rewrite Htr, !elem_of_app in Hev.
    destruct Hev as [Hev | [Hev | [Hev | Hev]]].
    + by destruct (Hno _ Hread0 Hev).
    + apply list_elem_of_singleton in Hev as ->. done.
    + by destruct (Hno _ Hnew1 Hev).
    + rewrite Forall_forall in Hnew2.
      destruct (Hnew2 _ Hev) as (_ & _ & _ & Hamong).
      unfold call_among in Hamong. by rewrite Hcall in Hamong.
  - revert Hev. unfold lambda_handler. rewrite run_discover.
    destruct (run h get_all_regions w []) as [[[regions | e'] w1] tr1];
      simpl in *; [done |].
    intros Hev. by destruct (Hno _ Hread0 Hev).
Qed.

(** X16: a run in which no region result has an instance to start or to
    stop calls no boto3 method at all. *)
Theorem lambda_handler_idle_makes_no_call :
  ∀ (sched1 sched2 : list Choice) (w : W),
    Forall (λ result : RegionResult,
        result.1.1.1 = [] ∧ result.1.1.2 = [])
      (results_of (rp_regions (lambda_handler h sched1 sched2 w))) →
    calls (rp_trace (lambda_handler h sched1 sched2 w)) = [].
Proof.
  intros sched1 sched2 w Hidle.
  apply elem_of_nil_inv. intros c Hc.
  apply handler_calls_allowed in Hc.
  unfold allowed_calls in Hc.
  apply list_elem_of_In, in_flat_map in Hc
    as ([[[start_ids stop_ids] ec2_client] messages] & Hres & Hc).
  rewrite Forall_forall in Hidle.
  apply list_elem_of_In in Hres, Hc.
  destruct (Hidle _ Hres) as [Hs Hp]. simpl in Hs, Hp. subst.
  rewrite chunks_nil in Hc. simpl in Hc. by apply elem_of_nil in Hc.
Qed.

Lemma path_ends {A} (p p' : prog A) hist o :
  path p hist p' → ends p' o → ends p o.
Proof.
  induction 1 as [p | q k x hist p' Hp IH]; [done |].
  intros Ho. econstructor. by apply IH.
Qed.

Lemma clock_split_eq (tr0 later later' : list event) (t t' : datetime) :
  tr0 ++ [Ev DatetimeNow t] ++ later = tr0 ++ [Ev DatetimeNow t'] ++ later' →
  t = t' ∧ later = later'.
Proof.
  intros Heq%app_inv_head. split.
  - apply (f_equal (λ tr, head (clock_reads tr))) in Heq. simpl in Heq.
    by injection Heq.
  - by apply (f_equal (drop 1)) in Heq.
Qed.

(** C8: the handler raises exactly when region discovery raises, and with
    the same exception.  After a successful discovery it returns, and:
    every region has a future, collected once; what a region's future
    holds follows from the answers to that worker's own requests; a worker
    that raised has its error line logged when its future is collected,
    and gives no result, so no call is made for it: every call of a boto3
    method is for a slice of a start or stop list of a region whose worker
    returned.  Every region whose worker returned gets its work done,
    whatever the other regions did: its start list and its stop list, if
    not empty, each have a batch task at their own position in the second
    pool, whose future is collected; if the task returned, every slice of
    the list was sent in a successful call, in order; if it raised, the
    slices before one of them went through, the last call of the task is
    the call for that slice that raised this exception, and the error line
    is logged when the future is collected.  What a batch future holds
    follows from the answers to that task's own requests. *)
Theorem lambda_handler_failure_isolation :
  ∀ (sched1 sched2 : list Choice) (w : W),
    (∀ e, rp_result (lambda_handler h sched1 sched2 w) = Raise e ↔
          (run h get_all_regions w []).1.1 = Raise e) ∧
    (∀ regions,
       (run h get_all_regions w []).1.1 = Ok regions →
       rp_result (lambda_handler h sched1 sched2 w) = Ok tt ∧
       (rp_regions (lambda_handler h sched1 sched2 w)).*1
         ≡ₚ seq 0 (length regions) ∧
       (∀ i e,
          (i, Raise e) ∈ rp_regions (lambda_handler h sched1 sched2 w) →
          Ev (Log (ErrorProcessingRegion (default ""%string (regions !! i)) e)) tt
            ∈ rp_trace (lambda_handler h sched1 sched2 w)) ∧
       (∀ result,
          result ∈ results_of (rp_regions (lambda_handler h sched1 sched2 w)) ↔
          ∃ i, (i, Ok result) ∈ rp_regions (lambda_handler h sched1 sched2 w)) ∧
       (∀ c,
          c ∈ calls (rp_trace (lambda_handler h sched1 sched2 w)) →
          c ∈ allowed_calls
                (results_of (rp_regions (lambda_handler h sched1 sched2 w)))) ∧
       (rp_batches (lambda_handler h sched1 sched2 w)).*1
         ≡ₚ seq 0 (length (submitted (mutate_script
              (results_of (rp_regions (lambda_handler h sched1 sched2 w)))))) ∧
       (∀ j e,
          (j, Raise e) ∈ rp_batches (lambda_handler h sched1 sched2 w) →
          Ev (Log (ErrorBatchOperation e)) tt
            ∈ rp_trace (lambda_handler h sched1 sched2 w)) ∧
       (∀ i region,
          regions !! i = Some region →
          ∃ o current_time hist,
            (i, o) ∈ rp_regions (lambda_handler h sched1 sched2 w) ∧
            path (process_region region current_time) hist (of_res o) ∧
            hist `sublist_of` rp_trace (lambda_handler h sched1 sched2 w) ∧
            ∀ e, o = Raise e →
              logged_at Evaluate i (ErrorProcessingRegion region e)
                (rp_trace (lambda_handler h sched1 sched2 w))) ∧
       (∀ before after i start_ids stop_ids ec2_client messages,
          rp_regions (lambda_handler h sched1 sched2 w) =
            before ++ (i, Ok (start_ids, stop_ids, ec2_client, messages))
                   :: after →
          (start_ids ≠ [] →
           batch_future (lambda_handler h sched1 sched2 w)
             (start_instances ec2_client) start_ids (batch_index before)) ∧
          (stop_ids ≠ [] →
           batch_future (lambda_handler h sched1 sched2 w)
             (stop_instances ec2_client) stop_ids
             (batch_index before +
              (if decide (start_ids = []) then 0 else 1)))) ∧
       (∀ j o,
          (j, o) ∈ rp_batches (lambda_handler h sched1 sched2 w) →
          ∃ task hist,
            submitted (mutate_script
              (results_of (rp_regions (lambda_handler h sched1 sched2 w))))
              !! j = Some task ∧
            path task hist (of_res o) ∧
            hist `sublist_of` rp_trace (lambda_handler h sched1 sched2 w) ∧
            ∀ e, o = Raise e →
              logged_at Mutate j (ErrorBatchOperation e)
                (rp_trace (lambda_handler h sched1 sched2 w)))).
Proof.
  intros sched1 sched2 w. split.
  - intros e.
    destruct ((run h get_all_regions w []).1.1) as [regions | e'] eqn:Hd.
    + destruct (lambda_handler_ok h sched1 sched2 w regions Hd)
        as (t & new1 & new2 & -> & _). done.
    + unfold lambda_handler. rewrite run_discover.
      destruct (run h get_all_regions w []) as [[[regions | e''] w1] tr1];
        simpl in *; [done |]. injection Hd as ->.
      split; by intros [= ->].
  - intros regions Hd.
    destruct (lambda_handler_ok h sched1 sched2 w regions Hd)
      as (t & new1 & new2 & Hres & Htr & Hnew1 & Hnew2 & Hperm1 & Hdone1
          & Hperm2 & Hdone2).
    destruct (lambda_handler_tasks sched1 sched2 w regions Hd)
      as (t' & new1' & new2' & Htr' & _ & _ & _ & _ & Htasks).
    destruct (lambda_handler_logged sched1 sched2 w regions Hd)
      as [_ Hlogged].
    destruct (lambda_handler_region_futures sched1 sched2 w regions Hd)
      as (t'' & later & Htr'' & Hfutures).
    set (R := lambda_handler h sched1 sched2 w) in *.
    split; [done |]. split; [done |]. split.
    { intros i e Hie. destruct (Hdone1 _ _ Hie) as (_ & _ & He).
      rewrite Htr. apply in_trace_part. left. by apply He. }
    split; [apply elem_of_results_of |].
    split; [intros c; apply handler_calls_allowed |].
    split; [done |]. split.
    { intros j e Hje. destruct (Hdone2 _ _ Hje) as [_ He].
      rewrite Htr. apply in_trace_part. right. by apply He. }
    split.
    { intros i region Hi.
      destruct (Hfutures i region Hi) as (o & hist & Hio & Hpath & Hsub & He & _).
      exists o, t'', hist. split; [done |]. split; [done |].
      split; [| done]. rewrite Htr''. by do 2 apply sublist_inserts_l. }
    split.
    { intros before after i start_ids stop_ids ec2_client messages Hregions.
      destruct (submitted_region_batches before after i start_ids stop_ids
                  ec2_client messages) as [Hstart Hstop].
      unfold R in Hregions |- *.
      split; intros Hne; apply lambda_handler_batch_future; rewrite Hregions;
        auto. }
    intros j o Hjo.
    destruct (Htasks _ _ Hjo) as ((task & hist & Htask & Hpath & Hsub) & _).
    exists task, hist. split; [done |]. split; [done |]. split.
    + rewrite Htr'. by do 3 apply sublist_inserts_l.
    + intros e ->. by apply Hlogged.
Qed.

(** C10: in a run whose discovery succeeds the clock is read once, right
    after the discovery, and the value read is the [current_time] of the
    worker of every region: each region has a future, which holds what
    [process_region] for this region at this value gives on the answers to
    the worker's own requests, all of them sent after the clock was read;
    and the result of a worker that returned is the partition of the
    instances it listed, each evaluated at this value. *)
Theorem lambda_handler_single_timestamp :
  ∀ (sched1 sched2 : list Choice) (w : W) (regions : list string),
    (run h get_all_regions w []).1.1 = Ok regions →
    ∃ t later,
      rp_trace (lambda_handler h sched1 sched2 w) =
        (run h get_all_regions w []).2 ++ [Ev DatetimeNow t] ++ later ∧
      clock_reads (rp_trace (lambda_handler h sched1 sched2 w)) = [t] ∧
      (∀ i o,
         (i, o) ∈ rp_regions (lambda_handler h sched1 sched2 w) →
         ∃ region, regions !! i = Some region ∧
           ends (process_region region t) o) ∧
      (∀ i result,
         (i, Ok result) ∈ rp_regions (lambda_handler h sched1 sched2 w) →
         ∃ region instances, regions !! i = Some region ∧
           result = (decided start instances t, decided stop instances t,
                     mk_client region, reasons instances t)) ∧
      (rp_regions (lambda_handler h sched1 sched2 w)).*1
        ≡ₚ seq 0 (length regions) ∧
      (∀ i region,
         regions !! i = Some region →
         ∃ o hist,
           (i, o) ∈ rp_regions (lambda_handler h sched1 sched2 w) ∧
           path (process_region region t) hist (of_res o) ∧
           hist `sublist_of` later ∧
           ∀ result, o = Ok result →
             ∃ instances,
               listings hist = [instances] ∧
               result = (decided start instances t,
                         decided stop instances t,
                         mk_client region, reasons instances t)).
Proof.
  intros sched1 sched2 w regions Hd.
  pose proof (read_get_all_regions h w) as Hread0.
  destruct (lambda_handler_ok h sched1 sched2 w regions Hd)
    as (t & new1 & new2 & Hres & Htr & Hnew1 & Hnew2 & Hperm1 & Hdone1 & _).
  destruct (lambda_handler_region_futures sched1 sched2 w regions Hd)
    as (t' & later & Htr' & Hfutures).
  rewrite Htr in Htr'. apply clock_split_eq in Htr' as [<- <-].
  exists t, (new1 ++ new2).
  split; [done |]. split.
  { rewrite Htr. unfold clock_reads. rewrite !omap_app.
    fold (clock_reads (run h get_all_regions w []).2).
    fold (clock_reads new1). fold (clock_reads new2).
    rewrite (clock_reads_none new2), (clock_reads_none new1),
      (clock_reads_none (run h get_all_regions w []).2); [done | | |].
    - eapply Forall_impl; [exact Hread0 |]. by intros ev [_ ?].
    - eapply Forall_impl; [exact Hnew1 |]. by intros ev [_ ?].
    - eapply Forall_impl; [exact Hnew2 |]. by intros ev (_ & _ & ? & _). }
  split.
  { intros i o Hio. by destruct (Hdone1 _ _ Hio) as (? & _). }
  split.
  { intros i result Hio.
    destruct (Hdone1 _ _ Hio) as ((region & Hregion & Hends) & _).
    apply ends_process_region in Hends as [instances ->].
    by exists region, instances. }
  split; [done |].
  intros i region Hi.
  destruct (Hfutures i region Hi) as (o & hist & Hio & Hpath & Hsub & _ & Hret).
  by exists o, hist.
Qed.

(** X15: what the handler decided, it sends.  The loop over [results]
    takes the region results in the order their futures were collected.
    A start list that is not empty has its batch task right after the
    tasks of the results collected before, a stop list that is not empty
    right after that; the task's future is collected, and holds what the
    task gives on the answers to its own requests.  If the task returned,
    its requests have exactly one successful call per slice of the list,
    in order; if it raised, the slices before one of them went through,
    its last call is the call for that slice that raised this exception,
    and the error line with this exception is logged when this very
    future is collected. *)
Theorem lambda_handler_sends_what_it_decided :
  ∀ (sched1 sched2 : list Choice) (w : W)
    (before after : list (nat * Res RegionResult)) (i : nat)
    (start_ids stop_ids messages : list string) (ec2_client : Client),
    rp_regions (lambda_handler h sched1 sched2 w) =
      before ++ (i, Ok (start_ids, stop_ids, ec2_client, messages)) :: after →
    (start_ids ≠ [] →
     batch_future (lambda_handler h sched1 sched2 w)
       (start_instances ec2_client) start_ids (batch_index before)) ∧
    (stop_ids ≠ [] →
     batch_future (lambda_handler h sched1 sched2 w)
       (stop_instances ec2_client) stop_ids
       (batch_index before + (if decide (start_ids = []) then 0 else 1))).
Proof.
  intros sched1 sched2 w before after i start_ids stop_ids messages ec2_client
    Hregions.
  destruct (submitted_region_batches before after i start_ids stop_ids
              ec2_client messages) as [Hstart Hstop].
  split; intros Hne; apply lambda_handler_batch_future; rewrite Hregions.
  - by apply Hstart.
  - by apply Hstop.
Qed.

End HandlerTasks.

(** The fleet under the round-robin scheduler: the clock is read once, at
    the third request. *)
Lemma lambda_handler_single_timestamp_witness :
  ∃ t,
    clock_reads
      (rp_trace (@lambda_handler scenario_croniter sim sim_handler
                   round_robin [RunMain; RunMain; RunWorker 1] fleet)) = [t].
Proof.
  destruct (@lambda_handler_single_timestamp scenario_croniter sim sim_handler
              round_robin [RunMain; RunMain; RunWorker 1] fleet
              ["us-east-1"; "eu-west-1"; "ap-south-1"]%string eq_refl)
    as (t & later & _ & Hclock & _).
  exists t. exact Hclock.
Defined.

(** The fleet on the day every call is refused: the region collected
    first, ["ap-south-1"], has one instance to stop; its batch task is the
    first of the second pool; the handler returns all the same. *)
Lemma lambda_handler_failure_isolation_witness :
  rp_result (@lambda_handler scenario_croniter sim sim_handler
               round_robin [RunMain; RunMain; RunWorker 1] refused_fleet)
    = Ok tt ∧
  batch_future
    (@lambda_handler scenario_croniter sim sim_handler
       round_robin [RunMain; RunMain; RunWorker 1] refused_fleet)
    (stop_instances (mk_client "ap-south-1")) ["i-f"]%string 0%nat.
Proof.
  destruct (proj2 (@lambda_handler_failure_isolation scenario_croniter sim
              sim_handler round_robin [RunMain; RunMain; RunWorker 1]
              refused_fleet)
              ["us-east-1"; "eu-west-1"; "ap-south-1"]%string eq_refl)
    as (Hresult & _ & _ & _ & _ & _ & _ & _ & Hbatches & _).
  split; [exact Hresult |].
  refine (proj2 (Hbatches []
    [(0%nat, Ok (["i-a"; "i-e"], ["i-b"], mk_client "us-east-1",
                  @reasons scenario_croniter
                    (flat_map Instances (flat_map Reservations east_pages))
                    (fleet_clock 2)));
     (1%nat, Raise (Exception "AuthFailure"))]%string
    2%nat [] ["i-f"]%string (mk_client "ap-south-1")
    (@reasons scenario_croniter [tagged "i-f" "true" "0 0 1 1 *"]
       (fleet_clock 2)) _) _).
  - vm_compute. reflexivity.
  - discriminate.
Defined.

(** The same run, computed: the three batch futures raised, each was
    attempted five times, and each has its error line. *)
Example lambda_handler_refused_fleet :
  rp_batches (@lambda_handler scenario_croniter sim sim_handler
                round_robin [RunMain; RunMain; RunWorker 1] refused_fleet) =
    [(0%nat, Raise (Exception "RequestLimitExceeded"));
     (1%nat, Raise (Exception "RequestLimitExceeded"));
     (2%nat, Raise (Exception "RequestLimitExceeded"))] ∧
  calls (rp_trace (@lambda_handler scenario_croniter sim sim_handler
                     round_robin [RunMain; RunMain; RunWorker 1] refused_fleet)) =
    replicate 5 (stop_instances (mk_client "ap-south-1"), kwargs_of ["i-f"]) ++
    replicate 5 (start_instances (mk_client "us-east-1"),
                 kwargs_of ["i-a"; "i-e"]) ++
    replicate 5 (stop_instances (mk_client "us-east-1"), kwargs_of ["i-b"]) ∧
  filter (λ r, r = ErrorBatchOperation (Exception "RequestLimitExceeded"))
    (log_lines (rp_trace (@lambda_handler scenario_croniter sim sim_handler
                            round_robin [RunMain; RunMain; RunWorker 1]
                            refused_fleet))) =
    replicate 3 (ErrorBatchOperation (Exception "RequestLimitExceeded")).
Proof. vm_compute. done. Qed.


(** The fleet under the round-robin scheduler. *)
Lemma lambda_handler_logs_every_decision_witness :
  Ev (Log (Info (msg_not_scheduled "i-c"))) tt
    ∈ rp_trace (@lambda_handler scenario_croniter sim sim_handler
                  round_robin [RunMain; RunMain; RunWorker 1] fleet).
Proof.
  apply (@lambda_handler_logs_every_decision scenario_croniter sim sim_handler
           round_robin [RunMain; RunMain; RunWorker 1] fleet 0
           ["i-a"; "i-e"]%string ["i-b"]%string
           (@reasons scenario_croniter
              (flat_map Instances (flat_map Reservations east_pages))
              (fleet_clock 2))
           (mk_client "us-east-1") (msg_not_scheduled "i-c")).
  - vm_compute. right. left.
  - vm_compute. right. right. left.
Defined.

Lemma lambda_handler_contacts_every_region_witness :
  ∃ x,
    Ev (Boto3Client "eu-west-1") x
      ∈ rp_trace (@lambda_handler scenario_croniter sim sim_handler
                    round_robin [RunMain; RunMain; RunWorker 1] fleet) ∧
    (is_raise x = false →
     ∃ y, Ev (Paginate (mk_client "eu-west-1")) y
            ∈ rp_trace (@lambda_handler scenario_croniter sim sim_handler
                          round_robin [RunMain; RunMain; RunWorker 1] fleet)).
Proof.
  apply (@lambda_handler_contacts_every_region scenario_croniter sim sim_handler
           round_robin [RunMain; RunMain; RunWorker 1] fleet
           ["us-east-1"; "eu-west-1"; "ap-south-1"]%string "eu-west-1").
  - reflexivity.
  - right. left.
Defined.

(** The fleet under the round-robin scheduler: ["us-east-1"] is collected
    after ["ap-south-1"], which has one task, so the task for its start
    list is the second of the second pool. *)
Lemma lambda_handler_sends_what_it_decided_witness :
  batch_future
    (@lambda_handler scenario_croniter sim sim_handler
       round_robin [RunMain; RunMain; RunWorker 1] fleet)
    (start_instances (mk_client "us-east-1")) ["i-a"; "i-e"]%string 1%nat.
Proof.
  refine (proj1 (@lambda_handler_sends_what_it_decided scenario_croniter sim
    sim_handler round_robin [RunMain; RunMain; RunWorker 1] fleet
    [(2%nat, Ok ([], ["i-f"], mk_client "ap-south-1",
                  @reasons scenario_croniter [tagged "i-f" "true" "0 0 1 1 *"]
                    (fleet_clock 2)))]%string
    [(1%nat, Raise (Exception "AuthFailure"))]
    0%nat ["i-a"; "i-e"]%string ["i-b"]%string
    (@reasons scenario_croniter
       (flat_map Instances (flat_map Reservations east_pages))
       (fleet_clock 2))
    (mk_client "us-east-1") _) _).
  - vm_compute. reflexivity.
  - discriminate.
Defined.

Lemma lambda_handler_idle_makes_no_call_witness :
  calls (rp_trace (@lambda_handler scenario_croniter sim sim_handler
                     round_robin [] idle_fleet)) = [].
Proof.
  apply (@lambda_handler_idle_makes_no_call scenario_croniter sim sim_handler
           round_robin [] idle_fleet).
  vm_compute. repeat constructor.
Defined.
